(** * SILGen: lowering of type-checked ASTs to SIL (lib/SIL/SILGen/SILGen.cpp)

    A shallow embedding of the module-level driver of SIL generation:
    the function cache ([getFunction], [hasFunction]), linkage
    ([getConstantLinkage]), the pre/post emission protocol, the emission
    routines for functions, constructors, closures, destructors, default
    argument generators, curry thunks and ObjC thunks, the top-level
    pattern-binding visitor, the bridging-function resolver, the
    fall-off-the-end logic of [SILGenFunction]'s destructor and the entry
    point [constructSIL].

    Pointers to AST nodes are node identifiers, pointers to SIL functions
    are indices into the module's function list, and the driver runs in a
    state monad over [SILGenModule] whose failures are the two ways the
    C++ code leaves the session: a failed [assert] and [exit(1)]. *)

From stdpp Require Import base option list gmap strings.
From Stdlib Require Import NArith Lia.

Local Open Scope string_scope.
Local Open Scope list_scope.

(** ** The AST, as far as the driver inspects it *)

Module AST.

(** An AST node is identified by its address. *)
Definition NodeId := N.

(** [DeclContext]: the driver walks the parent chain up to the module
    context and asks each context whether it is local or a type. *)
Inductive DeclContext : Type :=
| ModuleContext (isClangModule : bool)
| NestedContext (isLocal isType : bool) (parent : DeclContext).

Definition isModuleContext (dc : DeclContext) : bool :=
  match dc with ModuleContext _ => true | NestedContext _ _ _ => false end.

Definition isLocalContext (dc : DeclContext) : bool :=
  match dc with ModuleContext _ => false | NestedContext l _ _ => l end.

Definition isTypeContext (dc : DeclContext) : bool :=
  match dc with ModuleContext _ => false | NestedContext _ t _ => t end.

(** An expression: its address and whether its type is the empty tuple. *)
Record Expr : Type := mkExpr { exprId : NodeId; exprTypeIsVoid : bool }.

(** Patterns.  A tuple pattern's element carries its sub-pattern and an
    optional default initializer. *)
Inductive Pattern : Type :=
| TuplePattern (fields : list TuplePatternElt)
| ParenPattern (sub : Pattern)
| TypedPattern (sub : Pattern)
| NamedPattern (name : string)
| AnyPattern
with TuplePatternElt : Type :=
| mkTuplePatternElt (eltPattern : Pattern) (eltInit : option Expr).

Definition getInit (elt : TuplePatternElt) : option Expr :=
  match elt with mkTuplePatternElt _ init => init end.

(** Modelled from the spec: [Pattern::getSemanticsProvidingPattern] is
    not in src/; it strips the parentheses and type annotations that
    wrap a pattern, so that the index "descends into tuple
    sub-patterns" of a parenthesised or typed parameter list too. *)
Fixpoint getSemanticsProvidingPattern (p : Pattern) : Pattern :=
  match p with
  | ParenPattern sub => getSemanticsProvidingPattern sub
  | TypedPattern sub => getSemanticsProvidingPattern sub
  | _ => p
  end.

(** What [FuncExpr::getDecl()] gives access to. *)
Record DeclHeader : Type := mkDeclHeader {
  hdrId : NodeId;
  hdrContext : DeclContext
}.

Record FuncExpr : Type := mkFuncExpr {
  feId : NodeId;
  feDecl : option DeclHeader;
  feArgParamPatterns : list Pattern;
  feBody : option NodeId;
  feResultIsVoid : bool
}.

Record FuncDecl : Type := mkFuncDecl {
  fdId : NodeId;
  fdContext : DeclContext;
  fdBody : FuncExpr;
  fdIsGetterOrSetter : bool;
  fdIsInstanceMember : bool
}.

Record ConstructorDecl : Type := mkConstructorDecl {
  cdId : NodeId;
  cdContext : DeclContext;
  cdArguments : Pattern;
  cdBody : option NodeId;
  (** [getImplicitThisDecl()->getType()->getClassOrBoundGenericClass()]
      is non-null *)
  cdThisIsClass : bool
}.

Record DestructorDecl : Type := mkDestructorDecl {
  ddId : NodeId;
  ddBody : option NodeId
}.

Record VarDecl : Type := mkVarDecl {
  vdId : NodeId;
  vdContext : DeclContext;
  vdIsProperty : bool;
  vdIsSettable : bool
}.

Record SubscriptDecl : Type := mkSubscriptDecl {
  sdId : NodeId;
  sdContext : DeclContext
}.

Record ClassDecl : Type := mkClassDecl {
  cldId : NodeId;
  cldContext : DeclContext
}.

Inductive ValueDecl : Type :=
| VD_Func (fd : FuncDecl)
| VD_Constructor (cd : ConstructorDecl)
| VD_Var (vd : VarDecl)
| VD_Subscript (sd : SubscriptDecl)
| VD_Class (cld : ClassDecl)
| VD_Other (id : NodeId) (dc : DeclContext).

Definition getDeclContext (d : ValueDecl) : DeclContext :=
  match d with
  | VD_Func fd => fdContext fd
  | VD_Constructor cd => cdContext cd
  | VD_Var vd => vdContext vd
  | VD_Subscript sd => sdContext sd
  | VD_Class cld => cldContext cld
  | VD_Other _ dc => dc
  end.

Definition declAddress (d : ValueDecl) : NodeId :=
  match d with
  | VD_Func fd => fdId fd
  | VD_Constructor cd => cdId cd
  | VD_Var vd => vdId vd
  | VD_Subscript sd => sdId sd
  | VD_Class cld => cldId cld
  | VD_Other id _ => id
  end.

Record PipeClosureExpr : Type := mkPipeClosureExpr {
  pceId : NodeId;
  pceBody : option NodeId;
  pceResultIsVoid : bool
}.

Record ClosureExpr : Type := mkClosureExpr {
  ceId : NodeId;
  ceBody : Expr
}.

Inductive CapturingExpr : Type :=
| CE_Func (fe : FuncExpr)
| CE_PipeClosure (pce : PipeClosureExpr)
| CE_Closure (ce : ClosureExpr).

Definition exprAddress (e : CapturingExpr) : NodeId :=
  match e with
  | CE_Func fe => feId fe
  | CE_PipeClosure pce => pceId pce
  | CE_Closure ce => ceId ce
  end.

Record PatternBindingDecl : Type := mkPatternBindingDecl {
  pbdId : NodeId
}.

(** The nodes a [SILLocation] can point at. *)
Inductive ASTNode : Type :=
| NodeFuncExpr (fe : FuncExpr)
| NodePipeClosureExpr (pce : PipeClosureExpr)
| NodeClosureExpr (ce : ClosureExpr)
| NodeConstructorDecl (cd : ConstructorDecl)
| NodeDestructorDecl (dd : DestructorDecl)
| NodeVarDecl (vd : VarDecl)
| NodeExpr (e : Expr)
| NodeStmt (id : NodeId).

(** Top-level declarations the driver of this file dispatches on. *)
Inductive Decl : Type :=
| D_Func (fd : FuncDecl)
| D_PatternBinding (pd : PatternBindingDecl)
| D_Var (vd : VarDecl).

End AST.
Export AST.

(** ** Declaration references *)

Module DeclRef.

Inductive Kind : Type :=
| Func | Getter | Setter | Allocator | Initializer | Destroyer
| DefaultArgGenerator.

#[export] Instance Kind_eq_dec : EqDecision Kind.
Proof. solve_decision. Defined.

Definition Kind_code (k : Kind) : N :=
  match k with
  | Func => 0 | Getter => 1 | Setter => 2 | Allocator => 3
  | Initializer => 4 | Destroyer => 5 | DefaultArgGenerator => 6
  end%N.

Definition Kind_of_code (n : N) : option Kind :=
  match n with
  | 0 => Some Func | 1 => Some Getter | 2 => Some Setter
  | 3 => Some Allocator | 4 => Some Initializer | 5 => Some Destroyer
  | 6 => Some DefaultArgGenerator | _ => None
  end%N.

#[export] Instance Kind_countable : Countable Kind.
Proof.
  apply (inj_countable Kind_code Kind_of_code).
  intros []; reflexivity.
Defined.

(** [SILDeclRef::Loc]: a declaration or a capturing expression. *)
Inductive Loc : Type :=
| LocValueDecl (d : ValueDecl)
| LocCapturingExpr (e : CapturingExpr).

Definition locAddress (l : Loc) : NodeId :=
  match l with
  | LocValueDecl d => declAddress d
  | LocCapturingExpr e => exprAddress e
  end.

Record SILDeclRef : Type := mkSILDeclRef {
  loc : Loc;
  kind : Kind;
  uncurryLevel : N;
  isObjC : bool;
  defaultArgIndex : N
}.

Definition hasDecl (c : SILDeclRef) : bool :=
  match loc c with LocValueDecl _ => true | LocCapturingExpr _ => false end.

Definition getDecl (c : SILDeclRef) : option ValueDecl :=
  match loc c with LocValueDecl d => Some d | LocCapturingExpr _ => None end.

(** The identity of a reference, as the function cache hashes and
    compares it: the address of its location and its other fields.
    ("Two references are equal iff all fields match.") *)
Definition Key : Type := NodeId * Kind * N * bool * N.

Definition key (c : SILDeclRef) : Key :=
  (locAddress (loc c), kind c, uncurryLevel c, isObjC c, defaultArgIndex c).

Definition atUncurryLevel (c : SILDeclRef) (level : N) : SILDeclRef :=
  {| loc := loc c; kind := kind c; uncurryLevel := level;
     isObjC := isObjC c; defaultArgIndex := defaultArgIndex c |}.

(** Modelled from the spec: the constructors of [SILDeclRef] are not in
    src/.  The natural uncurry level of a function is the number of
    argument lists that remain after the first ("a module-level
    function with 3 curried argument lists ... forwarding uncurry level
    2→1→0"). *)
Definition getFuncNaturalUncurryLevel (fe : FuncExpr) : N :=
  (N.of_nat (length (feArgParamPatterns fe)) - 1)%N.

(** Modelled from the spec: [SILDeclRef(Loc)], the reference of a
    location at its natural uncurry level: a plain function reference
    for a function, the allocating half for a constructor. *)
Definition ofLoc (l : Loc) : SILDeclRef :=
  match l with
  | LocValueDecl (VD_Func fd) =>
      mkSILDeclRef l Func (getFuncNaturalUncurryLevel (fdBody fd)) false 0
  | LocValueDecl (VD_Constructor _) => mkSILDeclRef l Allocator 0 false 0
  | LocValueDecl _ => mkSILDeclRef l Func 0 false 0
  | LocCapturingExpr (CE_Func fe) =>
      mkSILDeclRef l Func (getFuncNaturalUncurryLevel fe) false 0
  | LocCapturingExpr _ => mkSILDeclRef l Func 0 false 0
  end.

(** Modelled from the spec: [SILDeclRef(decl, kind)] and
    [SILDeclRef(decl, kind, ConstructAtNaturalUncurryLevel, isObjC)]
    for the kinds the driver names explicitly. *)
Definition ofDeclKind (d : ValueDecl) (k : Kind) (objc : bool) : SILDeclRef :=
  mkSILDeclRef (LocValueDecl d) k 0 objc 0.

(** Modelled from the spec: [SILDeclRef(method,
    ConstructAtNaturalUncurryLevel, isObjC)]. *)
Definition ofFuncDecl (fd : FuncDecl) (objc : bool) : SILDeclRef :=
  mkSILDeclRef (LocValueDecl (VD_Func fd)) Func
               (getFuncNaturalUncurryLevel (fdBody fd)) objc 0.

(** Modelled from the spec: [SILDeclRef::getDefaultArgGenerator], the
    reference of the "synthesized default-argument generator for a
    specific parameter index". *)
Definition getDefaultArgGenerator (l : Loc) (index : N) : SILDeclRef :=
  mkSILDeclRef l DefaultArgGenerator 0 false index.

End DeclRef.
Export DeclRef.

(** ** The SIL container, the builder and the cleanup stack *)

Module SIL.

(** A lowered type is uniqued: it is identified by its address. *)
Definition SILType := N.

Inductive SILLinkage : Type := Internal | External | ClangThunk.

#[export] Instance SILLinkage_eq_dec : EqDecision SILLinkage.
Proof. solve_decision. Defined.

(** A location is an AST node or empty ([SILLocation()]). *)
Definition SILLocation := option ASTNode.

(** A value is the result of an instruction of the function under
    construction: the block and the position that define it. *)
Record SILValue : Type := mkSILValue { defBlock : nat; defIndex : nat }.

(** A pending cleanup action. *)
Record Cleanup : Type := mkCleanup { cleanupId : N }.

Inductive SILInstruction : Type :=
| TupleInst (l : SILLocation) (elts : list SILValue)
| CleanupInst (c : Cleanup)       (* the code of one cleanup action *)
| ReturnInst (l : SILLocation) (v : SILValue)
| UnreachableInst (l : SILLocation)
| OtherInst (opcode : N).

Definition isTerminator (i : SILInstruction) : bool :=
  match i with
  | ReturnInst _ _ | UnreachableInst _ => true
  | _ => false
  end.

Definition SILBasicBlock := list SILInstruction.

Record SILFunction : Type := mkSILFunction {
  fnLinkage : SILLinkage;
  fnName : string;
  fnLoweredType : SILType;
  fnBlocks : list SILBasicBlock;
  fnDebugScope : option SILLocation;
  fnLocation : SILLocation
}.

Definition setBlocks (bs : list SILBasicBlock) (fn : SILFunction) : SILFunction :=
  mkSILFunction (fnLinkage fn) (fnName fn) (fnLoweredType fn) bs
                (fnDebugScope fn) (fnLocation fn).

Definition setName (name : string) (fn : SILFunction) : SILFunction :=
  mkSILFunction (fnLinkage fn) name (fnLoweredType fn) (fnBlocks fn)
                (fnDebugScope fn) (fnLocation fn).

Definition setDebugScope (ds : SILLocation) (fn : SILFunction) : SILFunction :=
  mkSILFunction (fnLinkage fn) (fnName fn) (fnLoweredType fn) (fnBlocks fn)
                (Some ds) (fnLocation fn).

Definition setLocation (l : SILLocation) (fn : SILFunction) : SILFunction :=
  mkSILFunction (fnLinkage fn) (fnName fn) (fnLoweredType fn) (fnBlocks fn)
                (fnDebugScope fn) l.

(** [SILFunction::empty()] and [isExternalDeclaration()]: a function
    without blocks is a bare declaration. *)
Definition empty (fn : SILFunction) : bool :=
  match fnBlocks fn with [] => true | _ :: _ => false end.

Definition isExternalDeclaration (fn : SILFunction) : bool := empty fn.

(** The module owns the functions, in creation order, and the globals.
    A pointer to a function is its index in [functions]. *)
Record SILModule : Type := mkSILModule {
  functions : list SILFunction;
  globals : gset NodeId
}.

(** Modelled from the spec: the builder is not in src/.  It "maintains
    a single current insertion block per function-in-progress"; the
    block is an index into the function's blocks, absent once a
    terminator has been inserted. *)
Record SILBuilder : Type := mkSILBuilder { insertionBB : option nat }.

Definition hasValidInsertionPoint (b : SILBuilder) : bool :=
  match insertionBB b with Some _ => true | None => false end.

(** Modelled from the spec: "a scoped, LIFO registry of pending
    deallocation/release actions" (CleanupManager is not in src/).
    The head of the list is the innermost (most recently pushed)
    cleanup. *)
Definition CleanupStack := list Cleanup.

Definition pushCleanup (c : Cleanup) (st : CleanupStack) : CleanupStack := c :: st.

End SIL.
Export SIL.

(** ** The state of a generation session *)

Module Session.

(** The per-function emission context. *)
Record SILGenFunction : Type := mkSILGenFunction {
  F : nat;
  B : SILBuilder;
  Cleanups : CleanupStack;
  hasVoidReturn : bool;
  epilogBB : option nat
}.

(** The entry points of [SILGenFunction] that the driver calls and that
    live outside src/, with their arguments. *)
Inductive BodyRequest : Type :=
| EmitFunction (fe : FuncExpr)
| EmitCurryThunk (fe : FuncExpr) (entryPoint nextEntryPoint : SILDeclRef)
| EmitClassConstructorAllocator (decl : ConstructorDecl)
| EmitClassConstructorInitializer (decl : ConstructorDecl)
| EmitValueConstructor (decl : ConstructorDecl)
| EmitPipeClosure (ce : PipeClosureExpr)
| EmitClosure (ce : ClosureExpr)
| EmitDestructor (cd : ClassDecl) (dd : option DestructorDecl)
| EmitGeneratorFunction (constant : SILDeclRef) (arg : Expr)
| EmitObjCMethodThunk (thunk : SILDeclRef)
| EmitObjCPropertyGetter (getter : SILDeclRef)
| EmitObjCPropertySetter (setter : SILDeclRef)
| VisitPatternBinding (pd : PatternBindingDecl).

(** The record of what the driver asked for, in order: one entry for
    every [SILGenFunction] it runs an emitter on, with the reference
    being lowered, the function, the [hasVoidReturn] flag and the
    request; and one entry for every binding visited at top level. *)
Inductive Event : Type :=
| Emitted (constant : SILDeclRef) (f : nat) (hasVoidReturn : bool)
          (req : BodyRequest)
| TopLevel (req : BodyRequest).

Inductive DiagID : Type :=
| bridging_module_missing
| bridging_function_missing
| bridging_function_overloaded
| bridging_function_not_function
| bridging_function_not_correct_type.

(** A diagnostic: the source location (of a declaration, or none), the
    message and its two arguments. *)
Record Diagnostic : Type := mkDiagnostic {
  diagLoc : option NodeId;
  diagID : DiagID;
  diagModule : string;
  diagFunction : string
}.

Record SILGenModule : Type := mkSILGenModule {
  M : SILModule;
  emittedFunctions : gmap Key nat;
  TopLevelSGF : option SILGenFunction;
  NSStringToStringFn : option SILDeclRef;
  StringToNSStringFn : option SILDeclRef;
  BoolToObjCBoolFn : option SILDeclRef;
  ObjCBoolToBoolFn : option SILDeclRef;
  diags : list Diagnostic;
  trace : list Event
}.

Definition setM (m : SILModule) (s : SILGenModule) : SILGenModule :=
  mkSILGenModule m (emittedFunctions s) (TopLevelSGF s)
    (NSStringToStringFn s) (StringToNSStringFn s) (BoolToObjCBoolFn s)
    (ObjCBoolToBoolFn s) (diags s) (trace s).

Definition setEmittedFunctions (e : gmap Key nat) (s : SILGenModule) : SILGenModule :=
  mkSILGenModule (M s) e (TopLevelSGF s)
    (NSStringToStringFn s) (StringToNSStringFn s) (BoolToObjCBoolFn s)
    (ObjCBoolToBoolFn s) (diags s) (trace s).

Definition setTopLevelSGF (t : option SILGenFunction) (s : SILGenModule) : SILGenModule :=
  mkSILGenModule (M s) (emittedFunctions s) t
    (NSStringToStringFn s) (StringToNSStringFn s) (BoolToObjCBoolFn s)
    (ObjCBoolToBoolFn s) (diags s) (trace s).

Definition setDiags (d : list Diagnostic) (s : SILGenModule) : SILGenModule :=
  mkSILGenModule (M s) (emittedFunctions s) (TopLevelSGF s)
    (NSStringToStringFn s) (StringToNSStringFn s) (BoolToObjCBoolFn s)
    (ObjCBoolToBoolFn s) d (trace s).

Definition setTrace (t : list Event) (s : SILGenModule) : SILGenModule :=
  mkSILGenModule (M s) (emittedFunctions s) (TopLevelSGF s)
    (NSStringToStringFn s) (StringToNSStringFn s) (BoolToObjCBoolFn s)
    (ObjCBoolToBoolFn s) (diags s) t.

Definition setFunctions (fs : list SILFunction) (s : SILGenModule) : SILGenModule :=
  setM (mkSILModule fs (globals (M s))) s.

(** The four memo cells of the bridging functions. *)
Inductive CacheSlot : Type :=
| SlotNSStringToString | SlotStringToNSString
| SlotBoolToObjCBool | SlotObjCBoolToBool.

Definition getSlot (slot : CacheSlot) (s : SILGenModule) : option SILDeclRef :=
  match slot with
  | SlotNSStringToString => NSStringToStringFn s
  | SlotStringToNSString => StringToNSStringFn s
  | SlotBoolToObjCBool => BoolToObjCBoolFn s
  | SlotObjCBoolToBool => ObjCBoolToBoolFn s
  end.

Definition setSlot (slot : CacheSlot) (v : option SILDeclRef) (s : SILGenModule)
  : SILGenModule :=
  match slot with
  | SlotNSStringToString =>
      mkSILGenModule (M s) (emittedFunctions s) (TopLevelSGF s)
        v (StringToNSStringFn s) (BoolToObjCBoolFn s)
        (ObjCBoolToBoolFn s) (diags s) (trace s)
  | SlotStringToNSString =>
      mkSILGenModule (M s) (emittedFunctions s) (TopLevelSGF s)
        (NSStringToStringFn s) v (BoolToObjCBoolFn s)
        (ObjCBoolToBoolFn s) (diags s) (trace s)
  | SlotBoolToObjCBool =>
      mkSILGenModule (M s) (emittedFunctions s) (TopLevelSGF s)
        (NSStringToStringFn s) (StringToNSStringFn s) v
        (ObjCBoolToBoolFn s) (diags s) (trace s)
  | SlotObjCBoolToBool =>
      mkSILGenModule (M s) (emittedFunctions s) (TopLevelSGF s)
        (NSStringToStringFn s) (StringToNSStringFn s) (BoolToObjCBoolFn s)
        v (diags s) (trace s)
  end.

(** How a step of the driver ends: normally, with a value and the new
    state; by a failed [assert] (the message is the assertion's); or by
    [exit(1)], leaving the state in which the diagnostics were
    reported. *)
Inductive Outcome (A : Type) : Type :=
| Done (a : A) (s : SILGenModule)
| AssertionFailure (msg : string)
| Exit1 (s : SILGenModule).
Arguments Done {A} a s.
Arguments AssertionFailure {A} msg.
Arguments Exit1 {A} s.

Definition Gen (A : Type) : Type := SILGenModule -> Outcome A.

Definition ret {A} (a : A) : Gen A := fun s => Done a s.

Definition bind {A B} (c : Gen A) (k : A -> Gen B) : Gen B :=
  fun s =>
    match c s with
    | Done a s' => k a s'
    | AssertionFailure msg => AssertionFailure msg
    | Exit1 s' => Exit1 s'
    end.

Definition get : Gen SILGenModule := fun s => Done s s.
Definition modify (f : SILGenModule -> SILGenModule) : Gen unit :=
  fun s => Done tt (f s).
Definition assert (b : bool) (msg : string) : Gen unit :=
  fun s => if b then Done tt s else AssertionFailure msg.
Definition exit1 {A} : Gen A := fun s => Exit1 s.

(** [SGM.diagnose(loc, id, moduleName, functionName)] *)
Definition diagnose (l : option NodeId) (id : DiagID) (m f : string) : Gen unit :=
  modify (fun s => setDiags (diags s ++ [mkDiagnostic l id m f]) s).

Definition record (e : Event) : Gen unit :=
  modify (fun s => setTrace (trace s ++ [e]) s).

End Session.
Export Session.

Declare Scope gen_scope.
Delimit Scope gen_scope with gen.
Notation "x <- c ;; k" := (bind c (fun x => k))
  (at level 100, c at next level, k at level 200, right associativity)
  : gen_scope.
Notation "c ;; k" := (bind c (fun _ => k))
  (at level 100, k at level 200, right associativity) : gen_scope.
Local Open Scope gen_scope.

(** ** The driver *)

Module Driver.

(** What unqualified lookup can find. *)
Inductive LookupResult : Type :=
| ResultValueDecl (d : ValueDecl)
| ResultOther.

Definition hasValueDecl (r : LookupResult) : bool :=
  match r with ResultValueDecl _ => true | ResultOther => false end.

(** [unsigned] arithmetic of the parameter index. *)
Definition UINT_MODULUS : N := (2 ^ 32)%N.
Definition incr (index : N) : N := ((index + 1) mod UINT_MODULUS)%N.

#[export] Instance SILFunction_inhabited : Inhabited SILFunction :=
  populate (mkSILFunction Internal "" 0%N [] None None).

Section WithServices.

(** The collaborators of the driver that live outside src/: type
    lowering, mangling, name lookup, the verifier and the
    function-level emitters. *)
Variable getConstantType : SILDeclRef -> SILType.
Variable isPolymorphicFunctionType : SILType -> bool.
Variable getFunctionTypeInfo : SILType -> list SILType * SILType.
Variable mangle : SILDeclRef -> string.
Variable forModuleAndName : string -> string -> option (list LookupResult).
Variable verify : SILFunction -> bool.
Variable emitBody : BodyRequest -> SILGenFunction -> Gen SILGenFunction.
(** The lowered types the file names. *)
Variable topLevelLoweredType : SILType.
Variable NSStringTy ByrefStringTy BoolTy ObjCBoolTy EmptyTupleTy : SILType.

(** *** Reading and updating a function through its pointer *)

Definition functionAt (s : SILGenModule) (f : nat) : SILFunction :=
  functions (M s) !!! f.

Definition updateFunction (f : nat) (g : SILFunction -> SILFunction) : Gen unit :=
  modify (fun s => setFunctions (alter g f (functions (M s))) s).

(** [new (M) SILFunction(M, linkage, name, type)]: the function is
    appended to the module's list; its pointer is returned. *)
Definition newSILFunction (linkage : SILLinkage) (name : string) (ty : SILType)
  : Gen nat :=
  fun s =>
    Done (length (functions (M s)))
         (setFunctions
            (functions (M s) ++ [mkSILFunction linkage name ty [] None None]) s).

(** *** SILBuilder (modelled from the spec, section 4.2) *)

(** Modelled from the spec: "insert(instruction) appends to the
    current block and fails (compiler-internal assertion) if no valid
    insertion point exists; ... inserting a terminator
    (branch/return/unreachable) invalidates the insertion point". *)
Definition insert (f : nat) (b : SILBuilder) (i : SILInstruction) : Gen SILBuilder :=
  match insertionBB b with
  | None => fun _ => AssertionFailure "no valid insertion point"
  | Some bb =>
      updateFunction f
        (fun fn => setBlocks (alter (fun blk => blk ++ [i]) bb (fnBlocks fn)) fn) ;;
      ret (if isTerminator i then mkSILBuilder None else b)
  end.

Definition blockLength (s : SILGenModule) (f bb : nat) : nat :=
  length (default [] (fnBlocks (functionAt s f) !! bb)).

(** *** SILGenFunction *)

(** [SILGenFunction::SILGenFunction]: a fresh block is appended to
    [F] and the builder is positioned at it. *)
Definition SILGenFunction_new (f : nat) (hasVoidReturn : bool) : Gen SILGenFunction :=
  s <- get ;;
  let entry := length (fnBlocks (functionAt s f)) in
  updateFunction f (fun fn => setBlocks (fnBlocks fn ++ [[]]) fn) ;;
  ret (mkSILGenFunction f (mkSILBuilder (Some entry)) [] hasVoidReturn None).

Definition getFuncBodySILLocation (Func : SILLocation) : SILLocation :=
  match Func with
  | Some (NodeFuncExpr FE) => NodeStmt <$> feBody FE
  | Some (NodePipeClosureExpr FE) => NodeStmt <$> pceBody FE
  | Some (NodeClosureExpr FE) => Some (NodeExpr (ceBody FE))
  | Some (NodeConstructorDecl CD) => NodeStmt <$> cdBody CD
  | Some (NodeDestructorDecl DD) => NodeStmt <$> ddBody DD
  | _ => None
  end.

(** Modelled from the spec: [emitEmptyTuple] is not in src/; it
    materializes "the empty value" at the insertion point and returns
    it. *)
Definition emitEmptyTuple (l : SILLocation) (sgf : SILGenFunction)
  : Gen (SILValue * SILGenFunction) :=
  s <- get ;;
  let v := match insertionBB (B sgf) with
           | Some bb => mkSILValue bb (blockLength s (F sgf) bb)
           | None => mkSILValue 0 0
           end in
  b <- insert (F sgf) (B sgf) (TupleInst l []) ;;
  ret (v, mkSILGenFunction (F sgf) b (Cleanups sgf) (hasVoidReturn sgf)
                           (epilogBB sgf)).

(** Modelled from the spec: "popAndEmit ... emits the actions ... in
    reverse (LIFO) order at the current insertion point, then removes
    them". *)
Fixpoint emitCleanups (f : nat) (b : SILBuilder) (st : CleanupStack)
  : Gen SILBuilder :=
  match st with
  | [] => ret b
  | c :: rest =>
      b' <- insert f b (CleanupInst c) ;;
      emitCleanups f b' rest
  end.

(** Modelled from the spec: "emitReturnAndCleanups(value) pops the
    entire stack while constructing the final return instruction,
    guaranteeing cleanups run after the result value is materialized
    but before control leaves the function". *)
Definition emitReturnAndCleanups (l : SILLocation) (v : SILValue)
           (sgf : SILGenFunction) : Gen SILGenFunction :=
  b <- emitCleanups (F sgf) (B sgf) (Cleanups sgf) ;;
  b' <- insert (F sgf) b (ReturnInst l v) ;;
  ret (mkSILGenFunction (F sgf) b' [] (hasVoidReturn sgf) (epilogBB sgf)).

Definition createUnreachable (l : SILLocation) (sgf : SILGenFunction)
  : Gen SILGenFunction :=
  b <- insert (F sgf) (B sgf) (UnreachableInst l) ;;
  ret (mkSILGenFunction (F sgf) b (Cleanups sgf) (hasVoidReturn sgf)
                        (epilogBB sgf)).

(** [SILGenFunction::~SILGenFunction]: falling off the end of the
    function. *)
Definition SILGenFunction_destroy (sgf : SILGenFunction) : Gen unit :=
  if negb (hasValidInsertionPoint (B sgf)) then ret tt
  else if hasVoidReturn sgf then
    assert (negb (bool_decide (is_Some (epilogBB sgf))))
           "epilog bb not terminated?!" ;;
    r <- emitEmptyTuple None sgf ;;
    emitReturnAndCleanups None (fst r) (snd r) ;;
    ret tt
  else
    s <- get ;;
    createUnreachable
      (getFuncBodySILLocation (fnLocation (functionAt s (F sgf)))) sgf ;;
    ret tt.

(** A statement [SILGenFunction(SGM, f, hasVoidReturn).emitX(args)]: the
    temporary is constructed, the emitter runs on it, and the
    temporary is destroyed at the end of the statement. *)
Definition runSILGenFunction (constant : SILDeclRef) (f : nat)
           (hasVoidReturn : bool) (req : BodyRequest) : Gen unit :=
  sgf <- SILGenFunction_new f hasVoidReturn ;;
  record (Emitted constant f hasVoidReturn req) ;;
  sgf' <- emitBody req sgf ;;
  SILGenFunction_destroy sgf'.

(** *** SILGenModule *)

Definition emitTopLevelFunction : Gen nat :=
  newSILFunction Internal "top_level_code" topLevelLoweredType.

Definition emptySession (m : SILModule) : SILGenModule :=
  mkSILGenModule m ∅ None None None None None [] [].

(** [SILGenModule::SILGenModule] *)
Definition SILGenModule_new (m : SILModule) : Outcome unit :=
  (toplevel <- emitTopLevelFunction ;;
   updateFunction toplevel (setDebugScope None) ;;
   sgf <- SILGenFunction_new toplevel true ;;
   modify (setTopLevelSGF (Some sgf))) (emptySession m).

(** [SILGenModule::~SILGenModule] *)
Definition SILGenModule_destroy : Gen unit :=
  s <- get ;;
  match TopLevelSGF s with
  | Some sgf =>
      SILGenFunction_destroy sgf ;;
      modify (setTopLevelSGF None) ;;
      s' <- get ;;
      assert (verify (functionAt s' (F sgf))) "SIL verification failed" ;;
      assert (forallb verify (functions (M s'))) "SIL verification failed"
  | None => ret tt
  end.

Fixpoint walkToModule (dc : DeclContext) : option DeclContext :=
  match dc with
  | ModuleContext _ => Some dc
  | NestedContext isLocal _ parent =>
      if isLocal then None else walkToModule parent
  end.

Definition isClangModule (dc : DeclContext) : bool :=
  match dc with ModuleContext clang => clang | NestedContext _ _ _ => false end.

Definition getConstantLinkage (constant : SILDeclRef) : SILLinkage :=
  match getDecl constant with
  | None => Internal
  | Some d =>
      match walkToModule (getDeclContext d) with
      | None => Internal
      | Some dc =>
          if isClangModule dc &&
             match d with
             | VD_Constructor _ => true
             | VD_Subscript _ => true
             | VD_Var vd => vdIsProperty vd
             | _ => false
             end
          then ClangThunk
          else External
      end
  end.

(** [mangleConstant(constant, F)] gives [F] its name; the mangling itself
    is outside src/. *)
Definition mangleConstant (constant : SILDeclRef) (f : nat) : Gen unit :=
  updateFunction f (setName (mangle constant)).

Definition getFunction (constant : SILDeclRef) : Gen nat :=
  s <- get ;;
  match emittedFunctions s !! key constant with
  | Some found => ret found
  | None =>
      let constantType := getConstantType constant in
      let linkage := getConstantLinkage constant in
      f <- newSILFunction linkage "" constantType ;;
      mangleConstant constant f ;;
      modify (fun s => setEmittedFunctions
                         (<[key constant := f]> (emittedFunctions s)) s) ;;
      ret f
  end.

Definition hasFunction (constant : SILDeclRef) : Gen bool :=
  s <- get ;;
  ret (bool_decide (is_Some (emittedFunctions s !! key constant))).

Definition preEmitFunction (constant : SILDeclRef) (astNode : SILLocation)
  : Gen nat :=
  f <- getFunction constant ;;
  s <- get ;;
  assert (empty (functionAt s f)) "already emitted function?!" ;;
  updateFunction f (setDebugScope astNode) ;;
  updateFunction f (setLocation astNode) ;;
  ret f.

Definition postEmitFunction (constant : SILDeclRef) (f : nat) : Gen unit :=
  s <- get ;;
  assert (negb (isExternalDeclaration (functionAt s f)))
         "did not emit any function body?!" ;;
  assert (verify (functionAt s f)) "SIL verification failed".

Definition emitDefaultArgGenerator (constant : SILDeclRef) (arg : Expr)
  : Gen unit :=
  f <- preEmitFunction constant (Some (NodeExpr arg)) ;;
  runSILGenFunction constant f (exprTypeIsVoid arg)
                    (EmitGeneratorFunction constant arg) ;;
  postEmitFunction constant f.

(** The inner loop of [emitDefaultArgGenerators], over the fields of
    one tuple pattern; it returns the index after the last field. *)
Fixpoint emitDefaultArgGeneratorsOfFields (decl : Loc)
         (fields : list TuplePatternElt) (index : N) : Gen N :=
  match fields with
  | [] => ret index
  | elt :: rest =>
      match getInit elt with
      | Some handle =>
          emitDefaultArgGenerator (getDefaultArgGenerator decl index) handle
      | None => ret tt
      end ;;
      emitDefaultArgGeneratorsOfFields decl rest (incr index)
  end.

(** The outer loop, from a given index. *)
Fixpoint emitDefaultArgGeneratorsFrom (decl : Loc) (patterns : list Pattern)
         (index : N) : Gen unit :=
  match patterns with
  | [] => ret tt
  | pattern :: rest =>
      match getSemanticsProvidingPattern pattern with
      | TuplePattern fields =>
          index' <- emitDefaultArgGeneratorsOfFields decl fields index ;;
          emitDefaultArgGeneratorsFrom decl rest index'
      | _ => emitDefaultArgGeneratorsFrom decl rest (incr index)
      end
  end.

Definition emitDefaultArgGenerators (decl : Loc) (patterns : list Pattern)
  : Gen unit :=
  emitDefaultArgGeneratorsFrom decl patterns 0.

Definition emitCurryThunk (entryPoint nextEntryPoint : SILDeclRef)
           (fe : FuncExpr) : Gen unit :=
  f <- preEmitFunction entryPoint (Some (NodeFuncExpr fe)) ;;
  let hasVoidReturn := feResultIsVoid fe in
  runSILGenFunction entryPoint f hasVoidReturn
                    (EmitCurryThunk fe entryPoint nextEntryPoint) ;;
  postEmitFunction entryPoint f.

(** [while (level-- > 0)]: the loop body runs for level-1, ..., 0;
    the value [level] wraps to after the last test is never read. *)
Fixpoint emitCurryThunks (level : nat) (constant : SILDeclRef) (fe : FuncExpr)
  : Gen unit :=
  match level with
  | O => ret tt
  | S level' =>
      let curryConstant := atUncurryLevel constant (N.of_nat level') in
      emitCurryThunk curryConstant constant fe ;;
      emitCurryThunks level' curryConstant fe
  end.

(** [ArrayRef::slice(1)] *)
Definition slice1 (patterns : list Pattern) : Gen (list Pattern) :=
  match patterns with
  | [] => fun _ => AssertionFailure "Invalid specifier"
  | _ :: rest => ret rest
  end.

Definition emitFunction (decl : Loc) (fe : FuncExpr) : Gen unit :=
  patterns <-
    (match feDecl fe with
     | Some d =>
         if isTypeContext (hdrContext d)
         then slice1 (feArgParamPatterns fe)
         else ret (feArgParamPatterns fe)
     | None => ret (feArgParamPatterns fe)
     end) ;;
  emitDefaultArgGenerators decl patterns ;;
  match feBody fe with
  | None => ret tt
  | Some _ =>
      let constant := ofLoc decl in
      f <- preEmitFunction constant (Some (NodeFuncExpr fe)) ;;
      let hasVoidReturn := feResultIsVoid fe in
      runSILGenFunction constant f hasVoidReturn (EmitFunction fe) ;;
      postEmitFunction constant f ;;
      let fd := match decl with
                | LocValueDecl (VD_Func fd) => Some fd
                | _ => None
                end in
      if match fd with Some fd => fdIsGetterOrSetter fd | None => false end
      then ret tt
      else if match fd with Some fd => fdIsInstanceMember fd | None => false end
      then ret tt
      else
        s <- get ;;
        if isPolymorphicFunctionType (fnLoweredType (functionAt s f))
        then ret tt
        else emitCurryThunks (N.to_nat (uncurryLevel constant)) constant fe
  end.

Definition visitFuncDecl (fd : FuncDecl) : Gen unit :=
  emitFunction (LocValueDecl (VD_Func fd)) (fdBody fd).

Definition addGlobalVariable (global : VarDecl) : Gen unit :=
  modify (fun s => setM (mkSILModule (functions (M s))
                                     ({[vdId global]} ∪ globals (M s))) s).

Definition emitConstructor (decl : ConstructorDecl) : Gen unit :=
  emitDefaultArgGenerators (LocValueDecl (VD_Constructor decl))
                           [cdArguments decl] ;;
  let constant := ofLoc (LocValueDecl (VD_Constructor decl)) in
  f <- preEmitFunction constant (Some (NodeConstructorDecl decl)) ;;
  if cdThisIsClass decl then
    runSILGenFunction constant f true (EmitClassConstructorAllocator decl) ;;
    postEmitFunction constant f ;;
    let initConstant := ofDeclKind (VD_Constructor decl) Initializer false in
    initF <- preEmitFunction initConstant (Some (NodeConstructorDecl decl)) ;;
    runSILGenFunction initConstant initF true
                      (EmitClassConstructorInitializer decl) ;;
    postEmitFunction initConstant initF
  else
    runSILGenFunction constant f true (EmitValueConstructor decl) ;;
    postEmitFunction constant f.

Definition emitPipeClosure (ce : PipeClosureExpr) : Gen unit :=
  let constant := ofLoc (LocCapturingExpr (CE_PipeClosure ce)) in
  f <- preEmitFunction constant (Some (NodePipeClosureExpr ce)) ;;
  let hasVoidReturn := pceResultIsVoid ce in
  runSILGenFunction constant f hasVoidReturn (EmitPipeClosure ce) ;;
  postEmitFunction constant f.

Definition emitClosure (ce : ClosureExpr) : Gen unit :=
  let constant := ofLoc (LocCapturingExpr (CE_Closure ce)) in
  f <- preEmitFunction constant (Some (NodeClosureExpr ce)) ;;
  runSILGenFunction constant f false (EmitClosure ce) ;;
  postEmitFunction constant f.

Definition emitDestructor (cd : ClassDecl) (dd : option DestructorDecl)
  : Gen unit :=
  let destroyer := ofDeclKind (VD_Class cd) Destroyer false in
  f <- preEmitFunction destroyer (NodeDestructorDecl <$> dd) ;;
  runSILGenFunction destroyer f true (EmitDestructor cd dd) ;;
  postEmitFunction destroyer f.

Definition emitObjCMethodThunk (method : FuncDecl) : Gen unit :=
  let thunk := ofFuncDecl method true in
  exists_ <- hasFunction thunk ;;
  if exists_ then ret tt
  else
    f <- preEmitFunction thunk (Some (NodeFuncExpr (fdBody method))) ;;
    runSILGenFunction thunk f false (EmitObjCMethodThunk thunk) ;;
    postEmitFunction thunk f.

Definition emitObjCPropertyMethodThunks (prop : VarDecl) : Gen unit :=
  let getter := ofDeclKind (VD_Var prop) Getter true in
  exists_ <- hasFunction getter ;;
  if exists_ then ret tt
  else
    f <- preEmitFunction getter (Some (NodeVarDecl prop)) ;;
    runSILGenFunction getter f false (EmitObjCPropertyGetter getter) ;;
    postEmitFunction getter f ;;
    if negb (vdIsSettable prop) then ret tt
    else
      let setter := ofDeclKind (VD_Var prop) Setter true in
      f <- preEmitFunction setter (Some (NodeVarDecl prop)) ;;
      runSILGenFunction setter f false (EmitObjCPropertySetter setter) ;;
      postEmitFunction setter f.

Definition visitPatternBindingDecl (pd : PatternBindingDecl) : Gen unit :=
  s <- get ;;
  match TopLevelSGF s with
  | Some sgf =>
      if negb (hasValidInsertionPoint (B sgf)) then ret tt
      else
        record (TopLevel (VisitPatternBinding pd)) ;;
        sgf' <- emitBody (VisitPatternBinding pd) sgf ;;
        modify (setTopLevelSGF (Some sgf'))
  | None => ret tt
  end.

Definition visitVarDecl (vd : VarDecl) : Gen unit :=
  if negb (vdIsProperty vd) then addGlobalVariable vd else ret tt.

(** The dispatch of [sgm.visit(D)] on the declarations this file
    handles, and the loop of [constructSIL] over them. *)
Definition visit (D : Decl) : Gen unit :=
  match D with
  | D_Func fd => visitFuncDecl fd
  | D_PatternBinding pd => visitPatternBindingDecl pd
  | D_Var vd => visitVarDecl vd
  end.

Fixpoint visitAll (Decls : list Decl) : Gen unit :=
  match Decls with
  | [] => ret tt
  | D :: rest => visit D ;; visitAll rest
  end.

(** *** Bridging functions *)

(** [std::equal(first1, last1, first2)] *)
Fixpoint std_equal (xs ys : list SILType) : bool :=
  match xs with
  | [] => true
  | x :: xs' =>
      match ys with
      | y :: ys' => (x =? y)%N && std_equal xs' ys'
      | [] => false
      end
  end.

Definition resolveBridgingFn (moduleName functionName : string)
           (inputTypes : list SILType) (outputType : SILType)
  : Gen SILDeclRef :=
  match forModuleAndName moduleName functionName with
  | None =>
      diagnose None bridging_module_missing moduleName functionName ;;
      exit1
  | Some Results =>
      match Results with
      | [] =>
          diagnose None bridging_function_missing moduleName functionName ;;
          exit1
      | _ :: _ :: _ =>
          diagnose None bridging_function_overloaded moduleName functionName ;;
          exit1
      | [result] =>
          match result with
          | ResultOther =>
              diagnose None bridging_function_not_function
                       moduleName functionName ;;
              exit1
          | ResultValueDecl d =>
              match d with
              | VD_Func fd =>
                  let c := ofLoc (LocValueDecl (VD_Func fd)) in
                  let funcInfo := getFunctionTypeInfo (getConstantType c) in
                  if negb (length (fst funcInfo) =? length inputTypes)%nat
                     || negb (std_equal (fst funcInfo) inputTypes)
                  then
                    diagnose (Some (fdId fd)) bridging_function_not_correct_type
                             moduleName functionName ;;
                    exit1
                  else if negb (snd funcInfo =? outputType)%N
                  then
                    diagnose (Some (fdId fd)) bridging_function_not_correct_type
                             moduleName functionName ;;
                    exit1
                  else ret c
              | _ =>
                  diagnose (Some (declAddress d)) bridging_function_not_function
                           moduleName functionName ;;
                  exit1
              end
          end
      end
  end.

(** [getBridgingFn]: [cacheSlot.cache(...)] runs the resolution only
    when the slot is empty, and stores its result. *)
Definition getBridgingFn (cacheSlot : CacheSlot)
           (moduleName functionName : string)
           (inputTypes : list SILType) (outputType : SILType)
  : Gen SILDeclRef :=
  s <- get ;;
  match getSlot cacheSlot s with
  | Some fn => ret fn
  | None =>
      fn <- resolveBridgingFn moduleName functionName inputTypes outputType ;;
      modify (setSlot cacheSlot (Some fn)) ;;
      ret fn
  end.

Definition getNSStringToStringFn : Gen SILDeclRef :=
  getBridgingFn SlotNSStringToString "Foundation" "convertNSStringToString"
                [NSStringTy; ByrefStringTy] EmptyTupleTy.

Definition getStringToNSStringFn : Gen SILDeclRef :=
  getBridgingFn SlotStringToNSString "Foundation" "convertStringToNSString"
                [ByrefStringTy] NSStringTy.

Definition getBoolToObjCBoolFn : Gen SILDeclRef :=
  getBridgingFn SlotBoolToObjCBool "ObjectiveC" "convertBoolToObjCBool"
                [BoolTy] ObjCBoolTy.

Definition getObjCBoolToBoolFn : Gen SILDeclRef :=
  getBridgingFn SlotObjCBoolToBool "ObjectiveC" "convertObjCBoolToBool"
                [ObjCBoolTy] BoolTy.

End WithServices.

(** *** The entry point *)

(** What [constructSIL] reads of a translation unit: its declarations,
    and the external definitions its AST context has collected. *)
Record TranslationUnit : Type := mkTranslationUnit {
  Decls : list Decl;
  ExternalDefinitions : list Decl
}.

(** [ArrayRef::slice(N)] *)
Definition slice {A} (N : nat) (l : list A) : Gen (list A) :=
  if (N <=? length l)%nat then ret (drop N l)
  else fun _ => AssertionFailure "Invalid specifier".

Section WithUnit.

Variable getConstantType : SILDeclRef -> SILType.
Variable isPolymorphicFunctionType : SILType -> bool.
Variable mangle : SILDeclRef -> string.
Variable verify : SILFunction -> bool.
Variable emitBody : BodyRequest -> SILGenFunction -> Gen SILGenFunction.
Variable topLevelLoweredType : SILType.
(** [SILGenModule::emitExternalDefinition] lives outside src/. *)
Variable emitExternalDefinition : Decl -> Gen unit.

Fixpoint emitExternalDefinitions (defs : list Decl) : Gen unit :=
  match defs with
  | [] => ret tt
  | def :: rest => emitExternalDefinition def ;; emitExternalDefinitions rest
  end.

(** [SILModule::constructSIL]: the module starts empty; [sgm] is
    destroyed when the function returns. *)
Definition constructSIL (tu : TranslationUnit) (startElem : nat)
  : Outcome SILModule :=
  let m := mkSILModule [] ∅ in
  match SILGenModule_new topLevelLoweredType m with
  | Done _ sgm =>
      (ds <- slice startElem (Decls tu) ;;
       visitAll getConstantType isPolymorphicFunctionType mangle verify
                emitBody ds ;;
       emitExternalDefinitions (ExternalDefinitions tu) ;;
       SILGenModule_destroy verify ;;
       s <- get ;;
       ret (M s)) sgm
  | AssertionFailure msg => AssertionFailure msg
  | Exit1 s => Exit1 s
  end.

Definition performSILGeneration (tu : TranslationUnit) (startElem : nat)
  : Outcome SILModule :=
  constructSIL tu startElem.

End WithUnit.

End Driver.
Export Driver.

(** ** Vocabulary of the specification

    The notions the claims are stated with.  Nothing here is executed by
    the driver. *)

Module Spec.

(** *** Linkage *)

(** The contexts that enclose a declaration, innermost first, up to but
    not including its module. *)
Fixpoint enclosingContexts (dc : DeclContext) : list DeclContext :=
  match dc with
  | ModuleContext _ => []
  | NestedContext _ _ parent => dc :: enclosingContexts parent
  end.

(** The module context a declaration lives in. *)
Fixpoint enclosingModule (dc : DeclContext) : DeclContext :=
  match dc with
  | ModuleContext _ => dc
  | NestedContext _ _ parent => enclosingModule parent
  end.

(** "a constructor, a subscript, or a computed-property variable" *)
Definition isForeignThunkDecl (d : ValueDecl) : Prop :=
  (∃ cd, d = VD_Constructor cd) ∨ (∃ sd, d = VD_Subscript sd) ∨
  (∃ vd, d = VD_Var vd ∧ vdIsProperty vd = true).

(** *** Blocks and cleanups *)

(** The state in which block [bb] of function [f] (whose record was [fn])
    has become [blk]. *)
Definition withBlock (f : nat) (fn : SILFunction) (bb : nat)
           (blk : SILBasicBlock) (s : SILGenModule) : SILGenModule :=
  setFunctions
    (<[f := setBlocks (<[bb := blk]> (fnBlocks fn)) fn]> (functions (M s))) s.

(** The state in which [insts] have been appended to block [bb] of [f]. *)
Definition appendInsts (f bb : nat) (insts : list SILInstruction)
           (s : SILGenModule) : SILGenModule :=
  setFunctions
    (alter (λ fn, setBlocks (alter (λ blk, blk ++ insts) bb (fnBlocks fn)) fn)
           f (functions (M s))) s.

(** The stack after pushing the given cleanups, first to last. *)
Definition pushAll (pushed : list Cleanup) : CleanupStack :=
  fold_left (λ st c, pushCleanup c st) pushed [].

(** A block is terminated when its last instruction is a terminator. *)
Definition terminated (blk : SILBasicBlock) : bool :=
  match last blk with
  | Some i => isTerminator i
  | None => false
  end.

(** *** Parameters and their defaults *)

(** The default initializers of the parameters, in positional order: the
    fields of each parameter list that is a tuple pattern, one position
    for any other pattern. *)
Definition parameterInits (patterns : list Pattern) : list (option Expr) :=
  flat_map (λ p, match getSemanticsProvidingPattern p with
                 | TuplePattern fields => map getInit fields
                 | _ => [None]
                 end) patterns.

(** The defaulted parameters with their positions, counting from [i]. *)
Fixpoint defaultedFrom (i : nat) (inits : list (option Expr)) : list (N * Expr) :=
  match inits with
  | [] => []
  | Some e :: rest => (N.of_nat i, e) :: defaultedFrom (S i) rest
  | None :: rest => defaultedFrom (S i) rest
  end.

Definition defaultArgs (patterns : list Pattern) : list (N * Expr) :=
  defaultedFrom 0 (parameterInits patterns).

(** The parameter patterns whose defaults get generators: all of them,
    without the leading "self" list for a member of a type. *)
Definition isTypeMember (fe : FuncExpr) : bool :=
  match feDecl fe with
  | Some d => isTypeContext (hdrContext d)
  | None => false
  end.

Definition parameterPatterns (fe : FuncExpr) : list Pattern :=
  if isTypeMember fe then tail (feArgParamPatterns fe)
  else feArgParamPatterns fe.

(** The parameter lists are as the front end produces them: a member of a
    type has its "self" list, and the positions fit the index type. *)
Definition PatternsOk (fe : FuncExpr) : Prop :=
  (isTypeMember fe = true → feArgParamPatterns fe ≠ []) ∧
  (N.of_nat (length (parameterInits (parameterPatterns fe))) < UINT_MODULUS)%N.

(** The function declaration behind a location, if it is one. *)
Definition asFuncDecl (decl : Loc) : option FuncDecl :=
  match decl with
  | LocValueDecl (VD_Func fd) => Some fd
  | _ => None
  end.

Definition isAccessor (decl : Loc) : bool :=
  match asFuncDecl decl with Some fd => fdIsGetterOrSetter fd | None => false end.

Definition isInstanceMember (decl : Loc) : bool :=
  match asFuncDecl decl with Some fd => fdIsInstanceMember fd | None => false end.

(** *** The cache *)

(** The cache is well formed: its pointers are valid and no function is
    shared by two references. *)
Definition wf (s : SILGenModule) : Prop :=
  (∀ k f, emittedFunctions s !! k = Some f → f < length (functions (M s))) ∧
  (∀ k1 k2 f, emittedFunctions s !! k1 = Some f →
              emittedFunctions s !! k2 = Some f → k1 = k2).

Definition cached (s : SILGenModule) (c : SILDeclRef) : bool :=
  bool_decide (is_Some (emittedFunctions s !! key c)).

(** No body has been emitted for the reference: it is not cached, or its
    function is a bare declaration. *)
Definition bodiless (s : SILGenModule) (c : SILDeclRef) : Prop :=
  ∀ f, emittedFunctions s !! key c = Some f → empty (functionAt s f) = true.

(** The reference is cached with a function that has a body. *)
Definition hasBody (s : SILGenModule) (c : SILDeclRef) : Prop :=
  ∃ f, emittedFunctions s !! key c = Some f ∧ empty (functionAt s f) = false.

(** How the driver ends when asked to emit what it has emitted. *)
Definition alreadyEmitted {A} : Outcome A :=
  AssertionFailure "already emitted function?!".

(** *** What the driver lowers *)

(** One lowering: the reference, the [hasVoidReturn] flag and the
    request. *)
Definition Item : Type := SILDeclRef * bool * BodyRequest.
Definition itemRef (it : Item) : SILDeclRef := it.1.1.

(** The event records the lowering. *)
Definition lowers (ev : Event) (it : Item) : Prop :=
  ∃ f, ev = Emitted it.1.1 f it.1.2 it.2.

(** From [s] to [s'] the driver has lowered exactly [items], in this
    order, and each of their functions has a body in [s']. *)
Definition Emits (items : list Item) (s s' : SILGenModule) : Prop :=
  ∃ evs, trace s' = trace s ++ evs ∧ Forall2 lowers evs items ∧
         Forall (λ it, hasBody s' (itemRef it)) items.

(** The session can lower the items: its cache is well formed and none of
    the references has a body yet. *)
Definition Ready (items : list Item) (s : SILGenModule) : Prop :=
  wf s ∧ ∀ it, it ∈ items → bodiless s (itemRef it).

(** The lowering of the generator of one defaulted parameter. *)
Definition generatorItem (decl : Loc) (d : N * Expr) : Item :=
  (getDefaultArgGenerator decl d.1, exprTypeIsVoid d.2,
   EmitGeneratorFunction (getDefaultArgGenerator decl d.1) d.2).

Definition generatorItems (decl : Loc) (patterns : list Pattern) : list Item :=
  map (generatorItem decl) (defaultArgs patterns).

(** The thunk of one level: its entry point is the reference at that
    level and it forwards to the reference one level higher. *)
Definition curryThunkItem (fe : FuncExpr) (constant : SILDeclRef) (level : nat)
  : Item :=
  (atUncurryLevel constant (N.of_nat level), feResultIsVoid fe,
   EmitCurryThunk fe (atUncurryLevel constant (N.of_nat level))
                  (atUncurryLevel constant (N.of_nat (S level)))).

(** The thunks below level [n], from level [n-1] down to level 0. *)
Definition curryThunkItems (fe : FuncExpr) (constant : SILDeclRef) (n : nat)
  : list Item :=
  map (curryThunkItem fe constant) (rev (seq 0 n)).

Definition mainItem (decl : Loc) (fe : FuncExpr) : Item :=
  (ofLoc decl, feResultIsVoid fe, EmitFunction fe).

Definition naturalLevel (decl : Loc) : nat := N.to_nat (uncurryLevel (ofLoc decl)).

Definition allocatorRef (decl : ConstructorDecl) : SILDeclRef :=
  ofLoc (LocValueDecl (VD_Constructor decl)).

Definition initializerRef (decl : ConstructorDecl) : SILDeclRef :=
  ofDeclKind (VD_Constructor decl) Initializer false.

(** The functions of the constructor itself. *)
Definition constructorBodies (decl : ConstructorDecl) : list Item :=
  if cdThisIsClass decl
  then [(allocatorRef decl, true, EmitClassConstructorAllocator decl);
        (initializerRef decl, true, EmitClassConstructorInitializer decl)]
  else [(allocatorRef decl, true, EmitValueConstructor decl)].

(** Everything [emitConstructor] lowers, in order. *)
Definition constructorItems (decl : ConstructorDecl) : list Item :=
  generatorItems (LocValueDecl (VD_Constructor decl)) [cdArguments decl] ++
  constructorBodies decl.

Definition getterRef (prop : VarDecl) : SILDeclRef :=
  ofDeclKind (VD_Var prop) Getter true.
Definition setterRef (prop : VarDecl) : SILDeclRef :=
  ofDeclKind (VD_Var prop) Setter true.

Definition getterItem (prop : VarDecl) : Item :=
  (getterRef prop, false, EmitObjCPropertyGetter (getterRef prop)).
Definition setterItem (prop : VarDecl) : Item :=
  (setterRef prop, false, EmitObjCPropertySetter (setterRef prop)).

(** Everything [emitObjCPropertyMethodThunks] lowers, in order. *)
Definition propertyThunkItems (prop : VarDecl) (s : SILGenModule) : list Item :=
  if cached s (getterRef prop) then []
  else getterItem prop :: (if vdIsSettable prop then [setterItem prop] else []).

Definition methodThunkRef (method : FuncDecl) : SILDeclRef :=
  ofFuncDecl method true.

Section WithServices.

Variable getConstantType : SILDeclRef → SILType.
Variable isPolymorphicFunctionType : SILType → bool.
Variable getFunctionTypeInfo : SILType → list SILType * SILType.
Variable mangle : SILDeclRef → string.
Variable forModuleAndName : string → string → option (list LookupResult).
Variable verify : SILFunction → bool.
Variable emitBody : BodyRequest → SILGenFunction → Gen SILGenFunction.

(** Any number of further requests, for arbitrary references. *)
Fixpoint requestAll (rs : list SILDeclRef) : Gen unit :=
  match rs with
  | [] => ret tt
  | r :: rest => getFunction getConstantType mangle r ;; requestAll rest
  end.

(** The lowered input types and result type of a function declaration. *)
Definition signatureOf (fd : FuncDecl) : list SILType * SILType :=
  getFunctionTypeInfo (getConstantType (ofLoc (LocValueDecl (VD_Func fd)))).

(** The five ways a resolution fails, in the words of the specification,
    each with its diagnostic category. *)
Inductive BridgingFailure (moduleName functionName : string)
          (inputTypes : list SILType) (outputType : SILType) : DiagID → Prop :=
| missing_module :
    forModuleAndName moduleName functionName = None →
    BridgingFailure moduleName functionName inputTypes outputType
                    bridging_module_missing
| missing_function :
    forModuleAndName moduleName functionName = Some [] →
    BridgingFailure moduleName functionName inputTypes outputType
                    bridging_function_missing
| ambiguous_function candidates :
    forModuleAndName moduleName functionName = Some candidates →
    1 < length candidates →
    BridgingFailure moduleName functionName inputTypes outputType
                    bridging_function_overloaded
| not_a_function result :
    forModuleAndName moduleName functionName = Some [result] →
    (∀ fd, result ≠ ResultValueDecl (VD_Func fd)) →
    BridgingFailure moduleName functionName inputTypes outputType
                    bridging_function_not_function
| signature_mismatch fd :
    forModuleAndName moduleName functionName = Some [ResultValueDecl (VD_Func fd)] →
    fst (signatureOf fd) ≠ inputTypes ∨ snd (signatureOf fd) ≠ outputType →
    BridgingFailure moduleName functionName inputTypes outputType
                    bridging_function_not_correct_type.

(** The lowered type of the function of a reference. *)
Definition loweredTypeOf (s : SILGenModule) (c : SILDeclRef) : SILType :=
  match emittedFunctions s !! key c with
  | Some f => fnLoweredType (functionAt s f)
  | None => getConstantType c
  end.

(** The contract of the function-level emitters: run on a declared
    function without a body, a [SILGenFunction] ends normally, gives the
    function a body that the verifier accepts, and changes nothing else. *)
Definition Lowers : Prop :=
  ∀ c f hvr req s fn,
    functions (M s) !! f = Some fn → fnBlocks fn = [] →
    ∃ bs, bs ≠ [] ∧ verify (setBlocks bs fn) = true ∧
          runSILGenFunction emitBody c f hvr req s =
            Done tt (setTrace (trace s ++ [Emitted c f hvr req])
                       (setFunctions (<[f := setBlocks bs fn]> (functions (M s))) s)).

(** An emitter is well behaved when, started on the fresh entry block of
    a function, it ends normally, changes only the blocks of that
    function, leaves every block but the one it is still inserting into
    terminated, and has no epilog block pending when a function with
    [hasVoidReturn] falls through. *)
Definition WellBehaved : Prop :=
  ∀ req f hvr s fn,
    functions (M s) !! f = Some fn → fnBlocks fn = [[]] →
    ∃ sgf' bs,
      emitBody req (mkSILGenFunction f (mkSILBuilder (Some 0)) [] hvr None) s =
        Done sgf' (setFunctions (<[f := setBlocks bs fn]> (functions (M s))) s) ∧
      F sgf' = f ∧ hasVoidReturn sgf' = hvr ∧ bs ≠ [] ∧
      (∀ i blk, bs !! i = Some blk → insertionBB (B sgf') ≠ Some i →
                terminated blk = true) ∧
      (∀ bb, insertionBB (B sgf') = Some bb →
             is_Some (bs !! bb) ∧ (hvr = true → epilogBB sgf' = None)).

(** The verifier accepts a function all of whose blocks are terminated. *)
Definition Accepts : Prop :=
  ∀ fn, fnBlocks fn ≠ [] → forallb terminated (fnBlocks fn) = true →
        verify fn = true.

(** The emitter of top-level bindings ends normally and does not touch
    the record of what the driver asked for. *)
Definition TopLevelFrame : Prop :=
  ∀ pd sgf s, ∃ sgf' s',
    emitBody (VisitPatternBinding pd) sgf s = Done sgf' s' ∧ trace s' = trace s.

(** What [getFunction] does to the session. *)
Record Requested (c : SILDeclRef) (f : nat) (s s0 : SILGenModule) : Prop :=
  mkRequested {
  rq_cache : emittedFunctions s0 = <[key c := f]> (emittedFunctions s);
  rq_was : emittedFunctions s !! key c = Some f ∨
           (emittedFunctions s !! key c = None ∧ f = length (functions (M s)));
  rq_valid : f < length (functions (M s0));
  rq_len : (length (functions (M s)) ≤ length (functions (M s0)))%nat;
  rq_frame : ∀ f', f' ≠ f → functionAt s0 f' = functionAt s f';
  rq_type : fnLoweredType (functionAt s0 f) = loweredTypeOf s c;
  rq_body : emittedFunctions s !! key c = None → fnBlocks (functionAt s0 f) = [];
  rq_same : emittedFunctions s !! key c = Some f → s0 = s;
  rq_trace : trace s0 = trace s;
  rq_top : TopLevelSGF s0 = TopLevelSGF s;
  rq_diags : diags s0 = diags s
}.

(** The state after [preEmitFunction]: the function exists, has no body,
    and carries the location. *)
Record Prepared (c : SILDeclRef) (f : nat) (s s1 : SILGenModule) : Prop :=
  mkPrepared {
  pr_cache : emittedFunctions s1 = <[key c := f]> (emittedFunctions s);
  pr_was : emittedFunctions s !! key c = Some f ∨
           (emittedFunctions s !! key c = None ∧ f = length (functions (M s)));
  pr_valid : f < length (functions (M s1));
  pr_len : (length (functions (M s)) ≤ length (functions (M s1)))%nat;
  pr_empty : fnBlocks (functionAt s1 f) = [];
  pr_frame : ∀ f', f' ≠ f → functionAt s1 f' = functionAt s f';
  pr_type : fnLoweredType (functionAt s1 f) = loweredTypeOf s c;
  pr_trace : trace s1 = trace s;
  pr_top : TopLevelSGF s1 = TopLevelSGF s;
  pr_diags : diags s1 = diags s
}.

(** What lowering reference [c] into function [f] does to the session. *)
Record Step (c : SILDeclRef) (f : nat) (ev : Event) (s s' : SILGenModule)
  : Prop := mkStep {
  st_wf : wf s';
  st_cache : emittedFunctions s' = <[key c := f]> (emittedFunctions s);
  st_was : emittedFunctions s !! key c = Some f ∨
           (emittedFunctions s !! key c = None ∧ f = length (functions (M s)));
  st_trace : trace s' = trace s ++ [ev];
  st_body : empty (functionAt s' f) = false;
  st_frame : ∀ f', f' ≠ f → functionAt s' f' = functionAt s f';
  st_type : fnLoweredType (functionAt s' f) = loweredTypeOf s c;
  st_top : TopLevelSGF s' = TopLevelSGF s;
  st_diags : diags s' = diags s
}.

(** A sequence of lowerings. *)
Inductive Steps : list Item → SILGenModule → SILGenModule → Prop :=
| Steps_nil s : Steps [] s s
| Steps_cons c hvr req f s s1 s2 items :
    Step c f (Emitted c f hvr req) s s1 → Steps items s1 s2 →
    Steps ((c, hvr, req) :: items) s s2.

(** Curry thunks are emitted for a function that is not an accessor, not
    an instance member and whose lowered type is not polymorphic. *)
Definition thunked (decl : Loc) (s : SILGenModule) : bool :=
  negb (isAccessor decl) && negb (isInstanceMember decl) &&
  negb (isPolymorphicFunctionType (loweredTypeOf s (ofLoc decl))).

(** Everything [emitFunction] lowers, in order. *)
Definition functionItems (decl : Loc) (fe : FuncExpr) (s : SILGenModule)
  : list Item :=
  generatorItems decl (parameterPatterns fe) ++
  match feBody fe with
  | None => []
  | Some _ =>
      mainItem decl fe ::
      (if thunked decl s
       then curryThunkItems fe (ofLoc decl) (naturalLevel decl)
       else [])
  end.

End WithServices.

Arguments rq_cache {_ _ _ _ _} _.
Arguments rq_was {_ _ _ _ _} _.
Arguments rq_valid {_ _ _ _ _} _.
Arguments rq_len {_ _ _ _ _} _.
Arguments rq_frame {_ _ _ _ _} _.
Arguments rq_type {_ _ _ _ _} _.
Arguments rq_body {_ _ _ _ _} _.
Arguments rq_same {_ _ _ _ _} _.
Arguments rq_trace {_ _ _ _ _} _.
Arguments rq_top {_ _ _ _ _} _.
Arguments rq_diags {_ _ _ _ _} _.
Arguments pr_cache {_ _ _ _ _} _.
Arguments pr_was {_ _ _ _ _} _.
Arguments pr_valid {_ _ _ _ _} _.
Arguments pr_len {_ _ _ _ _} _.
Arguments pr_empty {_ _ _ _ _} _.
Arguments pr_frame {_ _ _ _ _} _.
Arguments pr_type {_ _ _ _ _} _.
Arguments pr_trace {_ _ _ _ _} _.
Arguments pr_top {_ _ _ _ _} _.
Arguments pr_diags {_ _ _ _ _} _.
Arguments st_wf {_ _ _ _ _ _} _.
Arguments st_cache {_ _ _ _ _ _} _.
Arguments st_was {_ _ _ _ _ _} _.
Arguments st_trace {_ _ _ _ _ _} _.
Arguments st_body {_ _ _ _ _ _} _.
Arguments st_frame {_ _ _ _ _ _} _.
Arguments st_type {_ _ _ _ _ _} _.
Arguments st_top {_ _ _ _ _ _} _.
Arguments st_diags {_ _ _ _ _ _} _.

End Spec.
Export Spec.

(** ** Vocabulary of the further properties *)

Module Effects.

(** The references under which the single-function routines emit. *)
Definition closureRef (ce : ClosureExpr) : SILDeclRef :=
  ofLoc (LocCapturingExpr (CE_Closure ce)).
Definition pipeClosureRef (ce : PipeClosureExpr) : SILDeclRef :=
  ofLoc (LocCapturingExpr (CE_PipeClosure ce)).
Definition destroyerRef (cd : ClassDecl) : SILDeclRef :=
  ofDeclKind (VD_Class cd) Destroyer false.

(** The return that the destructor synthesizes in the entry block [bb]
    of a function in which nothing was emitted, and the [unreachable]
    it emits instead when the function does not return void. *)
Definition fallThroughBlock (hvr : bool) (bb : nat) (l : SILLocation)
  : SILBasicBlock :=
  if hvr then [TupleInst None []; ReturnInst None (mkSILValue bb 0)]
  else [UnreachableInst (getFuncBodySILLocation l)].

(** The globals that a list of variable declarations leaves in the
    module: the stored variables among them. *)
Definition storedGlobals (vds : list VarDecl) : gset NodeId :=
  list_to_set (vdId <$> filter (λ vd, vdIsProperty vd = false) vds).

(** A step of the driver keeps the context for top-level code. *)
Definition KeepsTopLevel {A} (c : Gen A) : Prop :=
  ∀ s a s', c s = Done a s' →
            is_Some (TopLevelSGF s) → is_Some (TopLevelSGF s').

(** What an accessor of a bridging function does, given its slot and the
    names it looks up. *)
Definition Accessor (get : Gen SILDeclRef) (slot : CacheSlot)
           (moduleName functionName : string) : Prop :=
  ∀ s,
    match get s with
    | Done c s' =>
        getSlot slot s' = Some c ∧
        (∀ slot', slot' ≠ slot → getSlot slot' s' = getSlot slot' s) ∧
        M s' = M s ∧ diags s' = diags s ∧
        get s' = Done c s'
    | Exit1 s' =>
        (∀ slot', getSlot slot' s' = getSlot slot' s) ∧
        M s' = M s ∧
        ∃ d, diags s' = diags s ++ [d] ∧
             diagModule d = moduleName ∧ diagFunction d = functionName
    | AssertionFailure _ => False
    end.

Section WithServices.

Variable getConstantType : SILDeclRef → SILType.
Variable mangle : SILDeclRef → string.
Variable forModuleAndName : string → string → option (list LookupResult).
Variable topLevelLoweredType : SILType.

(** The top-level function as the constructor of the session creates it,
    with the given blocks. *)
Definition topLevelFunction (bs : list SILBasicBlock) : SILFunction :=
  mkSILFunction Internal "top_level_code" topLevelLoweredType bs (Some None) None.

(** The function that [getFunction] creates for a reference. *)
Definition declarationOf (r : SILDeclRef) : SILFunction :=
  mkSILFunction (getConstantLinkage r) (mangle r) (getConstantType r) [] None None.

(** What one lowering leaves behind: the function of the reference is
    cached, has a body, and carries the AST node as its location and its
    debug scope; a function created by this lowering has the linkage and
    the mangled name of the reference and is the last of the module. *)
Record Lowered (c : SILDeclRef) (node : SILLocation) (f : nat)
       (s s' : SILGenModule) : Prop := mkLowered {
  lo_cached : emittedFunctions s' !! key c = Some f;
  lo_body : empty (functionAt s' f) = false;
  lo_location : fnLocation (functionAt s' f) = node;
  lo_scope : fnDebugScope (functionAt s' f) = Some node;
  lo_was : ∀ f0, emittedFunctions s !! key c = Some f0 → f = f0;
  lo_new : emittedFunctions s !! key c = None →
           f = length (functions (M s)) ∧
           fnLinkage (functionAt s' f) = getConstantLinkage c ∧
           fnName (functionAt s' f) = mangle c ∧
           fnLoweredType (functionAt s' f) = getConstantType c
}.

(** The function of a reference that is lowered from scratch by an
    emitter that emits nothing. *)
Definition fallenThrough (c : SILDeclRef) (node : SILLocation) (hvr : bool)
  : SILFunction :=
  mkSILFunction (getConstantLinkage c) (mangle c) (getConstantType c)
                [fallThroughBlock hvr 0 node] (Some node) node.

(** The source location of the diagnostic of a failed resolution: that
    of the declaration found, when lookup found exactly one result and it
    is a declaration. *)
Definition diagnosticLoc (moduleName functionName : string) : option NodeId :=
  match forModuleAndName moduleName functionName with
  | Some [ResultValueDecl d] => Some (declAddress d)
  | _ => None
  end.

End WithServices.

Arguments lo_cached {_ _ _ _ _ _ _} _.
Arguments lo_body {_ _ _ _ _ _ _} _.
Arguments lo_location {_ _ _ _ _ _ _} _.
Arguments lo_scope {_ _ _ _ _ _ _} _.
Arguments lo_was {_ _ _ _ _ _ _} _.
Arguments lo_new {_ _ _ _ _ _ _} _.

End Effects.
Export Effects.

(** ** A small session

    Concrete collaborators and declarations on which the statements below
    are exercised. *)

Module Examples.

Local Open Scope N_scope.

(** Lowered types, by address. *)
Definition tyNSString : SILType := 2%N.
Definition tyBool : SILType := 3%N.
Definition tyObjCBool : SILType := 4%N.
Definition tyEmptyTuple : SILType := 5%N.
Definition tyByrefString : SILType := 6%N.
Definition tyTopLevel : SILType := 7%N.
Definition tyThin : SILType := 8%N.
Definition tyTwoParameters : SILType := 9%N.

Definition moduleDC : DeclContext := ModuleContext false.
Definition clangDC : DeclContext := ModuleContext true.
Definition classDC : DeclContext := NestedContext false true moduleDC.
Definition localDC : DeclContext := NestedContext true false classDC.

(** A bridging function declared with two parameters instead of one. *)
Definition bridgeFe : FuncExpr :=
  mkFuncExpr 901 (Some (mkDeclHeader 900 moduleDC))
             [TuplePattern [mkTuplePatternElt (NamedPattern "s") None;
                            mkTuplePatternElt (NamedPattern "flag") None]]
             (Some 902%N) false.
Definition bridgeFd : FuncDecl := mkFuncDecl 900 moduleDC bridgeFe false false.

(** Type lowering: the bridging function above has a type of its own. *)
Definition exConstantType (c : SILDeclRef) : SILType :=
  if (locAddress (loc c) =? 900)%N then tyTwoParameters else tyThin.

Definition exIsPolymorphic (ty : SILType) : bool := false.

Definition exFunctionTypeInfo (ty : SILType) : list SILType * SILType :=
  if (ty =? tyTwoParameters)%N then ([tyByrefString; tyBool], tyNSString)
  else ([], tyEmptyTuple).

Definition exMangle (c : SILDeclRef) : string := "sil_function".

(** Name lookup: the Foundation module holds the one function above. *)
Definition exLookup (moduleName functionName : string)
  : option (list LookupResult) :=
  if decide (moduleName = "Foundation") then
    if decide (functionName = "convertStringToNSString")
    then Some [ResultValueDecl (VD_Func bridgeFd)]
    else Some []
  else None.

(** The verifier checks that every block is terminated. *)
Definition exVerify (fn : SILFunction) : bool :=
  forallb terminated (fnBlocks fn).

(** An emitter that emits nothing: every body falls off its end. *)
Definition nullEmit (req : BodyRequest) (sgf : SILGenFunction)
  : Gen SILGenFunction := ret sgf.

Definition emptyModule : SILModule := mkSILModule [] ∅.

(** The session as [SILGenModule]'s constructor leaves it. *)
Definition session0 : SILGenModule :=
  match SILGenModule_new tyTopLevel emptyModule with
  | Done _ s => s
  | _ => emptySession emptyModule
  end.

(** The same session once a terminator has closed the top-level code. *)
Definition sessionClosed : SILGenModule :=
  setTopLevelSGF (Some (mkSILGenFunction 0%nat (mkSILBuilder None) [] true None))
                 session0.

(** A constructor with two parameters, the second with a default. *)
Definition ctorArguments : Pattern :=
  TuplePattern [mkTuplePatternElt (NamedPattern "a") None;
                mkTuplePatternElt (NamedPattern "b") (Some (mkExpr 11 false))].
Definition classCtor : ConstructorDecl :=
  mkConstructorDecl 10 classDC ctorArguments (Some 12%N) true.
Definition structCtor : ConstructorDecl :=
  mkConstructorDecl 15 classDC ctorArguments (Some 16%N) false.

(** A module-level function with three argument lists. *)
Definition oneParameter (name : string) : Pattern :=
  TuplePattern [mkTuplePatternElt (NamedPattern name) None].
Definition curriedFe : FuncExpr :=
  mkFuncExpr 21 (Some (mkDeclHeader 20 moduleDC))
             [oneParameter "x"; oneParameter "y"; oneParameter "z"]
             (Some 22%N) false.
Definition curriedFd : FuncDecl := mkFuncDecl 20 moduleDC curriedFe false false.

(** A prototype (no body) whose parameter has a default initializer. *)
Definition protoFe : FuncExpr :=
  mkFuncExpr 31 (Some (mkDeclHeader 30 moduleDC))
             [TuplePattern [mkTuplePatternElt (NamedPattern "n")
                                              (Some (mkExpr 33 false))]]
             None false.
Definition protoFd : FuncDecl := mkFuncDecl 30 moduleDC protoFe false false.

(** A settable property, a closure and two top-level bindings. *)
Definition prop : VarDecl := mkVarDecl 40 classDC true true.
Definition closure : ClosureExpr := mkClosureExpr 50 (mkExpr 51 false).
Definition binding1 : PatternBindingDecl := mkPatternBindingDecl 60.
Definition binding2 : PatternBindingDecl := mkPatternBindingDecl 61.

(** A function under construction: one open block holding one
    instruction, two cleanups pending. *)
Definition openFn : SILFunction :=
  mkSILFunction Internal "f" tyThin [[OtherInst 1]] None
                (Some (NodeClosureExpr closure)).
Definition openSession : SILGenModule :=
  setFunctions [openFn] (emptySession emptyModule).
Definition cleanup1 : Cleanup := mkCleanup 1.
Definition cleanup2 : Cleanup := mkCleanup 2.
Definition sgfVoid : SILGenFunction :=
  mkSILGenFunction 0%nat (mkSILBuilder (Some 0%nat)) (pushAll [cleanup1; cleanup2])
                   true None.
Definition sgfNonVoid : SILGenFunction :=
  mkSILGenFunction 0%nat (mkSILBuilder (Some 0%nat)) (pushAll [cleanup1; cleanup2])
                   false None.

(** A stored global, a class without destructor declaration, and a
    prototype none of whose parameters has a default. *)
Definition stored : VarDecl := mkVarDecl 70 moduleDC false true.
Definition klass : ClassDecl := mkClassDecl 80 moduleDC.
Definition plainProtoFe : FuncExpr :=
  mkFuncExpr 91 (Some (mkDeclHeader 90 moduleDC)) [oneParameter "x"] None false.
Definition plainProtoFd : FuncDecl :=
  mkFuncDecl 90 moduleDC plainProtoFe false false.

(** The state in which a step of the driver ends. *)
Definition stateOf {A} (o : Outcome A) : SILGenModule :=
  match o with
  | Done _ s => s
  | Exit1 s => s
  | AssertionFailure _ => emptySession emptyModule
  end.

(** The session after a closure and then the getter of the property have
    been requested, after it has been closed, and after a bridging
    function has been resolved. *)
Definition session1 : SILGenModule :=
  stateOf (getFunction exConstantType exMangle (closureRef closure) session0).
Definition session2 : SILGenModule :=
  stateOf (getFunction exConstantType exMangle (getterRef prop) session1).
Definition sessionEnd : SILGenModule :=
  stateOf (SILGenModule_destroy exVerify session0).
Definition sessionBridged : SILGenModule :=
  stateOf (getBridgingFn exConstantType exFunctionTypeInfo exLookup
             SlotStringToNSString "Foundation" "convertStringToNSString"
             [tyByrefString; tyBool] tyNSString session0).

(** Two translation units: one whose declarations after the first are
    variables, one with a variable, a function and a binding.  External
    definitions are not emitted. *)
Definition noExternalDefinition (def : Decl) : Gen unit := ret tt.
Definition unitOfVariables : TranslationUnit :=
  mkTranslationUnit [D_Func curriedFd; D_Var stored; D_Var prop] [].
Definition unitOfAll : TranslationUnit :=
  mkTranslationUnit [D_Var stored; D_Func curriedFd; D_PatternBinding binding1]
                    [D_Func protoFd].
Definition exConstructSIL (tu : TranslationUnit) (startElem : nat)
  : Outcome SILModule :=
  constructSIL exConstantType exIsPolymorphic exMangle exVerify nullEmit
               tyTopLevel noExternalDefinition tu startElem.
Definition moduleOfAll : SILModule :=
  match exConstructSIL unitOfAll 0 with
  | Done m _ => m
  | _ => emptyModule
  end.
Definition sessionOfAll : SILGenModule := stateOf (exConstructSIL unitOfAll 0).

End Examples.

(** * Properties *)

Section Linkage.

Lemma walkToModule_local dc :
  (∃ c, c ∈ enclosingContexts dc ∧ isLocalContext c = true) →
  walkToModule dc = None.
Proof.
  induction dc as [clang | l t parent IH]; simpl.
  - intros (c & Hc & _). by apply elem_of_nil in Hc.
  - intros (c & Hc & Hl). destruct l; [done|].
    apply IH. apply elem_of_cons in Hc as [-> | Hc]; [done|]. eauto.
Qed.

Lemma walkToModule_no_local dc :
  (∀ c, c ∈ enclosingContexts dc → isLocalContext c = false) →
  walkToModule dc = Some (enclosingModule dc).
Proof.
  induction dc as [clang | l t parent IH]; simpl; [done|].
  intros H. destruct l.
  - specialize (H (NestedContext true t parent)). simpl in H.
    discriminate H. by left.
  - apply IH. intros c Hc. apply H. by right.
Qed.

Lemma isForeignThunkDecl_test d :
  isForeignThunkDecl d ↔
  match d with
  | VD_Constructor _ => true
  | VD_Subscript _ => true
  | VD_Var vd => vdIsProperty vd
  | _ => false
  end = true.
Proof.
  unfold isForeignThunkDecl. split.
  - intros [[cd ->] | [[sd ->] | (vd & -> & H)]]; done.
  - destruct d; try done; intros H; eauto 6.
Qed.

(** C6. The linkage of a reference: internal without a declaration;
    internal when a context between the declaration and its module is
    local; the Clang-thunk linkage for constructors, subscripts and
    computed properties of a Clang module; external otherwise. *)
Theorem getConstantLinkage_rule (constant : SILDeclRef) :
  (hasDecl constant = false → getConstantLinkage constant = Internal) ∧
  (∀ d, getDecl constant = Some d →
     ((∃ c, c ∈ enclosingContexts (getDeclContext d) ∧ isLocalContext c = true) →
      getConstantLinkage constant = Internal) ∧
     ((∀ c, c ∈ enclosingContexts (getDeclContext d) → isLocalContext c = false) →
      (isClangModule (enclosingModule (getDeclContext d)) = true →
       isForeignThunkDecl d →
       getConstantLinkage constant = ClangThunk) ∧
      (¬ (isClangModule (enclosingModule (getDeclContext d)) = true ∧
          isForeignThunkDecl d) →
       getConstantLinkage constant = External))).
Proof.
  unfold getConstantLinkage, hasDecl, getDecl.
  split.
  - destruct (loc constant); [discriminate | reflexivity].
  - intros d Hd. destruct (loc constant) as [d' | e]; [|discriminate].
    injection Hd as ->. split.
    + intros Hlocal. by rewrite walkToModule_local.
    + intros Hnone. rewrite (walkToModule_no_local _ Hnone). split.
      * intros -> Hd%isForeignThunkDecl_test. simpl. by rewrite Hd.
      * intros Hnot.
        destruct (isClangModule (enclosingModule (getDeclContext d))) eqn:Ec;
          [|reflexivity].
        simpl. rewrite isForeignThunkDecl_test in Hnot.
        destruct (match d with
                  | VD_Constructor _ | VD_Subscript _ => true
                  | VD_Var vd => vdIsProperty vd
                  | _ => false
                  end); [|reflexivity].
        exfalso. by apply Hnot.
Qed.

End Linkage.

Section Cache.

Variable getConstantType : SILDeclRef → SILType.
Variable mangle : SILDeclRef → string.

Abbreviation getFunction := (getFunction getConstantType mangle).
Abbreviation requestAll := (requestAll getConstantType mangle).

Lemma alter_snoc {A} (g : A → A) (l : list A) x :
  alter g (length l) (l ++ [x]) = l ++ [g x].
Proof. induction l as [|y l IH]; simpl; [done|]. by f_equal. Qed.

Lemma getFunction_found r s f :
  emittedFunctions s !! key r = Some f → getFunction r s = Done f s.
Proof. intros H. unfold Driver.getFunction, bind, get. by rewrite H. Qed.

Lemma getFunction_fresh r s :
  emittedFunctions s !! key r = None →
  getFunction r s =
    Done (length (functions (M s)))
         (setEmittedFunctions
            (<[key r := length (functions (M s))]> (emittedFunctions s))
            (setFunctions
               (functions (M s) ++
                  [mkSILFunction (getConstantLinkage r) (mangle r)
                                 (getConstantType r) [] None None]) s)).
Proof.
  intros H. unfold Driver.getFunction, bind, get. rewrite H.
  unfold newSILFunction, mangleConstant, updateFunction, modify, ret.
  cbn [M functions setFunctions setM globals emittedFunctions
       setEmittedFunctions TopLevelSGF NSStringToStringFn StringToNSStringFn
       BoolToObjCBoolFn ObjCBoolToBoolFn diags trace].
  by rewrite alter_snoc.
Qed.

Lemma hasFunction_eq r s :
  hasFunction r s = Done (bool_decide (is_Some (emittedFunctions s !! key r))) s.
Proof. reflexivity. Qed.

(** A request never removes or redirects an entry of the cache. *)
Lemma getFunction_keeps r' s f' s' :
  getFunction r' s = Done f' s' →
  ∀ k f, emittedFunctions s !! k = Some f → emittedFunctions s' !! k = Some f.
Proof.
  intros Hget k f Hk.
  destruct (emittedFunctions s !! key r') as [g|] eqn:E.
  - rewrite (getFunction_found _ _ _ E) in Hget. by injection Hget as _ <-.
  - rewrite (getFunction_fresh _ _ E) in Hget. injection Hget as _ <-.
    simpl. rewrite lookup_insert_ne; [done|]. congruence.
Qed.

Lemma getFunction_total r s : ∃ f s', getFunction r s = Done f s'.
Proof.
  destruct (emittedFunctions s !! key r) as [g|] eqn:E.
  - rewrite (getFunction_found _ _ _ E). eauto.
  - rewrite (getFunction_fresh _ _ E). eauto.
Qed.

Lemma requestAll_keeps rs s :
  ∃ s', requestAll rs s = Done tt s' ∧
        ∀ k f, emittedFunctions s !! k = Some f →
               emittedFunctions s' !! k = Some f.
Proof.
  revert s. induction rs as [|r rs IH]; intros s; simpl.
  - exists s. done.
  - destruct (getFunction_total r s) as (f & s1 & H1).
    destruct (IH s1) as (s2 & H2 & Hkeep).
    exists s2. unfold bind. rewrite H1. split; [done|].
    intros k g Hk. apply Hkeep. by eapply getFunction_keeps.
Qed.

End Cache.

Section Bridging.

Variable getConstantType : SILDeclRef → SILType.
Variable getFunctionTypeInfo : SILType → list SILType * SILType.
Variable forModuleAndName : string → string → option (list LookupResult).

Abbreviation signatureOf := (signatureOf getConstantType getFunctionTypeInfo).
Abbreviation BridgingFailure :=
  (BridgingFailure getConstantType getFunctionTypeInfo forModuleAndName).
Abbreviation getBridgingFn :=
  (getBridgingFn getConstantType getFunctionTypeInfo forModuleAndName).

Lemma std_equal_true xs ys :
  length xs = length ys → std_equal xs ys = true ↔ xs = ys.
Proof.
  revert ys. induction xs as [|x xs IH]; intros [|y ys] Hlen; simpl in *;
    try discriminate; [done|].
  rewrite andb_true_iff, N.eqb_eq, IH by lia. split.
  - by intros [-> ->].
  - intros [= -> ->]. done.
Qed.

Lemma signature_test (ins ins' : list SILType) :
  negb (length ins =? length ins')%nat || negb (std_equal ins ins') = false
  ↔ ins = ins'.
Proof.
  rewrite orb_false_iff, !negb_false_iff, Nat.eqb_eq. split.
  - intros [Hl He]. by apply std_equal_true.
  - intros ->. split; [done|]. by apply std_equal_true.
Qed.

Section Resolution.

Variable cacheSlot : CacheSlot.
Variables moduleName functionName : string.
Variable inputTypes : list SILType.
Variable outputType : SILType.
Variable s : SILGenModule.
Hypothesis slot_empty : getSlot cacheSlot s = None.

Abbreviation resolve :=
  (getBridgingFn cacheSlot moduleName functionName inputTypes outputType s).
Abbreviation Fails :=
  (BridgingFailure moduleName functionName inputTypes outputType).
Abbreviation exitWith l id :=
  (Exit1 (setDiags (diags s ++ [mkDiagnostic l id moduleName functionName]) s)).

Lemma resolve_unfold :
  resolve =
  match resolveBridgingFn getConstantType getFunctionTypeInfo forModuleAndName
          moduleName functionName inputTypes outputType s with
  | Done fn s' => Done fn (setSlot cacheSlot (Some fn) s')
  | AssertionFailure msg => AssertionFailure msg
  | Exit1 s' => Exit1 s'
  end.
Proof.
  unfold Driver.getBridgingFn, bind, get. rewrite slot_empty.
  by destruct (resolveBridgingFn _ _ _ _ _ _ _ _).
Qed.

Lemma resolve_no_module :
  forModuleAndName moduleName functionName = None →
  resolve = exitWith None bridging_module_missing.
Proof. intros H. rewrite resolve_unfold. unfold resolveBridgingFn. by rewrite H. Qed.

Lemma resolve_no_function :
  forModuleAndName moduleName functionName = Some [] →
  resolve = exitWith None bridging_function_missing.
Proof. intros H. rewrite resolve_unfold. unfold resolveBridgingFn. by rewrite H. Qed.

Lemma resolve_ambiguous candidates :
  forModuleAndName moduleName functionName = Some candidates →
  1 < length candidates →
  resolve = exitWith None bridging_function_overloaded.
Proof.
  intros H Hlen. rewrite resolve_unfold. unfold resolveBridgingFn. rewrite H.
  destruct candidates as [|? [|? ?]]; simpl in Hlen; try lia. done.
Qed.

Lemma resolve_not_function result :
  forModuleAndName moduleName functionName = Some [result] →
  (∀ fd, result ≠ ResultValueDecl (VD_Func fd)) →
  ∃ l, resolve = exitWith l bridging_function_not_function.
Proof.
  intros H Hnot. rewrite resolve_unfold. unfold resolveBridgingFn. rewrite H.
  destruct result as [[fd| | | | |]|]; try by eexists.
  by destruct (Hnot fd).
Qed.

Lemma resolve_function fd :
  forModuleAndName moduleName functionName
    = Some [ResultValueDecl (VD_Func fd)] →
  resolve =
    if decide (fst (signatureOf fd) = inputTypes ∧
               snd (signatureOf fd) = outputType)
    then Done (ofLoc (LocValueDecl (VD_Func fd)))
              (setSlot cacheSlot (Some (ofLoc (LocValueDecl (VD_Func fd)))) s)
    else exitWith (Some (fdId fd)) bridging_function_not_correct_type.
Proof.
  intros H. rewrite resolve_unfold. unfold resolveBridgingFn. rewrite H.
  fold (Spec.signatureOf getConstantType getFunctionTypeInfo fd).
  destruct (negb (length (signatureOf fd).1 =? length inputTypes)%nat
            || negb (std_equal (signatureOf fd).1 inputTypes)) eqn:Eins.
  - rewrite decide_False; [done|]. intros [Heq _].
    apply signature_test in Heq. congruence.
  - apply signature_test in Eins.
    destruct (negb ((signatureOf fd).2 =? outputType)%N) eqn:Eout.
    + rewrite decide_False; [done|]. intros [_ Heq].
      apply N.eqb_eq in Heq. by rewrite Heq in Eout.
    + apply negb_false_iff, N.eqb_eq in Eout. by rewrite decide_True.
Qed.

Lemma failure_exits id :
  Fails id → ∃ l, resolve = exitWith l id.
Proof.
  intros [H | H | candidates H Hlen | result H Hnot | fd H Hsig].
  - eexists. by apply resolve_no_module.
  - eexists. by apply resolve_no_function.
  - eexists. by eapply resolve_ambiguous.
  - by eapply resolve_not_function.
  - eexists. rewrite (resolve_function fd H).
    rewrite decide_False; [done|]. intros [? ?]. destruct Hsig; done.
Qed.

Lemma match_excludes_failure fd :
  forModuleAndName moduleName functionName
    = Some [ResultValueDecl (VD_Func fd)] →
  fst (signatureOf fd) = inputTypes → snd (signatureOf fd) = outputType →
  ∀ id, ¬ Fails id.
Proof.
  intros Hfound Hin Hout id
         [H | H | candidates H Hlen | result H Hnot | fd' H Hsig];
    rewrite Hfound in H; try discriminate.
  - injection H as <-. simpl in Hlen. lia.
  - injection H as <-. by destruct (Hnot fd).
  - injection H as <-. destruct Hsig; done.
Qed.

(** Either the resolution fails in one of the five ways, or lookup found
    exactly one function of the expected signature. *)
Lemma failure_or_match :
  (∃ id, Fails id) ∨
  (∃ fd, forModuleAndName moduleName functionName
           = Some [ResultValueDecl (VD_Func fd)] ∧
         fst (signatureOf fd) = inputTypes ∧
         snd (signatureOf fd) = outputType).
Proof.
  destruct (forModuleAndName moduleName functionName)
    as [[|result [|second rest]]|] eqn:Elookup.
  - left. eexists. by apply missing_function.
  - destruct result as [[fd| | | | |]|];
      try solve [left; eexists; eapply not_a_function; [done | intros ? [=]]].
    destruct (decide (fst (signatureOf fd) = inputTypes)) as [Hin|Hin];
      [destruct (decide (snd (signatureOf fd) = outputType)) as [Hout|Hout]|].
    + right. by exists fd.
    + left. eexists. eapply signature_mismatch; [done | by right].
    + left. eexists. eapply signature_mismatch; [done | by left].
  - left. eexists. eapply ambiguous_function; [done | simpl; lia].
  - left. eexists. by apply missing_module.
Qed.

End Resolution.

(** C5. A resolution whose slot is empty looks the function up and exits
    with a diagnostic naming the module and the function exactly in the
    five failure cases; in every other case it returns the function found
    and caches it. *)
Theorem getBridgingFn_resolution (cacheSlot : CacheSlot)
        (moduleName functionName : string)
        (inputTypes : list SILType) (outputType : SILType) (s : SILGenModule) :
  getSlot cacheSlot s = None →
  (∀ id,
     BridgingFailure moduleName functionName inputTypes outputType id →
     ∃ l, getBridgingFn cacheSlot moduleName functionName inputTypes outputType s
          = Exit1 (setDiags
                     (diags s ++ [mkDiagnostic l id moduleName functionName]) s)) ∧
  ((∀ id, ¬ BridgingFailure moduleName functionName inputTypes outputType id) →
   ∃ fd,
     forModuleAndName moduleName functionName
       = Some [ResultValueDecl (VD_Func fd)] ∧
     getBridgingFn cacheSlot moduleName functionName inputTypes outputType s
       = Done (ofLoc (LocValueDecl (VD_Func fd)))
              (setSlot cacheSlot (Some (ofLoc (LocValueDecl (VD_Func fd)))) s)) ∧
  match getBridgingFn cacheSlot moduleName functionName inputTypes outputType s
  with
  | Done _ _ =>
      ∀ id, ¬ BridgingFailure moduleName functionName inputTypes outputType id
  | Exit1 _ =>
      ∃ id, BridgingFailure moduleName functionName inputTypes outputType id
  | AssertionFailure _ => False
  end.
Proof.
  intros Hslot.
  pose proof (failure_or_match moduleName functionName inputTypes outputType)
    as Hcases.
  split; [|split].
  - intros id Hfail. by apply failure_exits.
  - intros Hnone. destruct Hcases as [[id Hfail] | (fd & Hfound & Hin & Hout)].
    + by destruct (Hnone id).
    + exists fd. split; [done|].
      rewrite (resolve_function cacheSlot _ _ _ _ s Hslot fd Hfound).
      by rewrite decide_True.
  - destruct Hcases as [[id Hfail] | (fd & Hfound & Hin & Hout)].
    + destruct (failure_exits cacheSlot _ _ _ _ s Hslot id Hfail) as [l ->].
      by exists id.
    + rewrite (resolve_function cacheSlot _ _ _ _ s Hslot fd Hfound).
      rewrite decide_True by done.
      by eapply match_excludes_failure.
Qed.

End Bridging.

Section FallOffEnd.

Lemma pushAll_rev pushed : pushAll pushed = rev pushed.
Proof.
  unfold pushAll, pushCleanup.
  rewrite <- (app_nil_r (rev pushed)). generalize (@nil Cleanup) as acc.
  induction pushed as [|c pushed IH]; intros acc; simpl; [done|].
  by rewrite IH, <- app_assoc.
Qed.

Lemma alter_lookup_insert {A} (g : A → A) (l : list A) i x :
  l !! i = Some x → alter g i l = <[i := g x]> l.
Proof.
  revert i. induction l as [|y l IH]; intros [|i] H; simpl in *;
    try discriminate.
  - by injection H as ->.
  - f_equal. by apply IH.
Qed.

Lemma appendInsts_withBlock f bb insts s fn blk :
  functions (M s) !! f = Some fn → fnBlocks fn !! bb = Some blk →
  appendInsts f bb insts s = withBlock f fn bb (blk ++ insts) s.
Proof.
  intros Hf Hbb. unfold appendInsts, withBlock. f_equal.
  rewrite (alter_lookup_insert _ _ _ _ Hf).
  by rewrite (alter_lookup_insert _ _ _ _ Hbb).
Qed.

Lemma appendInsts_app f bb i1 i2 s :
  appendInsts f bb i2 (appendInsts f bb i1 s) = appendInsts f bb (i1 ++ i2) s.
Proof.
  unfold appendInsts. destruct s as [[fs gl] ? ? ? ? ? ? ? ?]. simpl.
  unfold setFunctions, setM. simpl. f_equal. f_equal.
  rewrite list_alter_alter_eq. apply list_alter_ext; [|done].
  intros fn _. simpl. unfold setBlocks. simpl. f_equal.
  rewrite list_alter_alter_eq. apply list_alter_ext; [|done].
  intros blk _. simpl. by rewrite app_assoc.
Qed.

Lemma insert_appends f bb i s :
  insert f (mkSILBuilder (Some bb)) i s =
    Done (if isTerminator i then mkSILBuilder None else mkSILBuilder (Some bb))
         (appendInsts f bb [i] s).
Proof. reflexivity. Qed.

Lemma emitCleanups_appends f bb st pre s :
  emitCleanups f (mkSILBuilder (Some bb)) st (appendInsts f bb pre s) =
    Done (mkSILBuilder (Some bb)) (appendInsts f bb (pre ++ map CleanupInst st) s).
Proof.
  revert pre. induction st as [|c st IH]; intros pre; simpl.
  - by rewrite app_nil_r.
  - unfold bind. rewrite insert_appends. simpl.
    rewrite appendInsts_app, IH. by rewrite <- app_assoc.
Qed.

Lemma blockLength_lookup s f bb fn blk :
  functions (M s) !! f = Some fn → fnBlocks fn !! bb = Some blk →
  blockLength s f bb = length blk.
Proof.
  intros Hf Hbb. unfold blockLength, functionAt.
  rewrite (list_lookup_total_correct _ _ _ Hf). by rewrite Hbb.
Qed.

(** The destructor on a function that ended in an explicit terminator. *)
Lemma SILGenFunction_destroy_terminated sgf s :
  insertionBB (B sgf) = None → SILGenFunction_destroy sgf s = Done tt s.
Proof.
  intros H. unfold SILGenFunction_destroy, hasValidInsertionPoint.
  by rewrite H.
Qed.

Lemma emitEmptyTuple_appends l sgf bb s :
  insertionBB (B sgf) = Some bb →
  emitEmptyTuple l sgf s =
    Done (mkSILValue bb (blockLength s (F sgf) bb), sgf)
         (appendInsts (F sgf) bb [TupleInst l []] s).
Proof. destruct sgf as [f [ins] st hvr epi]. simpl. by intros ->. Qed.

Lemma emitReturnAndCleanups_appends l v sgf bb pre s :
  insertionBB (B sgf) = Some bb →
  emitReturnAndCleanups l v sgf (appendInsts (F sgf) bb pre s) =
    Done (mkSILGenFunction (F sgf) (mkSILBuilder None) []
                           (hasVoidReturn sgf) (epilogBB sgf))
         (appendInsts (F sgf) bb
            (pre ++ map CleanupInst (Cleanups sgf) ++ [ReturnInst l v]) s).
Proof.
  destruct sgf as [f [ins] st hvr epi]. simpl. intros ->.
  unfold emitReturnAndCleanups, bind. simpl.
  rewrite emitCleanups_appends, insert_appends, appendInsts_app.
  by rewrite <- app_assoc.
Qed.

Lemma createUnreachable_appends l sgf bb s :
  insertionBB (B sgf) = Some bb →
  createUnreachable l sgf s =
    Done (mkSILGenFunction (F sgf) (mkSILBuilder None) (Cleanups sgf)
                           (hasVoidReturn sgf) (epilogBB sgf))
         (appendInsts (F sgf) bb [UnreachableInst l] s).
Proof. destruct sgf as [f [ins] st hvr epi]. simpl. by intros ->. Qed.

Lemma SILGenFunction_destroy_void sgf s fn bb blk :
  functions (M s) !! F sgf = Some fn → fnBlocks fn !! bb = Some blk →
  insertionBB (B sgf) = Some bb →
  hasVoidReturn sgf = true → epilogBB sgf = None →
  SILGenFunction_destroy sgf s =
    Done tt
      (withBlock (F sgf) fn bb
         (blk ++ [TupleInst None []] ++ map CleanupInst (Cleanups sgf)
              ++ [ReturnInst None (mkSILValue bb (length blk))]) s).
Proof.
  intros Hf Hbb Hins Hvoid Hepi.
  unfold SILGenFunction_destroy, hasValidInsertionPoint.
  rewrite Hins, Hvoid, Hepi. cbn [negb].
  unfold bind at 1. unfold assert.
  rewrite bool_decide_eq_false_2 by (by intros [? ?]). cbn [negb].
  unfold bind at 1. rewrite (emitEmptyTuple_appends _ _ _ _ Hins).
  unfold bind. cbn [fst snd].
  rewrite (emitReturnAndCleanups_appends _ _ _ _ _ _ Hins). unfold ret.
  rewrite (blockLength_lookup _ _ _ _ _ Hf Hbb).
  by rewrite (appendInsts_withBlock _ _ _ _ _ _ Hf Hbb).
Qed.

Lemma SILGenFunction_destroy_nonvoid sgf s fn bb blk :
  functions (M s) !! F sgf = Some fn → fnBlocks fn !! bb = Some blk →
  insertionBB (B sgf) = Some bb →
  hasVoidReturn sgf = false →
  SILGenFunction_destroy sgf s =
    Done tt
      (withBlock (F sgf) fn bb
         (blk ++ [UnreachableInst (getFuncBodySILLocation (fnLocation fn))]) s).
Proof.
  intros Hf Hbb Hins Hvoid.
  unfold SILGenFunction_destroy, hasValidInsertionPoint.
  rewrite Hins, Hvoid. cbn [negb].
  unfold bind, get. rewrite (createUnreachable_appends _ _ _ _ Hins).
  unfold ret, functionAt.
  rewrite (list_lookup_total_correct _ _ _ Hf).
  by rewrite (appendInsts_withBlock _ _ _ _ _ _ Hf Hbb).
Qed.

(** C1. When emission ends with a valid insertion point, at the end of
    block [bb] whose instructions are [blk]: a function with
    [hasVoidReturn] gets the empty tuple, then the pending cleanups, most
    recently pushed first, then a return of that tuple; a function
    without it gets a single [unreachable] and no return.  (The
    destructor asserts that no epilog block is pending in the first
    case.) *)
Theorem SILGenFunction_destroy_falls_through
        (sgf : SILGenFunction) (s : SILGenModule) (fn : SILFunction)
        (bb : nat) (blk : SILBasicBlock) (pushed : list Cleanup) :
  functions (M s) !! F sgf = Some fn → fnBlocks fn !! bb = Some blk →
  insertionBB (B sgf) = Some bb →
  Cleanups sgf = pushAll pushed →
  (hasVoidReturn sgf = true → epilogBB sgf = None →
   SILGenFunction_destroy sgf s =
     Done tt
       (withBlock (F sgf) fn bb
          (blk ++ [TupleInst None []] ++ map CleanupInst (rev pushed)
               ++ [ReturnInst None (mkSILValue bb (length blk))]) s)) ∧
  (hasVoidReturn sgf = false →
   SILGenFunction_destroy sgf s =
     Done tt
       (withBlock (F sgf) fn bb
          (blk ++ [UnreachableInst (getFuncBodySILLocation (fnLocation fn))])
          s)).
Proof.
  intros Hf Hbb Hins Hst. split.
  - intros Hvoid Hepi.
    rewrite (SILGenFunction_destroy_void _ _ _ _ _ Hf Hbb Hins Hvoid Hepi).
    by rewrite Hst, pushAll_rev.
  - intros Hvoid. by apply SILGenFunction_destroy_nonvoid.
Qed.

End FallOffEnd.

Section Emission.

Variable getConstantType : SILDeclRef → SILType.
Variable isPolymorphicFunctionType : SILType → bool.
Variable mangle : SILDeclRef → string.
Variable verify : SILFunction → bool.
Variable emitBody : BodyRequest → SILGenFunction → Gen SILGenFunction.

Abbreviation getFunction := (getFunction getConstantType mangle).
Abbreviation preEmitFunction := (preEmitFunction getConstantType mangle).
Abbreviation postEmitFunction := (postEmitFunction verify).
Abbreviation runSILGenFunction := (runSILGenFunction emitBody).
Abbreviation loweredTypeOf := (loweredTypeOf getConstantType).
Abbreviation Lowers := (Lowers verify emitBody).
Abbreviation WellBehaved := (WellBehaved emitBody).
Abbreviation Accepts := (Accepts verify).
Abbreviation Requested := (Requested getConstantType).
Abbreviation Prepared := (Prepared getConstantType).
Abbreviation Step := (Step getConstantType).
Abbreviation Steps := (Steps getConstantType).
Abbreviation thunked := (thunked getConstantType isPolymorphicFunctionType).
Abbreviation functionItems :=
  (functionItems getConstantType isPolymorphicFunctionType).

Lemma functionAt_lookup s f fn :
  functions (M s) !! f = Some fn → functionAt s f = fn.
Proof. apply list_lookup_total_correct. Qed.

Lemma functionAt_dangling s f :
  (length (functions (M s)) ≤ f)%nat → functionAt s f = inhabitant.
Proof.
  intros H. unfold functionAt. rewrite list_lookup_total_alt.
  by rewrite lookup_ge_None_2.
Qed.

Lemma empty_blocks fn : empty fn = true ↔ fnBlocks fn = [].
Proof. unfold empty. destruct (fnBlocks fn); split; done. Qed.

Lemma functionAt_setFunctions fs s f :
  functionAt (setFunctions fs s) f = fs !!! f.
Proof. reflexivity. Qed.

Lemma updateFunction_eq f g s :
  updateFunction f g s = Done tt (setFunctions (alter g f (functions (M s))) s).
Proof. reflexivity. Qed.

Lemma getFunction_ok c s :
  wf s → ∃ f s0, getFunction c s = Done f s0 ∧ Requested c f s s0.
Proof.
  intros [Hvalid Hinj].
  destruct (emittedFunctions s !! key c) as [f|] eqn:E.
  - rewrite (getFunction_found _ _ _ _ _ E). exists f, s. split; [done|].
    split; try done.
    + by rewrite insert_id.
    + by left.
    + by eapply Hvalid.
    + unfold loweredTypeOf. by rewrite E.
    + congruence.
  - rewrite (getFunction_fresh _ _ _ _ E). eexists _, _. split; [done|].
    split; simpl; try done.
    + by right.
    + rewrite length_app. simpl. lia.
    + rewrite length_app. simpl. lia.
    + intros f' Hne. unfold functionAt. simpl.
      destruct (decide (f' < length (functions (M s)))) as [Hlt|Hge].
      * by rewrite lookup_total_app_l.
      * rewrite !list_lookup_total_alt.
        rewrite !lookup_ge_None_2; [done| |]; [|rewrite length_app; simpl]; lia.
    + unfold functionAt. simpl. rewrite list_lookup_total_middle by done.
      unfold loweredTypeOf. by rewrite E.
    + intros _. unfold functionAt. simpl.
      by rewrite list_lookup_total_middle.
    + congruence.
Qed.

Lemma preEmitFunction_ok c node s :
  wf s → bodiless s c →
  ∃ f s1, preEmitFunction c node s = Done f s1 ∧ Prepared c f s s1.
Proof.
  intros Hwf Hbodiless.
  destruct (getFunction_ok c s Hwf) as (f & s0 & Hget & Hrq).
  unfold Driver.preEmitFunction, bind, get. rewrite Hget.
  assert (Hempty : fnBlocks (functionAt s0 f) = []).
  { destruct (rq_was Hrq) as [Hsome | [Hnone _]].
    - rewrite (rq_same Hrq Hsome). apply empty_blocks. by apply Hbodiless.
    - by apply (rq_body Hrq). }
  unfold assert. rewrite (proj2 (empty_blocks _) Hempty).
  rewrite !updateFunction_eq. eexists f, _. split; [reflexivity|].
  pose proof (rq_valid Hrq) as Hlt.
  assert (Hat : ∀ f',
    functionAt
      (setFunctions
         (alter (setLocation node) f
            (functions (M (setFunctions
               (alter (setDebugScope node) f (functions (M s0))) s0))))
         (setFunctions (alter (setDebugScope node) f (functions (M s0))) s0)) f'
    = if decide (f = f')
      then setLocation node (setDebugScope node (functionAt s0 f))
      else functionAt s0 f').
  { intros f'. unfold functionAt. simpl.
    rewrite !list_lookup_total_alter, length_alter.
    destruct (decide (f = f')) as [<-|Hne].
    - by rewrite !decide_True.
    - rewrite !decide_False; [done| |]; intros [? ?]; done. }
  split; simpl; try apply Hrq.
  - rewrite !length_alter. apply Hrq.
  - rewrite !length_alter. apply Hrq.
  - by rewrite Hat, decide_True.
  - intros f' Hne. rewrite Hat, decide_False by done. by apply Hrq.
  - rewrite Hat, decide_True by done. simpl. apply Hrq.
Qed.


Lemma postEmitFunction_ok c f s :
  empty (functionAt s f) = false → verify (functionAt s f) = true →
  postEmitFunction c f s = Done tt s.
Proof.
  intros Hbody Hverify.
  unfold Driver.postEmitFunction, bind, get, assert, isExternalDeclaration.
  by rewrite Hbody, Hverify.
Qed.

Lemma lower_ok c f hvr req s s1 :
  Lowers → wf s → Prepared c f s s1 →
  ∃ s2, runSILGenFunction c f hvr req s1 = Done tt s2 ∧
        postEmitFunction c f s2 = Done tt s2 ∧
        Step c f (Emitted c f hvr req) s s2.
Proof.
  intros Hlowers [Hvalid Hinj] Hpr.
  destruct (lookup_lt_is_Some_2 _ _ (pr_valid Hpr)) as [fn Hfn].
  pose proof (functionAt_lookup _ _ _ Hfn) as Hat.
  pose proof (pr_empty Hpr) as Hempty. rewrite Hat in Hempty.
  destruct (Hlowers c f hvr req s1 fn Hfn Hempty) as (bs & Hbs & Hver & Hrun).
  eexists. split; [exact Hrun|].
  assert (Hnew : functionAt
                   (setTrace (trace s1 ++ [Emitted c f hvr req])
                      (setFunctions (<[f:=setBlocks bs fn]> (functions (M s1))) s1))
                   f = setBlocks bs fn).
  { unfold functionAt. simpl.
    apply list_lookup_total_insert_eq. by eapply lookup_lt_Some. }
  assert (Hbody : empty (setBlocks bs fn) = false).
  { unfold empty. simpl. by destruct bs. }
  split; [|split]; simpl.
  - apply postEmitFunction_ok; by rewrite Hnew.
  - split.
    + simpl. rewrite (pr_cache Hpr). rewrite length_insert.
      intros k g Hk. destruct (decide (k = key c)) as [->|Hne].
      * rewrite lookup_insert_eq in Hk. injection Hk as <-. apply Hpr.
      * rewrite lookup_insert_ne in Hk by done.
        eapply Nat.lt_le_trans; [by eapply Hvalid | apply Hpr].
    + simpl. rewrite (pr_cache Hpr).
      assert (Hother : ∀ k, k ≠ key c → emittedFunctions s !! k = Some f → False).
      { intros k Hne Hk. destruct (pr_was Hpr) as [Hsome | [_ Hlen]].
        - apply Hne. by eapply Hinj.
        - apply Hvalid in Hk. lia. }
      intros k1 k2 g H1 H2.
      destruct (decide (k1 = key c)) as [->|Hne1];
        destruct (decide (k2 = key c)) as [->|Hne2]; [done | | |].
      * rewrite lookup_insert_eq in H1. injection H1 as <-.
        rewrite lookup_insert_ne in H2 by done. by destruct (Hother k2).
      * rewrite lookup_insert_eq in H2. injection H2 as <-.
        rewrite lookup_insert_ne in H1 by done. by destruct (Hother k1).
      * rewrite lookup_insert_ne in H1, H2 by done. by eapply Hinj.
  - apply Hpr.
  - apply Hpr.
  - by rewrite (pr_trace Hpr).
  - by rewrite Hnew.
  - intros f' Hne. rewrite <- (pr_frame Hpr f' Hne).
    unfold functionAt. simpl. by apply list_lookup_total_insert_ne.
  - rewrite Hnew. simpl. rewrite <- Hat. apply Hpr.
  - apply Hpr.
  - apply Hpr.
Qed.

(** *** Consequences of a step *)

Lemma Step_bodiless c f ev s s' c' :
  Step c f ev s s' → key c' ≠ key c → bodiless s c' → bodiless s' c'.
Proof.
  intros Hst Hne Hb g Hg.
  pose proof Hg as Hg'. rewrite (st_cache Hst) in Hg'.
  rewrite lookup_insert_ne in Hg' by done.
  assert (g ≠ f).
  { intros ->. apply Hne. eapply (proj2 (st_wf Hst)); [exact Hg|].
    rewrite (st_cache Hst). by rewrite lookup_insert_eq. }
  rewrite (st_frame Hst) by done. by apply Hb.
Qed.

Lemma Step_cached c f ev s s' :
  Step c f ev s s' → emittedFunctions s' !! key c = Some f.
Proof. intros Hst. rewrite (st_cache Hst). by rewrite lookup_insert_eq. Qed.

Lemma Step_keeps_cache c f ev s s' k g :
  Step c f ev s s' →
  emittedFunctions s !! k = Some g → emittedFunctions s' !! k = Some g.
Proof.
  intros Hst Hk. rewrite (st_cache Hst).
  destruct (decide (k = key c)) as [->|Hne].
  - destruct (st_was Hst) as [Hsome | [Hnone _]]; [|congruence].
    rewrite Hsome in Hk. injection Hk as <-. by rewrite lookup_insert_eq.
  - by rewrite lookup_insert_ne.
Qed.

Lemma Step_keeps_body c f ev s s' g :
  Step c f ev s s' →
  empty (functionAt s g) = false → empty (functionAt s' g) = false.
Proof.
  intros Hst Hg. destruct (decide (g = f)) as [->|Hne].
  - apply Hst.
  - by rewrite (st_frame Hst).
Qed.

Lemma Step_loweredTypeOf c f ev s s' c' :
  Step c f ev s s' → key c' ≠ key c ∨ c' = c →
  loweredTypeOf s' c' = loweredTypeOf s c'.
Proof.
  intros Hst [Hne | ->].
  - unfold loweredTypeOf. rewrite (st_cache Hst).
    rewrite lookup_insert_ne by done.
    destruct (emittedFunctions s !! key c') as [g|] eqn:Eg; [|done].
    rewrite (st_frame Hst); [done|].
    intros ->. apply Hne. eapply (proj2 (st_wf Hst)).
    + eapply Step_keeps_cache; [exact Hst | exact Eg].
    + by eapply Step_cached.
  - unfold loweredTypeOf at 1. rewrite (Step_cached _ _ _ _ _ Hst).
    apply Hst.
Qed.


Lemma Steps_one c f hvr req s s' :
  Step c f (Emitted c f hvr req) s s' → Steps [(c, hvr, req)] s s'.
Proof. intros H. eapply Steps_cons; [exact H | constructor]. Qed.

Lemma Steps_app l1 l2 s s1 s2 :
  Steps l1 s s1 → Steps l2 s1 s2 → Steps (l1 ++ l2) s s2.
Proof.
  induction 1 as [|c hvr req f s s1' s1 items Hst Hrest IH]; intros H2; simpl.
  - done.
  - eapply Steps_cons; [exact Hst | by apply IH].
Qed.

Lemma Steps_wf items s s' : Steps items s s' → wf s → wf s'.
Proof.
  induction 1 as [|c hvr req f s s1 s2 items Hst Hrest IH]; [done|].
  intros _. apply IH, Hst.
Qed.

Lemma Steps_bodiless items s s' c' :
  Steps items s s' →
  (∀ it, it ∈ items → key c' ≠ key (itemRef it)) →
  bodiless s c' → bodiless s' c'.
Proof.
  induction 1 as [|c hvr req f s s1 s2 items Hst Hrest IH]; [done|].
  intros Hkeys Hb. apply IH.
  - intros it Hit. apply Hkeys. by right.
  - eapply Step_bodiless; [exact Hst | | exact Hb].
    apply (Hkeys (c, hvr, req)). by left.
Qed.

Lemma Steps_keeps_cache items s s' k g :
  Steps items s s' →
  emittedFunctions s !! k = Some g → emittedFunctions s' !! k = Some g.
Proof.
  induction 1 as [|c hvr req f s s1 s2 items Hst Hrest IH]; [done|].
  intros Hk. apply IH. by eapply Step_keeps_cache.
Qed.

Lemma Steps_keeps_body items s s' g :
  Steps items s s' →
  empty (functionAt s g) = false → empty (functionAt s' g) = false.
Proof.
  induction 1 as [|c hvr req f s s1 s2 items Hst Hrest IH]; [done|].
  intros Hg. apply IH. by eapply Step_keeps_body.
Qed.

Lemma Steps_loweredTypeOf items s s' c' :
  Steps items s s' →
  (∀ it, it ∈ items → key c' ≠ key (itemRef it)) →
  loweredTypeOf s' c' = loweredTypeOf s c'.
Proof.
  induction 1 as [|c hvr req f s s1 s2 items Hst Hrest IH]; [done|].
  intros Hkeys. rewrite IH.
  - eapply Step_loweredTypeOf; [exact Hst|]. left.
    apply (Hkeys (c, hvr, req)). by left.
  - intros it Hit. apply Hkeys. by right.
Qed.

Lemma Steps_TopLevelSGF items s s' :
  Steps items s s' → TopLevelSGF s' = TopLevelSGF s.
Proof.
  induction 1 as [|c hvr req f s s1 s2 items Hst Hrest IH]; [done|].
  rewrite IH. apply Hst.
Qed.

Lemma Steps_diags items s s' : Steps items s s' → diags s' = diags s.
Proof.
  induction 1 as [|c hvr req f s s1 s2 items Hst Hrest IH]; [done|].
  rewrite IH. apply Hst.
Qed.

Lemma Steps_Emits items s s' : Steps items s s' → Emits items s s'.
Proof.
  induction 1 as [|c hvr req f s s1 s2 items Hst Hrest IH].
  - exists []. by rewrite app_nil_r.
  - destruct IH as (evs & Htr & Hevs & Hbodies).
    exists (Emitted c f hvr req :: evs). split; [|split].
    + rewrite Htr, (st_trace Hst). by rewrite <- app_assoc.
    + constructor; [by exists f | done].
    + constructor; [|done]. exists f. split.
      * eapply Steps_keeps_cache; [exact Hrest|]. by eapply Step_cached.
      * eapply Steps_keeps_body; [exact Hrest|]. apply Hst.
Qed.

(** *** The emission idiom *)

Lemma lowering_then {A} c node hvr req (K : nat → Gen A) s :
  Lowers → wf s → bodiless s c →
  ∃ f s', Step c f (Emitted c f hvr req) s s' ∧
          (f <- preEmitFunction c node ;;
           runSILGenFunction c f hvr req ;;
           postEmitFunction c f ;;
           K f) s = K f s'.
Proof.
  intros Hlowers Hwf Hb.
  destruct (preEmitFunction_ok c node s Hwf Hb) as (f & s1 & Hpre & Hpr).
  destruct (lower_ok c f hvr req s s1 Hlowers Hwf Hpr) as (s2 & Hrun & Hpost & Hst).
  exists f, s2. split; [done|].
  unfold bind. by rewrite Hpre, Hrun, Hpost.
Qed.

Lemma lowering_ok c node hvr req s :
  Lowers → wf s → bodiless s c →
  ∃ f s', Step c f (Emitted c f hvr req) s s' ∧
          (f <- preEmitFunction c node ;;
           runSILGenFunction c f hvr req ;;
           postEmitFunction c f) s = Done tt s'.
Proof.
  intros Hlowers Hwf Hb.
  destruct (preEmitFunction_ok c node s Hwf Hb) as (f & s1 & Hpre & Hpr).
  destruct (lower_ok c f hvr req s s1 Hlowers Hwf Hpr) as (s2 & Hrun & Hpost & Hst).
  exists f, s2. split; [done|].
  unfold bind. by rewrite Hpre, Hrun, Hpost.
Qed.


Lemma elem_of_map {A B} (g : A → B) (l : list A) (y : B) :
  y ∈ map g l ↔ ∃ x, y = g x ∧ x ∈ l.
Proof.
  induction l as [|a l IH]; simpl.
  - split; [by intros ?%elem_of_nil | by intros (? & _ & ?%elem_of_nil)].
  - rewrite elem_of_cons, IH. split.
    + intros [-> | (x & -> & Hx)]; [exists a | exists x];
        (split; [done|]); [by left | by right].
    + intros (x & -> & [-> | Hx]%elem_of_cons); [by left | right; eauto].
Qed.

Lemma defaultedFrom_app i l1 l2 :
  defaultedFrom i (l1 ++ l2) =
    defaultedFrom i l1 ++ defaultedFrom (i + length l1) l2.
Proof.
  revert i. induction l1 as [|[e|] l1 IH]; intros i; simpl.
  - by rewrite Nat.add_0_r.
  - rewrite IH. do 3 f_equal. lia.
  - rewrite IH. do 2 f_equal. lia.
Qed.

Lemma defaultedFrom_index i inits d :
  d ∈ defaultedFrom i inits → ∃ j, d.1 = N.of_nat j ∧ (i ≤ j)%nat.
Proof.
  revert i. induction inits as [|[e|] inits IH]; intros i; simpl.
  - by intros ?%elem_of_nil.
  - intros [->|Hin]%elem_of_cons.
    + exists i. done.
    + destruct (IH _ Hin) as (j & ? & ?). exists j. split; [done|lia].
  - intros Hin. destruct (IH _ Hin) as (j & ? & ?). exists j. split; [done|lia].
Qed.

Lemma incr_small i :
  (N.of_nat (S i) < UINT_MODULUS)%N → incr (N.of_nat i) = N.of_nat (S i).
Proof.
  intros H. unfold incr. rewrite N.mod_small; lia.
Qed.

Lemma emitDefaultArgGenerator_ok c arg s :
  Lowers → wf s → bodiless s c →
  ∃ f s', Step c f (Emitted c f (exprTypeIsVoid arg)
                            (EmitGeneratorFunction c arg)) s s' ∧
          emitDefaultArgGenerator getConstantType mangle verify emitBody c arg s
            = Done tt s'.
Proof. intros. by apply lowering_ok. Qed.

Lemma emitDefaultArgGeneratorsOfFields_ok decl fields i s :
  Lowers → wf s →
  (N.of_nat (i + length fields) < UINT_MODULUS)%N →
  (∀ d, d ∈ defaultedFrom i (map getInit fields) →
        bodiless s (getDefaultArgGenerator decl d.1)) →
  ∃ s', emitDefaultArgGeneratorsOfFields getConstantType mangle verify emitBody
          decl fields (N.of_nat i) s = Done (N.of_nat (i + length fields)) s' ∧
        Steps (map (generatorItem decl) (defaultedFrom i (map getInit fields)))
              s s'.
Proof.
  intros Hlowers. revert i s.
  induction fields as [|elt fields IH]; intros i s Hwf Hbound Hb; simpl.
  - exists s. rewrite Nat.add_0_r. split; [done | constructor].
  - simpl in Hbound.
    assert (Hincr : incr (N.of_nat i) = N.of_nat (S i)) by (apply incr_small; lia).
    replace (i + S (length fields))%nat with (S i + length fields)%nat by lia.
    simpl in Hb.
    unfold bind. destruct (getInit elt) as [handle|] eqn:Einit.
    + destruct (emitDefaultArgGenerator_ok
                  (getDefaultArgGenerator decl (N.of_nat i)) handle s Hlowers Hwf)
        as (f & s1 & Hst & Hrun).
      { apply (Hb (N.of_nat i, handle)). by left. }
      rewrite Hrun, Hincr.
      destruct (IH (S i) s1) as (s2 & Hrest & Hsteps).
      * apply Hst.
      * lia.
      * intros d Hd. eapply Step_bodiless; [exact Hst | |].
        -- destruct (defaultedFrom_index _ _ _ Hd) as (j & Hj & Hle).
           rewrite Hj. unfold key. simpl. intros [= Heq]. lia.
        -- apply Hb. by right.
      * exists s2. split; [done|]. by eapply Steps_cons.
    + unfold ret. rewrite Hincr.
      destruct (IH (S i) s Hwf) as (s2 & Hrest & Hsteps); [lia | done |].
      by exists s2.
Qed.

Lemma emitDefaultArgGeneratorsFrom_ok decl patterns i s :
  Lowers → wf s →
  (N.of_nat (i + length (parameterInits patterns)) < UINT_MODULUS)%N →
  (∀ d, d ∈ defaultedFrom i (parameterInits patterns) →
        bodiless s (getDefaultArgGenerator decl d.1)) →
  ∃ s', emitDefaultArgGeneratorsFrom getConstantType mangle verify emitBody
          decl patterns (N.of_nat i) s = Done tt s' ∧
        Steps (map (generatorItem decl) (defaultedFrom i (parameterInits patterns)))
              s s'.
Proof.
  intros Hlowers. revert i s.
  induction patterns as [|pattern patterns IH]; intros i s Hwf Hbound Hb.
  - exists s. split; [done | constructor].
  - unfold parameterInits in *. simpl in *. fold (parameterInits patterns) in *.
    rewrite length_app in Hbound. rewrite defaultedFrom_app in Hb |- *.
    destruct (getSemanticsProvidingPattern pattern) as [fields| | | |] eqn:Ep;
      simpl in *;
      try (destruct (IH (S i) s Hwf) as (s' & Hrun & Hsteps);
           [ lia
           | (intros d Hd; apply Hb;
              by replace (i + 1)%nat with (S i)%nat by lia)
           | exists s'; rewrite incr_small by lia;
             replace (i + 1)%nat with (S i)%nat by lia; done ]).
    rewrite length_map in *.
    destruct (emitDefaultArgGeneratorsOfFields_ok decl fields i s Hlowers Hwf)
      as (s1 & Hrun1 & Hsteps1).
    + lia.
    + intros d Hd. apply Hb. apply elem_of_app. by left.
    + destruct (IH (i + length fields)%nat s1) as (s2 & Hrun2 & Hsteps2).
      * by eapply Steps_wf.
      * lia.
      * intros d Hd. eapply Steps_bodiless; [exact Hsteps1 | |].
        -- intros it (d' & -> & Hd')%elem_of_map.
           destruct (defaultedFrom_index _ _ _ Hd) as (j & Hj & Hle).
           assert (∃ j', d'.1 = N.of_nat j' ∧ (j' < i + length fields)%nat)
             as (j' & Hj' & Hlt).
           { clear -Hd'. revert i Hd'.
             induction fields as [|elt fields IHf]; intros i; simpl.
             - by intros ?%elem_of_nil.
             - destruct (getInit elt).
               + intros [->|Hin]%elem_of_cons.
                 * exists i. split; [done|lia].
                 * destruct (IHf _ Hin) as (j' & ? & ?).
                   exists j'. split; [done|lia].
               + intros Hin. destruct (IHf _ Hin) as (j' & ? & ?).
                 exists j'. split; [done|lia]. }
           unfold itemRef, generatorItem, key. simpl. rewrite Hj, Hj'.
           intros [= Heq]. lia.
        -- apply Hb. apply elem_of_app. by right.
      * exists s2. split.
        -- unfold bind. by rewrite Hrun1.
        -- rewrite map_app. by eapply Steps_app.
Qed.


(** *** Curry thunks *)

Lemma atUncurryLevel_twice c a b :
  atUncurryLevel (atUncurryLevel c a) b = atUncurryLevel c b.
Proof. reflexivity. Qed.

Lemma atUncurryLevel_same c : atUncurryLevel c (uncurryLevel c) = c.
Proof. by destruct c. Qed.

Lemma key_atUncurryLevel_ne c a b :
  a ≠ b → key (atUncurryLevel c a) ≠ key (atUncurryLevel c b).
Proof. unfold key. simpl. intros Hne [= Heq]. done. Qed.

Lemma emitCurryThunk_ok entry next fe s :
  Lowers → wf s → bodiless s entry →
  ∃ f s', Step entry f (Emitted entry f (feResultIsVoid fe)
                                (EmitCurryThunk fe entry next)) s s' ∧
          emitCurryThunk getConstantType mangle verify emitBody entry next fe s
            = Done tt s'.
Proof. intros. by apply lowering_ok. Qed.

Lemma emitCurryThunks_ok fe constant n s :
  Lowers → wf s →
  (∀ level, (level < n)%nat →
            bodiless s (atUncurryLevel constant (N.of_nat level))) →
  ∃ s', emitCurryThunks getConstantType mangle verify emitBody n
          (atUncurryLevel constant (N.of_nat n)) fe s = Done tt s' ∧
        Steps (curryThunkItems fe constant n) s s'.
Proof.
  intros Hlowers. revert s.
  induction n as [|n IH]; intros s Hwf Hb.
  - exists s. split; [done | constructor].
  - simpl. rewrite atUncurryLevel_twice.
    destruct (emitCurryThunk_ok (atUncurryLevel constant (N.of_nat n))
                (atUncurryLevel constant (N.of_nat (S n))) fe s Hlowers Hwf)
      as (f & s1 & Hst & Hrun).
    { apply Hb. lia. }
    destruct (IH s1) as (s2 & Hrest & Hsteps).
    + apply Hst.
    + intros level Hlt. eapply Step_bodiless; [exact Hst | |].
      * apply key_atUncurryLevel_ne. lia.
      * apply Hb. lia.
    + exists s2. split.
      * unfold bind. by rewrite Hrun.
      * unfold curryThunkItems. rewrite seq_S, rev_app_distr. simpl.
        by eapply Steps_cons.
Qed.


(** *** Functions *)

Abbreviation emitFunction :=
  (emitFunction getConstantType isPolymorphicFunctionType mangle verify emitBody).

Lemma kind_ofLoc decl : kind (ofLoc decl) ≠ DefaultArgGenerator.
Proof. by destruct decl as [[| | | | |]|[| |]]. Qed.

Lemma key_generator_ne decl i c :
  kind c ≠ DefaultArgGenerator → key c ≠ key (getDefaultArgGenerator decl i).
Proof. unfold key. simpl. intros Hk [= _ Heq]. done. Qed.

Lemma generatorItems_keys decl patterns c it :
  kind c ≠ DefaultArgGenerator → it ∈ generatorItems decl patterns →
  key c ≠ key (itemRef it).
Proof.
  intros Hk (d & -> & _)%elem_of_map. by apply key_generator_ne.
Qed.

Lemma emitDefaultArgGenerators_ok decl patterns s :
  Lowers → wf s →
  (N.of_nat (length (parameterInits patterns)) < UINT_MODULUS)%N →
  (∀ it, it ∈ generatorItems decl patterns → bodiless s (itemRef it)) →
  ∃ s', emitDefaultArgGenerators getConstantType mangle verify emitBody
          decl patterns s = Done tt s' ∧
        Steps (generatorItems decl patterns) s s'.
Proof.
  intros Hlowers Hwf Hbound Hb.
  apply (emitDefaultArgGeneratorsFrom_ok decl patterns 0 s Hlowers Hwf Hbound).
  intros d Hd. apply (Hb (generatorItem decl d)).
  apply elem_of_map. by exists d.
Qed.

Lemma emitFunction_steps decl fe s :
  Lowers → Ready (functionItems decl fe s) s → PatternsOk fe →
  ∃ s', emitFunction decl fe s = Done tt s' ∧
        Steps (functionItems decl fe s) s s'.
Proof.
  intros Hlowers [Hwf Hb] [Hself Hbound].
  unfold Driver.emitFunction.
  assert (Hpatterns :
    match feDecl fe with
    | Some d => if isTypeContext (hdrContext d)
                then slice1 (feArgParamPatterns fe)
                else ret (feArgParamPatterns fe)
    | None => ret (feArgParamPatterns fe)
    end s = Done (parameterPatterns fe) s).
  { unfold parameterPatterns, isTypeMember in *.
    destruct (feDecl fe) as [d|]; [|done].
    destruct (isTypeContext (hdrContext d)); [|done].
    destruct (feArgParamPatterns fe); [by destruct Hself | done]. }
  unfold bind at 1. rewrite Hpatterns.
  destruct (emitDefaultArgGenerators_ok decl (parameterPatterns fe) s
              Hlowers Hwf Hbound) as (s1 & Hgens & Hsteps1).
  { intros it Hit. apply Hb. unfold functionItems. apply elem_of_app. by left. }
  unfold bind at 1. rewrite Hgens.
  unfold functionItems in *.
  destruct (feBody fe) as [body|].
  2:{ exists s1. rewrite app_nil_r. done. }
  set (constant := ofLoc decl) in *.
  assert (Hwf1 : wf s1) by (by eapply Steps_wf).
  assert (Hb1 : ∀ c, kind c ≠ DefaultArgGenerator → bodiless s c → bodiless s1 c).
  { intros c Hk. eapply Steps_bodiless; [exact Hsteps1|].
    intros it Hit. by eapply generatorItems_keys. }
  assert (Hmain : bodiless s1 constant).
  { apply Hb1; [apply kind_ofLoc|]. apply (Hb (mainItem decl fe)).
    apply elem_of_app. right. by left. }
  match goal with
  | |- ∃ s', bind (Driver.preEmitFunction _ _ ?c ?node)
                  (λ f, bind (Driver.runSILGenFunction _ _ _ ?hvr ?req)
                             (λ _, bind _ (λ _, @?K f))) s1 = _ ∧ _ =>
      destruct (lowering_then c node hvr req K s1 Hlowers Hwf1 Hmain)
        as (f & s2 & Hst & Hrun)
  end.
  rewrite Hrun. clear Hrun. cbv beta.
  fold (asFuncDecl decl). fold (isAccessor decl). fold (isInstanceMember decl).
  assert (Htype : fnLoweredType (functionAt s2 f) = loweredTypeOf s constant).
  { rewrite (st_type Hst).
    eapply Steps_loweredTypeOf; [exact Hsteps1|].
    intros it Hit. eapply generatorItems_keys; [apply kind_ofLoc | exact Hit]. }
  assert (Hmainsteps :
    Steps (generatorItems decl (parameterPatterns fe) ++ [mainItem decl fe]) s s2).
  { eapply Steps_app; [exact Hsteps1|]. eapply Steps_one. exact Hst. }
  unfold thunked in *. fold constant in Hb |- *.
  destruct (isAccessor decl); simpl.
  { exists s2. done. }
  destruct (isInstanceMember decl); simpl.
  { exists s2. done. }
  unfold bind at 1. unfold get. rewrite Htype.
  destruct (isPolymorphicFunctionType (loweredTypeOf s constant)); simpl.
  { exists s2. done. }
  simpl in Hb.
  destruct (emitCurryThunks_ok fe constant (naturalLevel decl) s2 Hlowers)
    as (s3 & Hthunks & Hsteps3).
  - apply Hst.
  - intros level Hlt.
    assert (Hne : N.of_nat level ≠ uncurryLevel constant).
    { unfold naturalLevel in Hlt. fold constant in Hlt. lia. }
    eapply Step_bodiless; [exact Hst | |].
    + unfold key. simpl. intros [= Heq]. done.
    + apply Hb1; [apply kind_ofLoc|].
      apply (Hb (curryThunkItem fe constant level)).
      apply elem_of_app. right. right.
      apply elem_of_map. exists level. split; [done|].
      apply list_elem_of_In. rewrite <- in_rev. apply in_seq. lia.
  - unfold naturalLevel in Hthunks at 2. rewrite N2Nat.id in Hthunks.
    fold constant in Hthunks. rewrite atUncurryLevel_same in Hthunks.
    exists s3. split; [exact Hthunks|].
    replace (generatorItems decl (parameterPatterns fe) ++
             mainItem decl fe :: curryThunkItems fe constant (naturalLevel decl))
      with ((generatorItems decl (parameterPatterns fe) ++ [mainItem decl fe]) ++
            curryThunkItems fe constant (naturalLevel decl))
      by (by rewrite <- app_assoc).
    by eapply Steps_app.
Qed.


(** *** Constructors *)

Abbreviation emitConstructor :=
  (emitConstructor getConstantType mangle verify emitBody).

Lemma emitConstructor_steps decl s :
  Lowers → Ready (constructorItems decl) s →
  (N.of_nat (length (parameterInits [cdArguments decl])) < UINT_MODULUS)%N →
  ∃ s', emitConstructor decl s = Done tt s' ∧ Steps (constructorItems decl) s s'.
Proof.
  intros Hlowers [Hwf Hb] Hbound.
  unfold Driver.emitConstructor, constructorItems, constructorBodies in *.
  destruct (emitDefaultArgGenerators_ok
              (LocValueDecl (VD_Constructor decl)) [cdArguments decl] s
              Hlowers Hwf Hbound) as (s1 & Hgens & Hsteps1).
  { intros it Hit. apply Hb. apply elem_of_app. by left. }
  unfold bind at 1. rewrite Hgens.
  fold (allocatorRef decl). fold (initializerRef decl).
  assert (Hwf1 : wf s1) by (by eapply Steps_wf).
  assert (Hb1 : ∀ c, kind c ≠ DefaultArgGenerator → bodiless s c → bodiless s1 c).
  { intros c Hk. eapply Steps_bodiless; [exact Hsteps1|].
    intros it Hit. by eapply generatorItems_keys. }
  destruct (cdThisIsClass decl).
  - match goal with
    | |- ∃ s', bind (Driver.preEmitFunction _ _ ?c ?node)
                    (λ f, bind (Driver.runSILGenFunction _ _ _ ?hvr ?req)
                               (λ _, bind _ (λ _, @?K f))) s1 = _ ∧ _ =>
        destruct (lowering_then c node hvr req K s1 Hlowers Hwf1)
          as (f & s2 & Hst & Hrun)
    end.
    { apply Hb1; [done|].
      apply (Hb (allocatorRef decl, true, EmitClassConstructorAllocator decl)).
      apply elem_of_app. right. by left. }
    rewrite Hrun. clear Hrun. cbv beta.
    destruct (lowering_ok (initializerRef decl)
                (Some (NodeConstructorDecl decl)) true
                (EmitClassConstructorInitializer decl) s2 Hlowers)
      as (f' & s3 & Hst' & Hrun').
    + apply Hst.
    + eapply Step_bodiless; [exact Hst | by unfold key | ].
      apply Hb1; [done|].
      apply (Hb (initializerRef decl, true,
                 EmitClassConstructorInitializer decl)).
      apply elem_of_app. right. right. by left.
    + exists s3. split; [exact Hrun'|].
      eapply Steps_app; [exact Hsteps1|].
      eapply Steps_cons; [exact Hst|]. eapply Steps_one. exact Hst'.
  - destruct (lowering_ok (allocatorRef decl)
                (Some (NodeConstructorDecl decl)) true
                (EmitValueConstructor decl) s1 Hlowers Hwf1)
      as (f & s2 & Hst & Hrun).
    { apply Hb1; [done|].
      apply (Hb (allocatorRef decl, true, EmitValueConstructor decl)).
      apply elem_of_app. right. by left. }
    exists s2. split; [exact Hrun|].
    eapply Steps_app; [exact Hsteps1|]. eapply Steps_one. exact Hst.
Qed.

(** *** ObjC thunks *)

Abbreviation emitObjCMethodThunk :=
  (emitObjCMethodThunk getConstantType mangle verify emitBody).
Abbreviation emitObjCPropertyMethodThunks :=
  (emitObjCPropertyMethodThunks getConstantType mangle verify emitBody).

Lemma not_cached_bodiless s c : cached s c = false → bodiless s c.
Proof.
  unfold cached, bodiless. intros H f Hf.
  apply bool_decide_eq_false in H. destruct H. by eexists.
Qed.

Lemma emitObjCPropertyMethodThunks_steps prop s :
  Lowers → wf s → (vdIsSettable prop = true → bodiless s (setterRef prop)) →
  ∃ s', emitObjCPropertyMethodThunks prop s = Done tt s' ∧
        Steps (propertyThunkItems prop s) s s'.
Proof.
  intros Hlowers Hwf Hsetter.
  unfold Driver.emitObjCPropertyMethodThunks, propertyThunkItems.
  fold (getterRef prop). fold (setterRef prop).
  unfold bind at 1. rewrite hasFunction_eq. fold (cached s (getterRef prop)).
  destruct (cached s (getterRef prop)) eqn:Ecached.
  - exists s. split; [done | constructor].
  - apply not_cached_bodiless in Ecached.
    match goal with
    | |- ∃ s', bind (Driver.preEmitFunction _ _ ?c ?node)
                    (λ f, bind (Driver.runSILGenFunction _ _ _ ?hvr ?req)
                               (λ _, bind _ (λ _, @?K f))) s = _ ∧ _ =>
        destruct (lowering_then c node hvr req K s Hlowers Hwf Ecached)
          as (f & s1 & Hst & Hrun)
    end.
    rewrite Hrun. clear Hrun. cbv beta.
    destruct (vdIsSettable prop); simpl.
    + destruct (lowering_ok (setterRef prop) (Some (NodeVarDecl prop)) false
                  (EmitObjCPropertySetter (setterRef prop)) s1 Hlowers)
        as (f' & s2 & Hst' & Hrun').
      * apply Hst.
      * eapply Step_bodiless; [exact Hst | by unfold key | by apply Hsetter].
      * exists s2. split; [exact Hrun'|].
        eapply Steps_cons; [exact Hst|]. eapply Steps_one. exact Hst'.
    + exists s1. split; [done|]. eapply Steps_one. exact Hst.
Qed.

Lemma emitObjCPropertyMethodThunks_cached prop s :
  cached s (getterRef prop) = true →
  emitObjCPropertyMethodThunks prop s = Done tt s.
Proof.
  intros H. unfold Driver.emitObjCPropertyMethodThunks.
  fold (getterRef prop).
  unfold bind at 1. rewrite hasFunction_eq. fold (cached s (getterRef prop)).
  by rewrite H.
Qed.

Lemma emitObjCMethodThunk_cached method s :
  cached s (methodThunkRef method) = true →
  emitObjCMethodThunk method s = Done tt s.
Proof.
  intros H. unfold Driver.emitObjCMethodThunk.
  fold (methodThunkRef method).
  unfold bind at 1. rewrite hasFunction_eq.
  fold (cached s (methodThunkRef method)). by rewrite H.
Qed.

Lemma emitObjCMethodThunk_fresh method s :
  Lowers → wf s → cached s (methodThunkRef method) = false →
  ∃ f s', emitObjCMethodThunk method s = Done tt s' ∧
          Step (methodThunkRef method) f
               (Emitted (methodThunkRef method) f false
                        (EmitObjCMethodThunk (methodThunkRef method))) s s'.
Proof.
  intros Hlowers Hwf H. unfold Driver.emitObjCMethodThunk.
  fold (methodThunkRef method).
  unfold bind at 1. rewrite hasFunction_eq.
  fold (cached s (methodThunkRef method)). rewrite H.
  destruct (lowering_ok (methodThunkRef method)
              (Some (NodeFuncExpr (fdBody method))) false
              (EmitObjCMethodThunk (methodThunkRef method)) s Hlowers Hwf)
    as (f & s' & Hst & Hrun).
  { by apply not_cached_bodiless. }
  by exists f, s'.
Qed.


Lemma preEmitFunction_rejects c node s :
  hasBody s c → preEmitFunction c node s = alreadyEmitted.
Proof.
  intros (f & Hf & Hbody).
  unfold Driver.preEmitFunction, bind, get.
  rewrite (getFunction_found _ _ _ _ _ Hf). unfold assert. by rewrite Hbody.
Qed.

Lemma Step_hasBody c f ev s s' : Step c f ev s s' → hasBody s' c.
Proof.
  intros Hst. exists f. split; [by eapply Step_cached | apply Hst].
Qed.

Lemma Steps_hasBody items s s' c :
  Steps items s s' → hasBody s c → hasBody s' c.
Proof.
  intros Hsteps (f & Hf & Hbody). exists f. split.
  - by eapply Steps_keeps_cache.
  - by eapply Steps_keeps_body.
Qed.

Lemma Steps_items_hasBody items s s' it :
  Steps items s s' → it ∈ items → hasBody s' (itemRef it).
Proof.
  intros Hsteps Hit. destruct (Steps_Emits _ _ _ Hsteps) as (_ & _ & _ & Hall).
  rewrite Forall_forall in Hall. by apply Hall.
Qed.

Lemma preEmitFunction_Done_bodiless c node s f s1 :
  preEmitFunction c node s = Done f s1 → bodiless s c.
Proof.
  unfold Driver.preEmitFunction, bind, get. intros H g Hg.
  rewrite (getFunction_found _ _ _ _ _ Hg) in H. unfold assert in H.
  by destruct (empty (functionAt s g)).
Qed.

(** The emission idiom, run to completion, is a step. *)
Lemma lowering_inv c node hvr req s s' :
  Lowers → wf s →
  (f <- preEmitFunction c node ;;
   runSILGenFunction c f hvr req ;;
   postEmitFunction c f) s = Done tt s' →
  ∃ f, Step c f (Emitted c f hvr req) s s'.
Proof.
  intros Hlowers Hwf Hrun.
  assert (Hb : bodiless s c).
  { unfold bind in Hrun.
    destruct (preEmitFunction c node s) as [f s1| |] eqn:Epre; try discriminate.
    by eapply preEmitFunction_Done_bodiless. }
  destruct (lowering_ok c node hvr req s Hlowers Hwf Hb) as (f & s2 & Hst & Hrun2).
  rewrite Hrun2 in Hrun. injection Hrun as <-. by exists f.
Qed.

(** Whatever is lowered afterwards, a reference that has been lowered
    cannot be lowered again. *)
Lemma lowering_again c node hvr req s s' items s'' node' hvr' req' :
  Lowers → wf s →
  (f <- preEmitFunction c node ;;
   runSILGenFunction c f hvr req ;;
   postEmitFunction c f) s = Done tt s' →
  Steps items s' s'' →
  preEmitFunction c node' s'' = alreadyEmitted ∧
  (f <- preEmitFunction c node' ;;
   runSILGenFunction c f hvr' req' ;;
   postEmitFunction c f) s'' = alreadyEmitted.
Proof.
  intros Hlowers Hwf Hrun Hsteps.
  destruct (lowering_inv _ _ _ _ _ _ Hlowers Hwf Hrun) as (f & Hst).
  assert (Hrej : preEmitFunction c node' s'' = alreadyEmitted).
  { apply preEmitFunction_rejects. eapply Steps_hasBody; [exact Hsteps|].
    by eapply Step_hasBody. }
  split; [done|]. unfold bind. by rewrite Hrej.
Qed.

Lemma emitDefaultArgGeneratorsOfFields_again decl fields i s :
  (∀ d, d ∈ defaultedFrom i (map getInit fields) →
        hasBody s (getDefaultArgGenerator decl d.1)) →
  (N.of_nat (i + length fields) < UINT_MODULUS)%N →
  emitDefaultArgGeneratorsOfFields getConstantType mangle verify emitBody
    decl fields (N.of_nat i) s =
  match defaultedFrom i (map getInit fields) with
  | [] => Done (N.of_nat (i + length fields)) s
  | _ :: _ => alreadyEmitted
  end.
Proof.
  revert i. induction fields as [|elt fields IH]; intros i Hb Hbound; simpl.
  - by rewrite Nat.add_0_r.
  - simpl in Hb, Hbound. unfold bind.
    destruct (getInit elt) as [handle|].
    + unfold emitDefaultArgGenerator, bind.
      rewrite preEmitFunction_rejects; [done|].
      apply (Hb (N.of_nat i, handle)). by left.
    + unfold ret. rewrite incr_small by lia. rewrite IH; [|done|lia].
      replace (S i + length fields)%nat with (i + S (length fields))%nat by lia.
      done.
Qed.

Lemma emitDefaultArgGenerators_again decl patterns s :
  (∀ it, it ∈ generatorItems decl patterns → hasBody s (itemRef it)) →
  (N.of_nat (length (parameterInits patterns)) < UINT_MODULUS)%N →
  emitDefaultArgGenerators getConstantType mangle verify emitBody decl patterns s =
  match generatorItems decl patterns with
  | [] => Done tt s
  | _ :: _ => alreadyEmitted
  end.
Proof.
  unfold generatorItems, defaultArgs, emitDefaultArgGenerators.
  change 0%N with (N.of_nat 0). change (length (parameterInits patterns))
    with (0 + length (parameterInits patterns))%nat.
  generalize 0%nat as i.
  induction patterns as [|pattern patterns IH]; intros i Hb Hbound; [done|].
  unfold parameterInits in *. simpl in *. fold (parameterInits patterns) in *.
  rewrite length_app in Hbound. rewrite defaultedFrom_app in Hb |- *.
  rewrite map_app in Hb |- *.
  assert (Hrest : ∀ j,
    (j = i + length match getSemanticsProvidingPattern pattern with
                    | TuplePattern fields => map getInit fields
                    | _ => [None]
                    end)%nat →
    emitDefaultArgGeneratorsFrom getConstantType mangle verify emitBody decl
      patterns (N.of_nat j) s =
    match map (generatorItem decl) (defaultedFrom j (parameterInits patterns)) with
    | [] => Done tt s
    | _ :: _ => alreadyEmitted
    end).
  { intros j ->. apply IH; [|lia].
    intros it Hit. apply Hb. apply elem_of_app. by right. }
  destruct (getSemanticsProvidingPattern pattern) as [fields| | | |] eqn:Ep;
    simpl in *;
    try (rewrite incr_small by lia;
         replace (i + 1)%nat with (S i) in * by lia; by apply Hrest).
  rewrite length_map in *. unfold bind.
  rewrite emitDefaultArgGeneratorsOfFields_again; [| |lia].
  - destruct (defaultedFrom i (map getInit fields)); simpl; [|done].
    by apply Hrest.
  - intros d Hd. apply (Hb (generatorItem decl d)).
    apply elem_of_app. left. apply elem_of_map. by exists d.
Qed.

Lemma emitFunction_again decl fe s s' body :
  feBody fe = Some body → PatternsOk fe →
  Steps (functionItems decl fe s) s s' →
  emitFunction decl fe s' = alreadyEmitted.
Proof.
  intros Hbody [Hself Hbound] Hsteps.
  unfold Driver.emitFunction.
  assert (Hpatterns :
    match feDecl fe with
    | Some d => if isTypeContext (hdrContext d)
                then slice1 (feArgParamPatterns fe)
                else ret (feArgParamPatterns fe)
    | None => ret (feArgParamPatterns fe)
    end s' = Done (parameterPatterns fe) s').
  { unfold parameterPatterns, isTypeMember in *.
    destruct (feDecl fe) as [d|]; [|done].
    destruct (isTypeContext (hdrContext d)); [|done].
    destruct (feArgParamPatterns fe); [by destruct Hself | done]. }
  unfold bind at 1. rewrite Hpatterns. unfold bind at 1.
  rewrite emitDefaultArgGenerators_again; [| |done].
  - destruct (generatorItems decl (parameterPatterns fe)); [|done].
    rewrite Hbody. unfold bind.
    rewrite preEmitFunction_rejects; [done|].
    apply (Steps_items_hasBody _ _ _ (mainItem decl fe) Hsteps).
    unfold functionItems. rewrite Hbody. apply elem_of_app. right. by left.
  - intros it Hit. eapply Steps_items_hasBody; [exact Hsteps|].
    unfold functionItems. apply elem_of_app. by left.
Qed.

Lemma emitConstructor_again decl s s' :
  (N.of_nat (length (parameterInits [cdArguments decl])) < UINT_MODULUS)%N →
  Steps (constructorItems decl) s s' →
  emitConstructor decl s' = alreadyEmitted.
Proof.
  intros Hbound Hsteps. unfold Driver.emitConstructor.
  unfold bind at 1.
  rewrite emitDefaultArgGenerators_again; [| |done].
  - destruct (generatorItems _ _); [|done].
    unfold bind. rewrite preEmitFunction_rejects; [done|].
    fold (allocatorRef decl).
    unfold constructorItems, constructorBodies in Hsteps.
    destruct (cdThisIsClass decl).
    + apply (Steps_items_hasBody _ _ _
               (allocatorRef decl, true, EmitClassConstructorAllocator decl)
               Hsteps).
      apply elem_of_app. right. by left.
    + apply (Steps_items_hasBody _ _ _
               (allocatorRef decl, true, EmitValueConstructor decl) Hsteps).
      apply elem_of_app. right. by left.
  - intros it Hit. eapply Steps_items_hasBody; [exact Hsteps|].
    unfold constructorItems. apply elem_of_app. by left.
Qed.


(** *** Emitters that meet the contract *)

Lemma insert_alter_same {A} (g : A → A) (l : list A) i x :
  <[i := x]> (alter g i l) = <[i := x]> l.
Proof.
  revert i. induction l as [|y l IH]; intros [|i]; simpl; try done.
  by rewrite IH.
Qed.

Lemma forallb_lookup {A} (p : A → bool) (l : list A) :
  (∀ i x, l !! i = Some x → p x = true) → forallb p l = true.
Proof.
  induction l as [|y l IH]; intros H; simpl; [done|].
  rewrite (H 0%nat y eq_refl). simpl. apply IH.
  intros i x Hi. by apply (H (S i)).
Qed.

Lemma terminated_snoc blk i : isTerminator i = true → terminated (blk ++ [i]) = true.
Proof. intros H. unfold terminated. by rewrite last_snoc. Qed.

Lemma WellBehaved_Lowers : WellBehaved → Accepts → Lowers.
Proof.
  intros HW HA c f hvr req s fn Hf Hempty.
  unfold Driver.runSILGenFunction.
  unfold bind at 1. unfold SILGenFunction_new, bind at 1, get.
  rewrite (functionAt_lookup _ _ _ Hf), Hempty. simpl length.
  unfold bind at 1. rewrite updateFunction_eq. unfold ret.
  unfold bind at 1. unfold record, modify.
  set (g := λ fn0 : SILFunction, setBlocks (fnBlocks fn0 ++ [[]]) fn0).
  set (ev := Emitted c f hvr req).
  set (sb := setTrace _ _).
  assert (Hfb : functions (M sb) !! f = Some (setBlocks [[]] fn)).
  { subst sb. simpl. rewrite list_lookup_alter_eq, Hf. simpl.
    unfold g. by rewrite Hempty. }
  destruct (HW req f hvr sb _ Hfb eq_refl)
    as (sgf' & bs & Hrun & HF & Hhvr & Hbs & Hterm & Hins).
  unfold bind at 1. rewrite Hrun.
  set (sc := setFunctions _ sb).
  assert (Hlt : f < length (functions (M sb))) by (by eapply lookup_lt_Some).
  assert (Hfc : functions (M sc) !! F sgf' = Some (setBlocks bs (setBlocks [[]] fn))).
  { rewrite HF. subst sc. simpl. by apply list_lookup_insert_eq. }
  assert (Hshape : ∀ bs',
    setFunctions
      (<[f := setBlocks bs' (setBlocks bs (setBlocks [[]] fn))]> (functions (M sc)))
      sc =
    setTrace (trace s ++ [ev])
      (setFunctions (<[f := setBlocks bs' fn]> (functions (M s))) s)).
  { intros bs'. subst sc sb. destruct s as [[fs gl] ? ? ? ? ? ? ? ?]. simpl.
    unfold setFunctions, setTrace, setM. simpl. do 2 f_equal.
    by rewrite list_insert_insert_eq, insert_alter_same. }
  destruct (insertionBB (B sgf')) as [bb|] eqn:Ebb.
  - destruct (Hins bb eq_refl) as [[blk Hblk] Hepi].
    assert (Hbb : fnBlocks (setBlocks bs (setBlocks [[]] fn)) !! bb = Some blk)
      by done.
    assert (Hver : ∀ tail i,
      isTerminator i = true →
      verify (setBlocks (<[bb := blk ++ tail ++ [i]]> bs) fn) = true).
    { intros tail i Hi. apply HA; simpl.
      - intros Hnil. apply Hbs. apply (f_equal length) in Hnil.
        rewrite length_insert in Hnil. by destruct bs.
      - apply forallb_lookup. intros j x Hj.
        destruct (decide (j = bb)) as [->|Hne].
        + rewrite list_lookup_insert_eq in Hj by (by eapply lookup_lt_Some).
          injection Hj as <-. rewrite app_assoc. by apply terminated_snoc.
        + rewrite list_lookup_insert_ne in Hj by done.
          apply (Hterm j x Hj). congruence. }
    destruct hvr.
    + rewrite (SILGenFunction_destroy_void _ _ _ _ _ Hfc Hbb Ebb Hhvr (Hepi eq_refl)).
      eexists. split; [|split]; [| |unfold withBlock; rewrite HF, Hshape; done].
      * intros Hnil. apply Hbs. apply (f_equal length) in Hnil.
        rewrite length_insert in Hnil. by destruct bs.
      * simpl.
        apply (Hver (TupleInst None [] :: map CleanupInst (Cleanups sgf'))
                    (ReturnInst None (mkSILValue bb (length blk)))).
        done.
    + rewrite (SILGenFunction_destroy_nonvoid _ _ _ _ _ Hfc Hbb Ebb Hhvr).
      eexists. split; [|split]; [| |unfold withBlock; rewrite HF, Hshape; done].
      * intros Hnil. apply Hbs. apply (f_equal length) in Hnil.
        rewrite length_insert in Hnil. by destruct bs.
      * apply (Hver [] (UnreachableInst
                          (getFuncBodySILLocation
                             (fnLocation (setBlocks bs (setBlocks [[]] fn)))))).
        done.
  - rewrite (SILGenFunction_destroy_terminated _ _ Ebb).
    exists bs. split; [done|]. split.
    + apply HA; [done|]. apply forallb_lookup.
      intros j x Hj. by apply (Hterm j x Hj).
    + rewrite <- (Hshape bs). subst sc. simpl.
      destruct sb as [[fs gl] ? ? ? ? ? ? ? ?]. simpl.
      unfold setFunctions, setM. simpl. do 2 f_equal.
      by rewrite list_insert_insert_eq.
Qed.


Lemma emitObjCPropertyMethodThunks_setter_body prop s :
  Lowers → wf s → cached s (getterRef prop) = false →
  vdIsSettable prop = true → hasBody s (setterRef prop) →
  emitObjCPropertyMethodThunks prop s = alreadyEmitted.
Proof.
  intros Hlowers Hwf Ecached Hsettable Hbody.
  unfold Driver.emitObjCPropertyMethodThunks.
  fold (getterRef prop). fold (setterRef prop).
  unfold bind at 1. rewrite hasFunction_eq. fold (cached s (getterRef prop)).
  rewrite Ecached. apply not_cached_bodiless in Ecached.
  match goal with
  | |- bind (Driver.preEmitFunction _ _ ?c ?node)
            (λ f, bind (Driver.runSILGenFunction _ _ _ ?hvr ?req)
                       (λ _, bind _ (λ _, @?K f))) s = _ =>
      destruct (lowering_then c node hvr req K s Hlowers Hwf Ecached)
        as (f & s1 & Hst & Hrun)
  end.
  rewrite Hrun. cbv beta. rewrite Hsettable. simpl.
  unfold bind. rewrite preEmitFunction_rejects; [done|].
  eapply Steps_hasBody; [eapply Steps_one; exact Hst | done].
Qed.

Lemma emitObjCPropertyMethodThunks_caches prop s s' :
  Lowers → wf s →
  emitObjCPropertyMethodThunks prop s = Done tt s' →
  cached s' (getterRef prop) = true.
Proof.
  intros Hlowers Hwf Hrun.
  destruct (cached s (getterRef prop)) eqn:Ecached.
  - rewrite (emitObjCPropertyMethodThunks_cached _ _ Ecached) in Hrun.
    by injection Hrun as <-.
  - unfold Driver.emitObjCPropertyMethodThunks in Hrun.
    fold (getterRef prop) in Hrun. fold (setterRef prop) in Hrun.
    unfold bind at 1 in Hrun. rewrite hasFunction_eq in Hrun.
    fold (cached s (getterRef prop)) in Hrun. rewrite Ecached in Hrun.
    apply not_cached_bodiless in Ecached.
    match type of Hrun with
    | bind (Driver.preEmitFunction _ _ ?c ?node)
           (λ f, bind (Driver.runSILGenFunction _ _ _ ?hvr ?req)
                      (λ _, bind _ (λ _, @?K f))) s = _ =>
        destruct (lowering_then c node hvr req K s Hlowers Hwf Ecached)
          as (f & s1 & Hst & Heq)
    end.
    rewrite Heq in Hrun. cbv beta in Hrun.
    assert (Hc1 : emittedFunctions s1 !! key (getterRef prop) = Some f)
      by (by eapply Step_cached).
    assert (Hc' : emittedFunctions s' !! key (getterRef prop) = Some f).
    { destruct (vdIsSettable prop); simpl in Hrun.
      - destruct (lowering_inv _ _ _ _ _ _ Hlowers (st_wf Hst) Hrun)
          as (f' & Hst').
        by eapply Step_keeps_cache.
      - by injection Hrun as <-. }
    unfold cached. rewrite Hc'. by apply bool_decide_eq_true_2.
Qed.

Lemma emitObjCMethodThunk_caches method s s' :
  Lowers → wf s →
  emitObjCMethodThunk method s = Done tt s' →
  cached s' (methodThunkRef method) = true.
Proof.
  intros Hlowers Hwf Hrun.
  destruct (cached s (methodThunkRef method)) eqn:Ecached.
  - rewrite (emitObjCMethodThunk_cached _ _ Ecached) in Hrun.
    by injection Hrun as <-.
  - destruct (emitObjCMethodThunk_fresh method s Hlowers Hwf Ecached)
      as (f & s1 & Heq & Hst).
    rewrite Heq in Hrun. injection Hrun as <-.
    unfold cached. rewrite (Step_cached _ _ _ _ _ Hst).
    by apply bool_decide_eq_true_2.
Qed.

(** *** Positions of the defaulted parameters *)

Lemma defaultedFrom_lookup k inits d :
  d ∈ defaultedFrom k inits ↔
  ∃ j, d.1 = N.of_nat (k + j) ∧ inits !! j = Some (Some d.2).
Proof.
  revert k. induction inits as [|[e|] inits IH]; intros k; simpl.
  - split; [by intros ?%elem_of_nil | by intros (j & _ & ?)].
  - rewrite elem_of_cons, IH. split.
    + intros [-> | (j & Hj & Hl)].
      * exists 0%nat. by rewrite Nat.add_0_r.
      * exists (S j). split; [|done]. rewrite Hj. f_equal. lia.
    + intros ([|j] & Hj & Hl); simpl in Hl.
      * left. injection Hl as ->. rewrite Nat.add_0_r in Hj.
        destruct d. simpl in *. by subst.
      * right. exists j. split; [|done]. rewrite Hj. f_equal. lia.
  - rewrite IH. split.
    + intros (j & Hj & Hl). exists (S j). split; [|done]. rewrite Hj. f_equal. lia.
    + intros ([|j] & Hj & Hl); simpl in Hl; [done|].
      exists j. split; [|done]. rewrite Hj. f_equal. lia.
Qed.

Lemma defaultArgs_positions patterns d :
  d ∈ defaultArgs patterns ↔
  ∃ j, d.1 = N.of_nat j ∧ parameterInits patterns !! j = Some (Some d.2).
Proof. unfold defaultArgs. by rewrite defaultedFrom_lookup. Qed.

(** *** Sessions that are ready *)

Lemma wf_empty_cache s : emittedFunctions s = ∅ → wf s.
Proof.
  intros H. split.
  - intros k f Hk. rewrite H in Hk. by rewrite lookup_empty in Hk.
  - intros k1 k2 f Hk. rewrite H in Hk. by rewrite lookup_empty in Hk.
Qed.

Lemma Ready_empty_cache items s : emittedFunctions s = ∅ → Ready items s.
Proof.
  intros H. split; [by apply wf_empty_cache|].
  intros it _ f Hf. rewrite H in Hf. by rewrite lookup_empty in Hf.
Qed.

Lemma map_lookup {A B} (g : A → B) (l : list A) i :
  map g l !! i = g <$> l !! i.
Proof.
  revert i. induction l as [|x l IH]; intros [|i]; simpl; done.
Qed.

Lemma rev_seq_lookup n i :
  (i < n)%nat → rev (seq 0 n) !! i = Some (n - 1 - i)%nat.
Proof.
  revert i. induction n as [|n IH]; intros i Hi; [lia|].
  rewrite seq_S, rev_app_distr. simpl. destruct i as [|i]; simpl.
  - f_equal. lia.
  - rewrite IH by lia. f_equal. lia.
Qed.

(** *** The claims about emission *)

(** C2. Emitting a constructor first emits the default-argument
    generators of its parameter list and then, for a class, an allocator
    and an initializer under two distinct references, for a value type a
    single function; all of them with [hasVoidReturn] set. *)
Theorem emitConstructor_functions (decl : ConstructorDecl) (s : SILGenModule) :
  Lowers → Ready (constructorItems decl) s →
  (N.of_nat (length (parameterInits [cdArguments decl])) < UINT_MODULUS)%N →
  ∃ s',
    emitConstructor decl s = Done tt s' ∧
    Emits (generatorItems (LocValueDecl (VD_Constructor decl)) [cdArguments decl]
           ++ constructorBodies decl) s s' ∧
    (cdThisIsClass decl = true →
     constructorBodies decl =
       [(allocatorRef decl, true, EmitClassConstructorAllocator decl);
        (initializerRef decl, true, EmitClassConstructorInitializer decl)] ∧
     key (allocatorRef decl) ≠ key (initializerRef decl)) ∧
    (cdThisIsClass decl = false →
     constructorBodies decl =
       [(allocatorRef decl, true, EmitValueConstructor decl)]).
Proof.
  intros Hlowers Hready Hbound.
  destruct (emitConstructor_steps decl s Hlowers Hready Hbound)
    as (s' & Hrun & Hsteps).
  exists s'. split; [done|]. split; [by apply Steps_Emits|].
  unfold constructorBodies. split; intros ->; [|done].
  split; [done|]. by unfold key.
Qed.

(** C3. After the main body of a function emitted at uncurry level N,
    when the function is not an accessor, not an instance member and not
    generic, N curry thunks are emitted, for the levels N-1 down to 0,
    each forwarding to the entry point one level higher; otherwise none.
    A function with three argument lists is emitted at level 2 and gets
    the thunks of levels 1 and 0. *)
Theorem emitFunction_curry_thunks (decl : Loc) (fe : FuncExpr) (body : NodeId)
        (s : SILGenModule) :
  Lowers → feBody fe = Some body →
  Ready (functionItems decl fe s) s → PatternsOk fe →
  ∃ s' thunks,
    emitFunction decl fe s = Done tt s' ∧
    Emits (generatorItems decl (parameterPatterns fe)
           ++ mainItem decl fe :: thunks) s s' ∧
    (isAccessor decl = false → isInstanceMember decl = false →
     isPolymorphicFunctionType (loweredTypeOf s (ofLoc decl)) = false →
     thunks = curryThunkItems fe (ofLoc decl) (naturalLevel decl) ∧
     length thunks = naturalLevel decl ∧
     ∀ i, (i < naturalLevel decl)%nat →
          thunks !! i =
            Some (curryThunkItem fe (ofLoc decl) (naturalLevel decl - 1 - i))) ∧
    (isAccessor decl = true ∨ isInstanceMember decl = true ∨
     isPolymorphicFunctionType (loweredTypeOf s (ofLoc decl)) = true →
     thunks = []) ∧
    (∀ fd, decl = LocValueDecl (VD_Func fd) →
           length (feArgParamPatterns (fdBody fd)) = 3%nat →
           naturalLevel decl = 2%nat ∧
           curryThunkItems fe (ofLoc decl) 2 =
             [(atUncurryLevel (ofLoc decl) 1, feResultIsVoid fe,
               EmitCurryThunk fe (atUncurryLevel (ofLoc decl) 1) (ofLoc decl));
              (atUncurryLevel (ofLoc decl) 0, feResultIsVoid fe,
               EmitCurryThunk fe (atUncurryLevel (ofLoc decl) 0)
                              (atUncurryLevel (ofLoc decl) 1))]).
Proof.
  intros Hlowers Hbody Hready Hok.
  destruct (emitFunction_steps decl fe s Hlowers Hready Hok)
    as (s' & Hrun & Hsteps).
  apply Steps_Emits in Hsteps. unfold Spec.functionItems in Hsteps.
  rewrite Hbody in Hsteps.
  exists s', (if thunked decl s
              then curryThunkItems fe (ofLoc decl) (naturalLevel decl) else []).
  split; [done|]. split; [done|]. unfold Spec.thunked.
  split; [|split].
  - intros -> -> ->. simpl. split; [done|].
    unfold curryThunkItems. split.
    + by rewrite length_map, length_rev, length_seq.
    + intros i Hi. rewrite map_lookup, rev_seq_lookup by done. done.
  - intros [-> | [-> | ->]]; simpl; try done.
    + by destruct (isAccessor decl).
    + by destruct (isAccessor decl), (isInstanceMember decl).
  - intros fd -> Hlen.
    assert (Hlevel : uncurryLevel (ofLoc (LocValueDecl (VD_Func fd))) = 2%N).
    { change (uncurryLevel (ofLoc (LocValueDecl (VD_Func fd))))
        with (N.of_nat (length (feArgParamPatterns (fdBody fd))) - 1)%N.
      by rewrite Hlen. }
    split.
    + unfold naturalLevel. by rewrite Hlevel.
    + unfold curryThunkItems, curryThunkItem. cbn [seq rev app map].
      change (N.of_nat 2) with 2%N. rewrite <- Hlevel at 1.
      by rewrite atUncurryLevel_same.
Qed.

(** C7, as the code has it.  The generators of the defaulted parameters
    are emitted first, one for each parameter with a default initializer,
    under the flattened position of the parameter (the "self" list of a
    type member left out), whether or not the function has a body;
    without a body nothing else is emitted, with one the main body
    follows the generators. *)
Theorem emitFunction_default_arguments (decl : Loc) (fe : FuncExpr)
        (s : SILGenModule) :
  Lowers → Ready (functionItems decl fe s) s → PatternsOk fe →
  ∃ s' rest,
    emitFunction decl fe s = Done tt s' ∧
    Emits (map (generatorItem decl) (defaultArgs (parameterPatterns fe)) ++ rest)
          s s' ∧
    (feBody fe = None → rest = []) ∧
    (∀ body, feBody fe = Some body → ∃ thunks, rest = mainItem decl fe :: thunks) ∧
    (∀ d, d ∈ defaultArgs (parameterPatterns fe) ↔
          ∃ j, d.1 = N.of_nat j ∧
               parameterInits (parameterPatterns fe) !! j = Some (Some d.2)).
Proof.
  intros Hlowers Hready Hok.
  destruct (emitFunction_steps decl fe s Hlowers Hready Hok)
    as (s' & Hrun & Hsteps).
  apply Steps_Emits in Hsteps. unfold Spec.functionItems in Hsteps.
  eexists s', _. split; [done|]. split; [exact Hsteps|].
  split; [|split].
  - by intros ->.
  - intros body ->. by eexists.
  - apply defaultArgs_positions.
Qed.

(** C9. The getter's reference alone decides whether the thunks of a
    property are emitted: with the getter cached nothing happens, whatever
    the state of the setter; without it the getter thunk is emitted, and
    the setter thunk too exactly when the property is settable.  The
    setter's reference is never looked up: a setter that already has a
    body is not skipped but trips the assertion of the pre-emission
    step. *)
Theorem emitObjCPropertyMethodThunks_setter (prop : VarDecl) (s : SILGenModule) :
  Lowers → wf s →
  (cached s (getterRef prop) = true →
   emitObjCPropertyMethodThunks prop s = Done tt s) ∧
  ((vdIsSettable prop = true → bodiless s (setterRef prop)) →
   ∃ s', emitObjCPropertyMethodThunks prop s = Done tt s' ∧
         Emits (propertyThunkItems prop s) s s' ∧
         (setterItem prop ∈ propertyThunkItems prop s ↔
          cached s (getterRef prop) = false ∧ vdIsSettable prop = true)) ∧
  (cached s (getterRef prop) = false → vdIsSettable prop = true →
   hasBody s (setterRef prop) →
   emitObjCPropertyMethodThunks prop s = alreadyEmitted).
Proof.
  intros Hlowers Hwf. split; [|split].
  - apply emitObjCPropertyMethodThunks_cached.
  - intros Hsetter.
    destruct (emitObjCPropertyMethodThunks_steps prop s Hlowers Hwf Hsetter)
      as (s' & Hrun & Hsteps).
    exists s'. split; [done|]. split; [by apply Steps_Emits|].
    unfold propertyThunkItems.
    destruct (cached s (getterRef prop)), (vdIsSettable prop); split;
      try (by intros [? ?]); try (by intros ?%elem_of_nil).
    + intros _. split; done.
    + intros _. right. by left.
    + intros [[=] | ?%elem_of_nil]%elem_of_cons. done.
  - by apply emitObjCPropertyMethodThunks_setter_body.
Qed.

(** C10. Once [getFunction r] has run, [hasFunction r] is true and
    every later [getFunction r] returns the same function, whatever other
    references are requested or lowered in between; a reference that was
    not cached becomes cached with a function that has no body. *)
Theorem getFunction_memoizes (r : SILDeclRef) (s : SILGenModule) :
  ∃ f s1,
    getFunction r s = Done f s1 ∧
    hasFunction r s1 = Done true s1 ∧
    getFunction r s1 = Done f s1 ∧
    (∀ rs, ∃ s2, requestAll getConstantType mangle rs s1 = Done tt s2 ∧
                 hasFunction r s2 = Done true s2 ∧
                 getFunction r s2 = Done f s2) ∧
    (∀ items s2, Steps items s1 s2 →
                 hasFunction r s2 = Done true s2 ∧
                 getFunction r s2 = Done f s2) ∧
    (emittedFunctions s !! key r = None →
     ∃ fn, functions (M s1) !! f = Some fn ∧ fnBlocks fn = [] ∧
           isExternalDeclaration fn = true).
Proof.
  assert (Hin : ∃ f s1, getFunction r s = Done f s1 ∧
                        emittedFunctions s1 !! key r = Some f ∧
                        (emittedFunctions s !! key r = None →
                         ∃ fn, functions (M s1) !! f = Some fn ∧
                               fnBlocks fn = [] ∧
                               isExternalDeclaration fn = true)).
  { destruct (emittedFunctions s !! key r) as [g|] eqn:E.
    - exists g, s. rewrite (getFunction_found _ _ _ _ _ E). done.
    - eexists _, _. rewrite (getFunction_fresh _ _ _ _ E).
      split; [reflexivity|]. simpl. split; [by rewrite lookup_insert_eq|].
      intros _. eexists. split; [by apply list_lookup_middle|done]. }
  destruct Hin as (f & s1 & Hget & Hcached & Hfresh).
  exists f, s1. split; [done|].
  assert (Hlater : ∀ s2, emittedFunctions s2 !! key r = Some f →
                         hasFunction r s2 = Done true s2 ∧
                         getFunction r s2 = Done f s2).
  { intros s2 H2. split.
    - rewrite hasFunction_eq, H2. by rewrite bool_decide_eq_true_2.
    - by apply getFunction_found. }
  split; [by apply Hlater|]. split; [by apply Hlater|].
  split; [|split; [|done]].
  - intros rs.
    destruct (requestAll_keeps getConstantType mangle rs s1)
      as (s2 & Hrun & Hkeep).
    exists s2. split; [done|]. apply Hlater. by apply Hkeep.
  - intros items s2 Hsteps. apply Hlater. by eapply Steps_keeps_cache.
Qed.

(** C4. The pre-emission step rejects a reference that already has a
    body, so each emission routine fails its assertion when run a second
    time for the same declaration, also after other declarations have
    been lowered in between; only the two ObjC thunk routines tolerate a
    second request, which they skip. *)
Theorem emission_twice_rejected :
  Lowers →
  (∀ c node s, hasBody s c → preEmitFunction c node s = alreadyEmitted) ∧
  (∀ c node hvr req s s' items s'' node' hvr' req',
     wf s →
     (f <- preEmitFunction c node ;;
      runSILGenFunction c f hvr req ;;
      postEmitFunction c f) s = Done tt s' →
     Steps items s' s'' →
     (f <- preEmitFunction c node' ;;
      runSILGenFunction c f hvr' req' ;;
      postEmitFunction c f) s'' = alreadyEmitted) ∧
  (∀ ce s s', wf s →
     emitClosure getConstantType mangle verify emitBody ce s = Done tt s' →
     emitClosure getConstantType mangle verify emitBody ce s' = alreadyEmitted) ∧
  (∀ ce s s', wf s →
     emitPipeClosure getConstantType mangle verify emitBody ce s = Done tt s' →
     emitPipeClosure getConstantType mangle verify emitBody ce s'
       = alreadyEmitted) ∧
  (∀ cd dd s s', wf s →
     emitDestructor getConstantType mangle verify emitBody cd dd s = Done tt s' →
     emitDestructor getConstantType mangle verify emitBody cd dd s'
       = alreadyEmitted) ∧
  (∀ c arg s s', wf s →
     emitDefaultArgGenerator getConstantType mangle verify emitBody c arg s
       = Done tt s' →
     emitDefaultArgGenerator getConstantType mangle verify emitBody c arg s'
       = alreadyEmitted) ∧
  (∀ entry next fe s s', wf s →
     emitCurryThunk getConstantType mangle verify emitBody entry next fe s
       = Done tt s' →
     emitCurryThunk getConstantType mangle verify emitBody entry next fe s'
       = alreadyEmitted) ∧
  (∀ decl s,
     Ready (constructorItems decl) s →
     (N.of_nat (length (parameterInits [cdArguments decl])) < UINT_MODULUS)%N →
     ∃ s', emitConstructor decl s = Done tt s' ∧
           emitConstructor decl s' = alreadyEmitted) ∧
  (∀ decl fe body s,
     feBody fe = Some body → Ready (functionItems decl fe s) s → PatternsOk fe →
     ∃ s', emitFunction decl fe s = Done tt s' ∧
           emitFunction decl fe s' = alreadyEmitted) ∧
  (∀ method s,
     (cached s (methodThunkRef method) = true →
      emitObjCMethodThunk method s = Done tt s) ∧
     (∀ s', wf s → emitObjCMethodThunk method s = Done tt s' →
            emitObjCMethodThunk method s' = Done tt s')) ∧
  (∀ prop s,
     (cached s (getterRef prop) = true →
      emitObjCPropertyMethodThunks prop s = Done tt s) ∧
     (∀ s', wf s → emitObjCPropertyMethodThunks prop s = Done tt s' →
            emitObjCPropertyMethodThunks prop s' = Done tt s')).
Proof.
  intros Hlowers.
  assert (Hagain : ∀ c node hvr req s s',
    wf s →
    (f <- preEmitFunction c node ;;
     runSILGenFunction c f hvr req ;;
     postEmitFunction c f) s = Done tt s' →
    (f <- preEmitFunction c node ;;
     runSILGenFunction c f hvr req ;;
     postEmitFunction c f) s' = alreadyEmitted).
  { intros c node hvr req s s' Hwf Hrun.
    eapply (lowering_again c node hvr req s s' [] s'); try done. constructor. }
  repeat split.
  - intros c node s. apply preEmitFunction_rejects.
  - intros c node hvr req s s' items s'' node' hvr' req' Hwf Hrun Hsteps.
    by eapply lowering_again.
  - intros ce s s'. apply Hagain.
  - intros ce s s'. apply Hagain.
  - intros cd dd s s'. apply Hagain.
  - intros c arg s s'. apply Hagain.
  - intros entry next fe s s'. apply Hagain.
  - intros decl s Hready Hbound.
    destruct (emitConstructor_steps decl s Hlowers Hready Hbound)
      as (s' & Hrun & Hsteps).
    exists s'. split; [done|]. by eapply emitConstructor_again.
  - intros decl fe body s Hbody Hready Hok.
    destruct (emitFunction_steps decl fe s Hlowers Hready Hok)
      as (s' & Hrun & Hsteps).
    exists s'. split; [done|]. by eapply emitFunction_again.
  - apply emitObjCMethodThunk_cached.
  - intros s' Hwf Hrun. apply emitObjCMethodThunk_cached.
    by eapply emitObjCMethodThunk_caches.
  - apply emitObjCPropertyMethodThunks_cached.
  - intros s' Hwf Hrun. apply emitObjCPropertyMethodThunks_cached.
    by eapply emitObjCPropertyMethodThunks_caches.
Qed.

(** *** Top-level bindings *)

Abbreviation visitPatternBindingDecl := (visitPatternBindingDecl emitBody).
Abbreviation visitAll :=
  (visitAll getConstantType isPolymorphicFunctionType mangle verify emitBody).
Abbreviation TopLevelFrame := (TopLevelFrame emitBody).

Lemma visitPatternBindingDecl_invalid pd s sgf :
  TopLevelSGF s = Some sgf → hasValidInsertionPoint (B sgf) = false →
  visitPatternBindingDecl pd s = Done tt s.
Proof.
  intros Htop Hinv. unfold Driver.visitPatternBindingDecl, bind, get.
  by rewrite Htop, Hinv.
Qed.

Lemma visitPatternBindingDecl_valid pd s sgf :
  TopLevelSGF s = Some sgf → hasValidInsertionPoint (B sgf) = true →
  visitPatternBindingDecl pd s =
    (sgf' <- emitBody (VisitPatternBinding pd) sgf ;;
     modify (setTopLevelSGF (Some sgf')))
      (setTrace (trace s ++ [TopLevel (VisitPatternBinding pd)]) s).
Proof.
  intros Htop Hval. unfold Driver.visitPatternBindingDecl, bind, get.
  by rewrite Htop, Hval.
Qed.

Lemma visitAll_invalid pds s sgf :
  TopLevelSGF s = Some sgf → hasValidInsertionPoint (B sgf) = false →
  visitAll (map D_PatternBinding pds) s = Done tt s.
Proof.
  intros Htop Hinv. induction pds as [|pd pds IH]; simpl; [done|].
  unfold bind. by rewrite (visitPatternBindingDecl_invalid _ _ _ Htop Hinv).
Qed.

(** C8. A top-level pattern binding is emitted into the top-level
    function exactly when that function's insertion point is valid at the
    visit; once it is invalid, this and every later binding is skipped,
    the session staying as it is: no abort and no diagnostic. *)
Theorem visitPatternBindingDecl_while_valid
        (pd : PatternBindingDecl) (s : SILGenModule) (sgf : SILGenFunction) :
  TopLevelSGF s = Some sgf →
  (TopLevelFrame →
   (hasValidInsertionPoint (B sgf) = true ↔
    ∃ s', visitPatternBindingDecl pd s = Done tt s' ∧
          trace s' = trace s ++ [TopLevel (VisitPatternBinding pd)])) ∧
  (hasValidInsertionPoint (B sgf) = true →
   visitPatternBindingDecl pd s =
     (sgf' <- emitBody (VisitPatternBinding pd) sgf ;;
      modify (setTopLevelSGF (Some sgf')))
       (setTrace (trace s ++ [TopLevel (VisitPatternBinding pd)]) s)) ∧
  (hasValidInsertionPoint (B sgf) = false →
   visitPatternBindingDecl pd s = Done tt s ∧
   ∀ pds, visitAll (map D_PatternBinding pds) s = Done tt s).
Proof.
  intros Htop. split; [|split].
  - intros Hframe. split.
    + intros Hval. rewrite (visitPatternBindingDecl_valid _ _ _ Htop Hval).
      destruct (Hframe pd sgf
                  (setTrace (trace s ++ [TopLevel (VisitPatternBinding pd)]) s))
        as (sgf' & s1 & Hrun & Htrace).
      unfold bind. rewrite Hrun. eexists. split; [reflexivity|].
      simpl. by rewrite Htrace.
    + intros (s' & Hrun & Htrace).
      destruct (hasValidInsertionPoint (B sgf)) eqn:Hval; [done|].
      rewrite (visitPatternBindingDecl_invalid _ _ _ Htop Hval) in Hrun.
      injection Hrun as <-. apply (f_equal length) in Htrace.
      rewrite length_app in Htrace. simpl in Htrace. lia.
  - by apply visitPatternBindingDecl_valid.
  - intros Hinv. split.
    + by eapply visitPatternBindingDecl_invalid.
    + intros pds. by eapply visitAll_invalid.
Qed.


End Emission.

(** ** Further properties of the driver *)

(** *** The life of a [SILGenFunction] and of the session *)

Section Lifecycle.

Variable verify : SILFunction → bool.
Variable topLevelLoweredType : SILType.

Abbreviation SILGenModule_new := (SILGenModule_new topLevelLoweredType).
Abbreviation SILGenModule_destroy := (SILGenModule_destroy verify).
Abbreviation topLevelFunction := (topLevelFunction topLevelLoweredType).

Lemma SILGenFunction_new_eq f hvr s fn :
  functions (M s) !! f = Some fn →
  SILGenFunction_new f hvr s =
    Done (mkSILGenFunction f (mkSILBuilder (Some (length (fnBlocks fn)))) [] hvr None)
         (setFunctions
            (<[f := setBlocks (fnBlocks fn ++ [[]]) fn]> (functions (M s))) s).
Proof.
  intros Hf. unfold SILGenFunction_new, bind, get.
  rewrite updateFunction_eq, (functionAt_lookup _ _ _ Hf). unfold ret.
  by rewrite (alter_lookup_insert _ _ _ _ Hf).
Qed.

Lemma insert_snoc {A} (l : list A) x y : <[length l := y]> (l ++ [x]) = l ++ [y].
Proof. induction l as [|z l IH]; simpl; [done|]. by rewrite IH. Qed.

Lemma setFunctions_twice fs fs' s :
  setFunctions fs' (setFunctions fs s) = setFunctions fs' s.
Proof. by destruct s as [[? ?] ? ? ? ? ? ? ? ?]. Qed.

(** The destructor on a context whose entry block is the last block of
    its function and is still empty. *)
Lemma SILGenFunction_destroy_fresh f hvr s1 fn1 bs :
  functions (M s1) !! f = Some fn1 → fnBlocks fn1 = bs ++ [[]] →
  SILGenFunction_destroy
    (mkSILGenFunction f (mkSILBuilder (Some (length bs))) [] hvr None) s1 =
    Done tt
      (setFunctions
         (<[f := setBlocks
                   (bs ++ [fallThroughBlock hvr (length bs) (fnLocation fn1)])
                   fn1]> (functions (M s1))) s1).
Proof.
  intros Hf1 Hblocks.
  assert (Hbb : fnBlocks fn1 !! length bs = Some []).
  { rewrite Hblocks. by apply list_lookup_middle. }
  assert (Hshape : ∀ blk,
    withBlock f fn1 (length bs) blk s1 =
    setFunctions (<[f := setBlocks (bs ++ [blk]) fn1]> (functions (M s1))) s1).
  { intros blk. unfold withBlock. by rewrite Hblocks, insert_snoc. }
  destruct hvr.
  - rewrite (SILGenFunction_destroy_void _ _ fn1 (length bs) []); try done.
    by rewrite Hshape.
  - rewrite (SILGenFunction_destroy_nonvoid _ _ fn1 (length bs) []); try done.
    by rewrite Hshape.
Qed.

(** X1. A [SILGenFunction] that is constructed and destroyed with
    nothing emitted in between never fails and adds exactly one block to
    its function: the empty tuple and its return when [hasVoidReturn] is
    set, a single [unreachable] at the location of the function's body
    otherwise.  The blocks the function had are kept. *)
Theorem SILGenFunction_nothing_emitted
        (f : nat) (hvr : bool) (s : SILGenModule) (fn : SILFunction) :
  functions (M s) !! f = Some fn →
  ∃ sgf s1,
    SILGenFunction_new f hvr s = Done sgf s1 ∧
    F sgf = f ∧ hasVoidReturn sgf = hvr ∧ Cleanups sgf = [] ∧
    epilogBB sgf = None ∧
    insertionBB (B sgf) = Some (length (fnBlocks fn)) ∧
    functionAt s1 f = setBlocks (fnBlocks fn ++ [[]]) fn ∧
    SILGenFunction_destroy sgf s1 =
      Done tt
        (setFunctions
           (<[f := setBlocks
                     (fnBlocks fn ++
                      [fallThroughBlock hvr (length (fnBlocks fn)) (fnLocation fn)])
                     fn]> (functions (M s))) s).
Proof.
  intros Hf. eexists _, _. split; [by apply SILGenFunction_new_eq|].
  assert (Hlt : f < length (functions (M s))) by (by eapply lookup_lt_Some).
  set (fn1 := setBlocks (fnBlocks fn ++ [[]]) fn).
  set (s1 := setFunctions (<[f := fn1]> (functions (M s))) s).
  assert (Hf1 : functions (M s1) !! f = Some fn1).
  { subst s1. simpl. by apply list_lookup_insert_eq. }
  repeat (split; [done|]). split; [by apply functionAt_lookup|].
  pose proof (SILGenFunction_destroy_fresh f hvr s1 fn1 (fnBlocks fn) Hf1 eq_refl)
    as Hd.
  eapply eq_trans; [exact Hd|]. subst s1 fn1. simpl.
  by rewrite setFunctions_twice, list_insert_insert_eq.
Qed.

(** The destructor, case by case. *)
Lemma SILGenFunction_destroy_cases sgf s :
  SILGenFunction_destroy sgf s =
    match insertionBB (B sgf) with
    | None => Done tt s
    | Some bb =>
        if hasVoidReturn sgf then
          if bool_decide (is_Some (epilogBB sgf))
          then AssertionFailure "epilog bb not terminated?!"
          else Done tt
                 (appendInsts (F sgf) bb
                    ([TupleInst None []] ++ map CleanupInst (Cleanups sgf) ++
                     [ReturnInst None
                        (mkSILValue bb (blockLength s (F sgf) bb))]) s)
        else Done tt
               (appendInsts (F sgf) bb
                  [UnreachableInst
                     (getFuncBodySILLocation
                        (fnLocation (functionAt s (F sgf))))] s)
    end.
Proof.
  destruct sgf as [f [[bb|]] st hvr epi]; unfold SILGenFunction_destroy;
    cbn [B hasValidInsertionPoint insertionBB negb hasVoidReturn epilogBB F
         Cleanups]; [|done].
  destruct hvr.
  - unfold bind at 1. unfold assert.
    destruct (bool_decide (is_Some epi)); cbn [negb]; [done|].
    unfold bind at 1.
    rewrite (emitEmptyTuple_appends None
               (mkSILGenFunction f (mkSILBuilder (Some bb)) st true epi)
               bb s eq_refl).
    unfold bind. cbn [fst snd].
    by rewrite (emitReturnAndCleanups_appends None _
                  (mkSILGenFunction f (mkSILBuilder (Some bb)) st true epi)
                  bb _ s eq_refl).
  - unfold bind, get.
    by rewrite (createUnreachable_appends _
                  (mkSILGenFunction f (mkSILBuilder (Some bb)) st false epi)
                  bb s eq_refl).
Qed.

(** X2. The destructor does nothing once the insertion point is gone; it
    fails, with the message of its assertion, exactly when a function
    with [hasVoidReturn] falls through while an epilog block is pending;
    it never exits the session. *)
Theorem SILGenFunction_destroy_outcome (sgf : SILGenFunction) (s : SILGenModule) :
  (hasValidInsertionPoint (B sgf) = false →
   SILGenFunction_destroy sgf s = Done tt s) ∧
  (hasValidInsertionPoint (B sgf) = true → hasVoidReturn sgf = true →
   is_Some (epilogBB sgf) →
   SILGenFunction_destroy sgf s = AssertionFailure "epilog bb not terminated?!") ∧
  (∀ msg, SILGenFunction_destroy sgf s = AssertionFailure msg →
          msg = "epilog bb not terminated?!" ∧
          hasValidInsertionPoint (B sgf) = true ∧ hasVoidReturn sgf = true ∧
          is_Some (epilogBB sgf)) ∧
  (∀ s', SILGenFunction_destroy sgf s ≠ Exit1 s').
Proof.
  rewrite SILGenFunction_destroy_cases. unfold hasValidInsertionPoint.
  destruct (insertionBB (B sgf)) as [bb|].
  2:{ split; [done|]. split; [done|].
      split; [by intros ? [=] | by intros ? [=]]. }
  destruct (hasVoidReturn sgf).
  - destruct (epilogBB sgf) as [e|].
    + rewrite bool_decide_eq_true_2 by (by eexists).
      split; [done|]. split; [done|]. split; [|by intros ? [=]].
      intros msg [= <-]. repeat split; by eexists.
    + rewrite bool_decide_eq_false_2 by (by intros [? ?]).
      split; [done|]. split; [by intros _ _ [? ?]|].
      split; [by intros ? [=] | by intros ? [=]].
  - split; [done|]. split; [done|].
    split; [by intros ? [=] | by intros ? [=]].
Qed.

Lemma SILGenModule_new_eq m :
  SILGenModule_new m =
    Done tt
      (setTopLevelSGF
         (Some (mkSILGenFunction (length (functions m)) (mkSILBuilder (Some 0))
                                 [] true None))
         (setFunctions (functions m ++ [topLevelFunction [[]]]) (emptySession m))).
Proof.
  unfold Driver.SILGenModule_new, emitTopLevelFunction, newSILFunction.
  unfold bind at 1. cbn [emptySession M functions].
  unfold bind at 1. rewrite updateFunction_eq.
  cbn [setFunctions setM M functions globals]. rewrite alter_snoc.
  unfold bind at 1.
  rewrite (SILGenFunction_new_eq _ _ _ (setDebugScope None
             (mkSILFunction Internal "top_level_code" topLevelLoweredType
                            [] None None)))
    by (cbn [setFunctions setM M functions]; by apply list_lookup_middle).
  unfold modify. cbn [setFunctions setM M functions globals fnBlocks
                      setDebugScope app length].
  by rewrite insert_snoc.
Qed.

(** X3. The constructor of the session never fails.  It appends one
    function to the module, [top_level_code], internal, with one empty
    block and a debug scope; the context for top-level code is
    positioned in that block, returns void and has no cleanups.  The
    function is not entered in the cache: no reference has a function
    yet, and no bridging function is resolved. *)
Theorem SILGenModule_new_session (m : SILModule) :
  ∃ s,
    SILGenModule_new m = Done tt s ∧
    functions (M s) = functions m ++ [topLevelFunction [[]]] ∧
    globals (M s) = globals m ∧
    TopLevelSGF s =
      Some (mkSILGenFunction (length (functions m)) (mkSILBuilder (Some 0))
                             [] true None) ∧
    emittedFunctions s = ∅ ∧ diags s = [] ∧ trace s = [] ∧
    (∀ r, hasFunction r s = Done false s) ∧
    (∀ slot, getSlot slot s = None).
Proof.
  eexists. split; [apply SILGenModule_new_eq|].
  repeat (split; [done|]). by intros [].
Qed.

Lemma SILGenModule_destroy_eq s sgf :
  TopLevelSGF s = Some sgf →
  SILGenModule_destroy s =
    match SILGenFunction_destroy sgf s with
    | Done _ s1 =>
        if verify (functionAt s1 (F sgf)) then
          if forallb verify (functions (M s1))
          then Done tt (setTopLevelSGF None s1)
          else AssertionFailure "SIL verification failed"
        else AssertionFailure "SIL verification failed"
    | AssertionFailure msg => AssertionFailure msg
    | Exit1 s1 => Exit1 s1
    end.
Proof.
  intros Htop. unfold Driver.SILGenModule_destroy. unfold bind at 1, get.
  rewrite Htop. unfold bind at 1.
  destruct (SILGenFunction_destroy sgf s) as [[] s1| |]; [|done|done].
  unfold bind, modify, get, assert.
  change (functionAt (setTopLevelSGF None s1) (F sgf))
    with (functionAt s1 (F sgf)).
  change (functions (M (setTopLevelSGF None s1))) with (functions (M s1)).
  destruct (verify (functionAt s1 (F sgf))); [|done].
  by destruct (forallb verify (functions (M s1))).
Qed.

Lemma functionAt_appendInsts_ne f bb insts s g :
  g ≠ f → functionAt (appendInsts f bb insts s) g = functionAt s g.
Proof.
  intros Hne. unfold functionAt, appendInsts. simpl.
  by apply list_lookup_total_alter_ne.
Qed.

(** The destructor of a session whose top-level code is still empty. *)
Lemma SILGenModule_destroy_fresh s fs :
  functions (M s) = fs ++ [topLevelFunction [[]]] →
  TopLevelSGF s =
    Some (mkSILGenFunction (length fs) (mkSILBuilder (Some 0)) [] true None) →
  forallb verify fs = true →
  verify (topLevelFunction [fallThroughBlock true 0 None]) = true →
  SILGenModule_destroy s =
    Done tt
      (setTopLevelSGF None
         (setFunctions
            (fs ++ [topLevelFunction [fallThroughBlock true 0 None]]) s)).
Proof.
  intros Hfs Htop Hm Hv.
  rewrite (SILGenModule_destroy_eq s _ Htop).
  assert (Hf : functions (M s) !! length fs = Some (topLevelFunction [[]])).
  { rewrite Hfs. by apply list_lookup_middle. }
  pose proof (SILGenFunction_destroy_fresh (length fs) true s
                (topLevelFunction [[]]) [] Hf eq_refl) as Hd.
  cbn [app length fnLocation topLevelFunction] in Hd. rewrite Hd.
  cbn [F].
  assert (Hnew : <[length fs := setBlocks [fallThroughBlock true 0 None]
                                   (topLevelFunction [[]])]> (functions (M s))
                 = fs ++ [topLevelFunction [fallThroughBlock true 0 None]]).
  { rewrite Hfs. by rewrite insert_snoc. }
  rewrite Hnew. unfold functionAt.
  cbn [M functions setFunctions setM].
  rewrite list_lookup_total_middle by done. rewrite Hv.
  rewrite forallb_app, Hm. cbn [forallb andb]. by rewrite Hv.
Qed.

(** X4. A session that is opened on a module and closed at once leaves
    the module with one more function, [top_level_code], whose single
    block holds the empty tuple and its return; provided the verifier
    accepts that function and the functions the module had. *)
Theorem empty_session_lifecycle (m : SILModule) :
  forallb verify (functions m) = true →
  verify (topLevelFunction [fallThroughBlock true 0 None]) = true →
  ∃ s s',
    SILGenModule_new m = Done tt s ∧
    SILGenModule_destroy s = Done tt s' ∧
    functions (M s') =
      functions m ++
      [topLevelFunction [[TupleInst None []; ReturnInst None (mkSILValue 0 0)]]] ∧
    globals (M s') = globals m ∧ TopLevelSGF s' = None ∧
    emittedFunctions s' = ∅ ∧ diags s' = [] ∧ trace s' = [].
Proof.
  intros Hm Htop. eexists _, _. split; [apply SILGenModule_new_eq|].
  split; [by apply (SILGenModule_destroy_fresh _ (functions m))|]. done.
Qed.

Lemma SILGenModule_destroy_post
        (s : SILGenModule) (sgf : SILGenFunction) (s' : SILGenModule) :
  TopLevelSGF s = Some sgf → SILGenModule_destroy s = Done tt s' →
  TopLevelSGF s' = None ∧
  verify (functionAt s' (F sgf)) = true ∧
  forallb verify (functions (M s')) = true ∧
  (∀ g, g ≠ F sgf → functionAt s' g = functionAt s g) ∧
  length (functions (M s')) = length (functions (M s)) ∧
  globals (M s') = globals (M s) ∧
  emittedFunctions s' = emittedFunctions s ∧
  diags s' = diags s ∧ trace s' = trace s ∧
  (hasValidInsertionPoint (B sgf) = false → M s' = M s).
Proof.
  intros Htop. rewrite (SILGenModule_destroy_eq s sgf Htop).
  rewrite SILGenFunction_destroy_cases. unfold hasValidInsertionPoint.
  assert (Hfinish : ∀ s1,
    (∀ g, g ≠ F sgf → functionAt s1 g = functionAt s g) →
    length (functions (M s1)) = length (functions (M s)) →
    globals (M s1) = globals (M s) →
    emittedFunctions s1 = emittedFunctions s →
    diags s1 = diags s → trace s1 = trace s →
    (insertionBB (B sgf) = None → M s1 = M s) →
    (if verify (functionAt s1 (F sgf))
     then if forallb verify (functions (M s1))
          then Done tt (setTopLevelSGF None s1)
          else AssertionFailure "SIL verification failed"
     else AssertionFailure "SIL verification failed") = Done tt s' →
    TopLevelSGF s' = None ∧
    verify (functionAt s' (F sgf)) = true ∧
    forallb verify (functions (M s')) = true ∧
    (∀ g, g ≠ F sgf → functionAt s' g = functionAt s g) ∧
    length (functions (M s')) = length (functions (M s)) ∧
    globals (M s') = globals (M s) ∧
    emittedFunctions s' = emittedFunctions s ∧
    diags s' = diags s ∧ trace s' = trace s ∧
    (match insertionBB (B sgf) with Some _ => true | None => false end = false →
     M s' = M s)).
  { intros s1 Hframe Hlen Hgl Hcache Hdiags Htrace Hsame Hrun.
    destruct (verify (functionAt s1 (F sgf))) eqn:Hv1; [|done].
    destruct (forallb verify (functions (M s1))) eqn:Hv2; [|done].
    injection Hrun as <-. repeat (split; [done|]).
    intros Hnone. apply Hsame. by destruct (insertionBB (B sgf)). }
  destruct (insertionBB (B sgf)) as [bb|] eqn:Ebb.
  - destruct (hasVoidReturn sgf).
    + destruct (bool_decide (is_Some (epilogBB sgf))); [done|].
      apply Hfinish; try done.
      * intros g Hne. by apply functionAt_appendInsts_ne.
      * unfold appendInsts. simpl. by rewrite length_alter.
    + apply Hfinish; try done.
      * intros g Hne. by apply functionAt_appendInsts_ne.
      * unfold appendInsts. simpl. by rewrite length_alter.
  - by apply Hfinish.
Qed.

(** X5. When the destructor of the session returns, the context for
    top-level code is gone and the verifier has accepted the top-level
    function and every function of the module.  Only the top-level
    function may have changed, and not even that one when its code had
    ended in a terminator; the cache, the globals and the diagnostics
    are as they were. *)
Theorem SILGenModule_destroy_verified
        (s : SILGenModule) (sgf : SILGenFunction) (s' : SILGenModule) :
  TopLevelSGF s = Some sgf → SILGenModule_destroy s = Done tt s' →
  TopLevelSGF s' = None ∧
  verify (functionAt s' (F sgf)) = true ∧
  forallb verify (functions (M s')) = true ∧
  (∀ g, g ≠ F sgf → functionAt s' g = functionAt s g) ∧
  length (functions (M s')) = length (functions (M s)) ∧
  globals (M s') = globals (M s) ∧
  emittedFunctions s' = emittedFunctions s ∧
  diags s' = diags s ∧ trace s' = trace s ∧
  (hasValidInsertionPoint (B sgf) = false → M s' = M s).
Proof. apply SILGenModule_destroy_post. Qed.

End Lifecycle.

(** *** The function cache *)

Section CacheInvariants.

Variable getConstantType : SILDeclRef → SILType.
Variable mangle : SILDeclRef → string.

Abbreviation getFunction := (getFunction getConstantType mangle).
Abbreviation preEmitFunction := (preEmitFunction getConstantType mangle).
Abbreviation declarationOf := (declarationOf getConstantType mangle).

(** X6. A request for a cached reference leaves the session as it is.  A
    request for a reference that is not cached appends exactly one
    function to the module, with the linkage, the mangled name and the
    lowered type of the reference and without body or location, and
    enters it in the cache under the reference; the functions and the
    entries that existed, the globals, the top-level context, the
    bridging slots, the diagnostics and the trace are untouched. *)
Theorem getFunction_creates (r : SILDeclRef) (s : SILGenModule) :
  (∀ f, emittedFunctions s !! key r = Some f → getFunction r s = Done f s) ∧
  (emittedFunctions s !! key r = None →
   ∃ s',
     getFunction r s = Done (length (functions (M s))) s' ∧
     functions (M s') = functions (M s) ++ [declarationOf r] ∧
     emittedFunctions s' !! key r = Some (length (functions (M s))) ∧
     (∀ k, k ≠ key r → emittedFunctions s' !! k = emittedFunctions s !! k) ∧
     (∀ g fn, functions (M s) !! g = Some fn → functions (M s') !! g = Some fn) ∧
     globals (M s') = globals (M s) ∧ TopLevelSGF s' = TopLevelSGF s ∧
     diags s' = diags s ∧ trace s' = trace s ∧
     (∀ slot, getSlot slot s' = getSlot slot s)).
Proof.
  split.
  - intros f Hf. by apply getFunction_found.
  - intros Hnone. eexists. split; [by apply getFunction_fresh|].
    cbn [M functions setFunctions setM globals emittedFunctions
         setEmittedFunctions TopLevelSGF diags trace].
    split; [done|]. split; [by rewrite lookup_insert_eq|].
    split; [intros k Hk; by rewrite lookup_insert_ne|].
    split; [intros g fn Hg; by apply lookup_app_l_Some|].
    repeat (split; [done|]). by intros [].
Qed.

Lemma getFunction_wf r s f s' : wf s → getFunction r s = Done f s' → wf s'.
Proof.
  intros [Hvalid Hinj] Hget.
  destruct (emittedFunctions s !! key r) as [g|] eqn:E.
  - rewrite (getFunction_found _ _ _ _ _ E) in Hget. by injection Hget as _ <-.
  - rewrite (getFunction_fresh _ _ _ _ E) in Hget. injection Hget as _ <-.
    split; simpl.
    + intros k g Hk. rewrite length_app. simpl.
      destruct (decide (k = key r)) as [->|Hne].
      * rewrite lookup_insert_eq in Hk. injection Hk as <-. lia.
      * rewrite lookup_insert_ne in Hk by done. apply Hvalid in Hk. lia.
    + intros k1 k2 g H1 H2.
      destruct (decide (k1 = key r)) as [->|Hne1];
        destruct (decide (k2 = key r)) as [->|Hne2]; [done | | |].
      * rewrite lookup_insert_eq in H1. injection H1 as <-.
        rewrite lookup_insert_ne in H2 by done. apply Hvalid in H2. lia.
      * rewrite lookup_insert_eq in H2. injection H2 as <-.
        rewrite lookup_insert_ne in H1 by done. apply Hvalid in H1. lia.
      * rewrite lookup_insert_ne in H1, H2 by done. by eapply Hinj.
Qed.

Lemma getFunction_caches r s f s' :
  getFunction r s = Done f s' → emittedFunctions s' !! key r = Some f.
Proof.
  intros Hget. destruct (emittedFunctions s !! key r) as [g|] eqn:E.
  - rewrite (getFunction_found _ _ _ _ _ E) in Hget. by injection Hget as <- <-.
  - rewrite (getFunction_fresh _ _ _ _ E) in Hget. injection Hget as <- <-.
    simpl. by rewrite lookup_insert_eq.
Qed.

(** X7. Requests keep the cache well formed: every pointer it holds is a
    function of the module and no function serves two references.  So
    two references that differ in any field get two different functions,
    both valid, and the first is still what a later request for its
    reference returns. *)
Theorem getFunction_distinct
        (r1 r2 : SILDeclRef) (s s1 s2 : SILGenModule) (f1 f2 : nat) :
  wf s → key r1 ≠ key r2 →
  getFunction r1 s = Done f1 s1 → getFunction r2 s1 = Done f2 s2 →
  wf s1 ∧ wf s2 ∧ f1 ≠ f2 ∧
  f1 < length (functions (M s2)) ∧ f2 < length (functions (M s2)) ∧
  getFunction r1 s2 = Done f1 s2 ∧ getFunction r2 s2 = Done f2 s2.
Proof.
  intros Hwf Hne H1 H2.
  pose proof (getFunction_wf _ _ _ _ Hwf H1) as Hwf1.
  pose proof (getFunction_wf _ _ _ _ Hwf1 H2) as Hwf2.
  pose proof (getFunction_caches _ _ _ _ H1) as Hc1.
  pose proof (getFunction_caches _ _ _ _ H2) as Hc2.
  pose proof (getFunction_keeps _ _ _ _ _ _ H2 _ _ Hc1) as Hc1'.
  split; [done|]. split; [done|]. split.
  - intros ->. apply Hne. by eapply (proj2 Hwf2).
  - split; [by eapply (proj1 Hwf2)|]. split; [by eapply (proj1 Hwf2)|].
    split; by apply getFunction_found.
Qed.

(** X8. [hasFunction] only reads the session.  It answers true exactly
    when a request for the reference would return without touching the
    session, and false exactly when the request would create a function. *)
Theorem hasFunction_agrees (r : SILDeclRef) (s : SILGenModule) :
  ∃ b,
    hasFunction r s = Done b s ∧
    (b = true ↔ ∃ f, getFunction r s = Done f s) ∧
    (b = false ↔
     ∃ s', getFunction r s = Done (length (functions (M s))) s' ∧
           length (functions (M s')) = S (length (functions (M s)))).
Proof.
  eexists. split; [apply hasFunction_eq|].
  destruct (emittedFunctions s !! key r) as [g|] eqn:E.
  - rewrite bool_decide_eq_true_2 by (by eexists).
    rewrite (getFunction_found _ _ _ _ _ E). split.
    + split; [by eexists | done].
    + split; [done|]. intros (s' & [= _ <-] & Hlen). lia.
  - rewrite bool_decide_eq_false_2 by (by intros [? ?]).
    rewrite (getFunction_fresh _ _ _ _ E). split.
    + split; [done|]. intros (f & [= _ Hs]).
      apply (f_equal (λ s, length (functions (M s)))) in Hs.
      simpl in Hs. rewrite length_app in Hs. simpl in Hs. lia.
    + split; [|done]. intros _. eexists. split; [done|].
      simpl. rewrite length_app. simpl. lia.
Qed.

Lemma preEmitFunction_run c node s f s0 :
  getFunction c s = Done f s0 → empty (functionAt s0 f) = true →
  preEmitFunction c node s =
    Done f (setFunctions
              (alter (setLocation node) f
                 (alter (setDebugScope node) f (functions (M s0)))) s0).
Proof.
  intros Hget Hempty. unfold Driver.preEmitFunction, bind, get.
  rewrite Hget. unfold assert. rewrite Hempty.
  rewrite !updateFunction_eq. unfold ret. by rewrite setFunctions_twice.
Qed.

Lemma functionAt_stamped node f s0 g :
  f < length (functions (M s0)) →
  functionAt (setFunctions
                (alter (setLocation node) f
                   (alter (setDebugScope node) f (functions (M s0)))) s0) g =
  if decide (f = g)
  then setLocation node (setDebugScope node (functionAt s0 f))
  else functionAt s0 g.
Proof.
  intros Hlt. unfold functionAt. simpl.
  rewrite !list_lookup_total_alter, length_alter.
  destruct (decide (f = g)) as [<-|Hne].
  - by rewrite !decide_True.
  - rewrite !decide_False; [done| |]; intros [? ?]; done.
Qed.

Lemma preEmitFunction_attrs
        (c : SILDeclRef) (node : SILLocation) (s : SILGenModule) :
  wf s → bodiless s c →
  ∃ f s1,
    preEmitFunction c node s = Done f s1 ∧
    emittedFunctions s1 !! key c = Some f ∧
    fnLocation (functionAt s1 f) = node ∧
    fnDebugScope (functionAt s1 f) = Some node ∧
    fnBlocks (functionAt s1 f) = [] ∧
    (∀ f0, emittedFunctions s !! key c = Some f0 →
           f = f0 ∧
           length (functions (M s1)) = length (functions (M s)) ∧
           fnLinkage (functionAt s1 f) = fnLinkage (functionAt s f) ∧
           fnName (functionAt s1 f) = fnName (functionAt s f) ∧
           fnLoweredType (functionAt s1 f) = fnLoweredType (functionAt s f)) ∧
    (emittedFunctions s !! key c = None →
     f = length (functions (M s)) ∧
     length (functions (M s1)) = S (length (functions (M s))) ∧
     fnLinkage (functionAt s1 f) = getConstantLinkage c ∧
     fnName (functionAt s1 f) = mangle c ∧
     fnLoweredType (functionAt s1 f) = getConstantType c) ∧
    (∀ g fn, g ≠ f → functions (M s) !! g = Some fn →
             functions (M s1) !! g = Some fn) ∧
    globals (M s1) = globals (M s) ∧ TopLevelSGF s1 = TopLevelSGF s ∧
    diags s1 = diags s ∧ trace s1 = trace s.
Proof.
  intros [Hvalid Hinj] Hb.
  destruct (emittedFunctions s !! key c) as [f|] eqn:E.
  - pose proof (Hvalid _ _ E) as Hlt.
    exists f. eexists.
    split; [apply (preEmitFunction_run c node s f s);
            [by apply getFunction_found | by apply Hb]|].
    rewrite functionAt_stamped, decide_True by done.
    cbn [fnLocation fnDebugScope fnBlocks fnLinkage fnName fnLoweredType
         setLocation setDebugScope].
    split; [done|]. split; [done|]. split; [done|].
    split; [apply empty_blocks; by apply Hb|].
    split; [|split; [done|]].
    + intros f0 [= <-]. split; [done|]. simpl. by rewrite !length_alter.
    + split.
      * intros g fn Hne Hg. simpl. by rewrite !list_lookup_alter_ne.
      * done.
  - exists (length (functions (M s))). eexists.
    split; [apply (preEmitFunction_run c node s);
            [by apply getFunction_fresh|]|].
    { unfold functionAt. simpl. by rewrite list_lookup_total_middle. }
    rewrite functionAt_stamped, decide_True;
      [|done|simpl; rewrite length_app; simpl; lia].
    assert (Hnew : functionAt
              (setEmittedFunctions
                 (<[key c := length (functions (M s))]> (emittedFunctions s))
                 (setFunctions
                    (functions (M s) ++ [declarationOf c]) s))
              (length (functions (M s))) = declarationOf c).
    { unfold functionAt. simpl. by rewrite list_lookup_total_middle. }
    unfold declarationOf in Hnew. rewrite Hnew.
    cbn [fnLocation fnDebugScope fnBlocks fnLinkage fnName fnLoweredType
         setLocation setDebugScope].
    split; [simpl; by rewrite lookup_insert_eq|].
    split; [done|]. split; [done|]. split; [done|].
    split; [done|]. split.
    + intros _. split; [done|]. split; [|done].
      simpl. rewrite !length_alter, length_app. simpl. lia.
    + split; [|done].
      intros g fn Hne Hg. simpl. rewrite !list_lookup_alter_ne by done.
      by apply lookup_app_l_Some.
Qed.


(** X9. On a reference without a body the pre-emission step never fails:
    it returns the function of the reference, creating it when the
    reference was not cached, and stamps it with the AST node as its
    location and as its debug scope.  The function still has no blocks;
    its linkage, name and type are those it was created with; no other
    function, and nothing else of the session, changes. *)
Theorem preEmitFunction_stamps
        (c : SILDeclRef) (node : SILLocation) (s : SILGenModule) :
  wf s → bodiless s c →
  ∃ f s1,
    preEmitFunction c node s = Done f s1 ∧
    emittedFunctions s1 !! key c = Some f ∧
    fnLocation (functionAt s1 f) = node ∧
    fnDebugScope (functionAt s1 f) = Some node ∧
    fnBlocks (functionAt s1 f) = [] ∧
    (∀ f0, emittedFunctions s !! key c = Some f0 →
           f = f0 ∧
           length (functions (M s1)) = length (functions (M s)) ∧
           fnLinkage (functionAt s1 f) = fnLinkage (functionAt s f) ∧
           fnName (functionAt s1 f) = fnName (functionAt s f) ∧
           fnLoweredType (functionAt s1 f) = fnLoweredType (functionAt s f)) ∧
    (emittedFunctions s !! key c = None →
     f = length (functions (M s)) ∧
     length (functions (M s1)) = S (length (functions (M s))) ∧
     fnLinkage (functionAt s1 f) = getConstantLinkage c ∧
     fnName (functionAt s1 f) = mangle c ∧
     fnLoweredType (functionAt s1 f) = getConstantType c) ∧
    (∀ g fn, g ≠ f → functions (M s) !! g = Some fn →
             functions (M s1) !! g = Some fn) ∧
    globals (M s1) = globals (M s) ∧ TopLevelSGF s1 = TopLevelSGF s ∧
    diags s1 = diags s ∧ trace s1 = trace s.
Proof. apply preEmitFunction_attrs. Qed.

End CacheInvariants.

(** *** Closures, destructors and method thunks *)

Section SingleFunctions.

Variable getConstantType : SILDeclRef → SILType.
Variable isPolymorphicFunctionType : SILType → bool.
Variable mangle : SILDeclRef → string.
Variable verify : SILFunction → bool.
Variable emitBody : BodyRequest → SILGenFunction → Gen SILGenFunction.

Abbreviation getFunction := (getFunction getConstantType mangle).
Abbreviation preEmitFunction := (preEmitFunction getConstantType mangle).
Abbreviation postEmitFunction := (postEmitFunction verify).
Abbreviation runSILGenFunction := (runSILGenFunction emitBody).
Abbreviation Lowers := (Lowers verify emitBody).
Abbreviation Step := (Step getConstantType).
Abbreviation Steps := (Steps getConstantType).
Abbreviation functionItems :=
  (functionItems getConstantType isPolymorphicFunctionType).
Abbreviation emitFunction :=
  (emitFunction getConstantType isPolymorphicFunctionType mangle verify emitBody).
Abbreviation emitConstructor :=
  (emitConstructor getConstantType mangle verify emitBody).
Abbreviation emitClosure := (emitClosure getConstantType mangle verify emitBody).
Abbreviation emitPipeClosure :=
  (emitPipeClosure getConstantType mangle verify emitBody).
Abbreviation emitDestructor :=
  (emitDestructor getConstantType mangle verify emitBody).
Abbreviation emitObjCMethodThunk :=
  (emitObjCMethodThunk getConstantType mangle verify emitBody).
Abbreviation Lowered := (Lowered getConstantType mangle).
Abbreviation fallenThrough := (fallenThrough getConstantType mangle).

Lemma lowering_attrs c node hvr req s :
  Lowers → wf s → bodiless s c →
  ∃ f s',
    (f <- preEmitFunction c node ;;
     runSILGenFunction c f hvr req ;;
     postEmitFunction c f) s = Done tt s' ∧
    Step c f (Emitted c f hvr req) s s' ∧
    Lowered c node f s s'.
Proof.
  intros Hlowers Hwf Hb.
  destruct (preEmitFunction_attrs getConstantType mangle c node s Hwf Hb)
    as (f & s1 & Hpre & Hcache & Hloc & Hscope & Hblocks & Hwas & Hnew & _).
  destruct (preEmitFunction_ok getConstantType mangle c node s Hwf Hb)
    as (f' & s1' & Hpre' & Hpr).
  rewrite Hpre in Hpre'. injection Hpre' as <- <-.
  destruct (lower_ok getConstantType verify emitBody
              c f hvr req s s1 Hlowers Hwf Hpr)
    as (s2 & Hrun & Hpost & Hst).
  exists f, s2. split; [unfold bind; by rewrite Hpre, Hrun, Hpost|].
  split; [done|].
  destruct (lookup_lt_is_Some_2 _ _ (pr_valid Hpr)) as [fn Hfn].
  pose proof (functionAt_lookup _ _ _ Hfn) as Hat. rewrite Hat in *.
  destruct (Hlowers c f hvr req s1 fn Hfn Hblocks) as (bs & Hbs & Hver & Hrun').
  rewrite Hrun in Hrun'. injection Hrun' as ->.
  assert (Hnew2 : functionAt
                    (setTrace (trace s1 ++ [Emitted c f hvr req])
                       (setFunctions (<[f:=setBlocks bs fn]> (functions (M s1))) s1))
                    f = setBlocks bs fn).
  { unfold functionAt. simpl.
    apply list_lookup_total_insert_eq. by eapply lookup_lt_Some. }
  split; rewrite ?Hnew2.
  - exact Hcache.
  - unfold empty. simpl. by destruct bs.
  - exact Hloc.
  - exact Hscope.
  - intros f0 Hf0. by destruct (Hwas f0 Hf0).
  - intros Hnone. destruct (Hnew Hnone) as (Hf & _ & Hl & Hn & Ht). done.
Qed.

(** A closure has no declaration, so its function is internal. *)
Lemma closure_linkage e k level objc index :
  getConstantLinkage (mkSILDeclRef (LocCapturingExpr e) k level objc index)
    = Internal.
Proof. reflexivity. Qed.

(** X10. Each of the two closure routines lowers exactly one function,
    under the reference of the closure and located at the closure.  A
    [ClosureExpr] is always lowered with [hasVoidReturn] unset, a
    [PipeClosureExpr] with [hasVoidReturn] set exactly when its result
    type is void.  A function created for a closure has internal
    linkage. *)
Theorem emitClosure_lowers :
  Lowers →
  (∀ ce s, wf s → bodiless s (closureRef ce) →
     ∃ f s',
       emitClosure ce s = Done tt s' ∧
       Emits [(closureRef ce, false, EmitClosure ce)] s s' ∧
       emittedFunctions s' !! key (closureRef ce) = Some f ∧
       empty (functionAt s' f) = false ∧
       fnLocation (functionAt s' f) = Some (NodeClosureExpr ce) ∧
       (emittedFunctions s !! key (closureRef ce) = None →
        fnLinkage (functionAt s' f) = Internal)) ∧
  (∀ ce s, wf s → bodiless s (pipeClosureRef ce) →
     ∃ f s',
       emitPipeClosure ce s = Done tt s' ∧
       Emits [(pipeClosureRef ce, pceResultIsVoid ce, EmitPipeClosure ce)] s s' ∧
       emittedFunctions s' !! key (pipeClosureRef ce) = Some f ∧
       empty (functionAt s' f) = false ∧
       fnLocation (functionAt s' f) = Some (NodePipeClosureExpr ce) ∧
       (emittedFunctions s !! key (pipeClosureRef ce) = None →
        fnLinkage (functionAt s' f) = Internal)).
Proof.
  intros Hlowers. split.
  - intros ce s Hwf Hb.
    destruct (lowering_attrs (closureRef ce) (Some (NodeClosureExpr ce)) false
                (EmitClosure ce) s Hlowers Hwf Hb)
      as (f & s' & Hrun & Hst & Hlo).
    exists f, s'. split; [exact Hrun|].
    split; [apply (Steps_Emits getConstantType); eapply Steps_one; exact Hst|].
    split; [apply Hlo|]. split; [apply Hlo|]. split; [apply Hlo|].
    intros Hnone. by destruct (lo_new Hlo Hnone) as (_ & -> & _).
  - intros ce s Hwf Hb.
    destruct (lowering_attrs (pipeClosureRef ce) (Some (NodePipeClosureExpr ce))
                (pceResultIsVoid ce) (EmitPipeClosure ce) s Hlowers Hwf Hb)
      as (f & s' & Hrun & Hst & Hlo).
    exists f, s'. split; [exact Hrun|].
    split; [apply (Steps_Emits getConstantType); eapply Steps_one; exact Hst|].
    split; [apply Hlo|]. split; [apply Hlo|]. split; [apply Hlo|].
    intros Hnone. by destruct (lo_new Hlo Hnone) as (_ & -> & _).
Qed.

(** X11. The destructor routine lowers exactly one function, the
    destroyer of the class, always with [hasVoidReturn] set.  Its
    location is the destructor declaration, and empty for a class that
    declares none.  A destroyer created by the routine is internal when
    the class is nested in a local context and external otherwise; it
    never has the linkage of a Clang thunk. *)
Theorem emitDestructor_lowers
        (cd : ClassDecl) (dd : option DestructorDecl) (s : SILGenModule) :
  Lowers → wf s → bodiless s (destroyerRef cd) →
  ∃ f s',
    emitDestructor cd dd s = Done tt s' ∧
    Emits [(destroyerRef cd, true, EmitDestructor cd dd)] s s' ∧
    emittedFunctions s' !! key (destroyerRef cd) = Some f ∧
    empty (functionAt s' f) = false ∧
    fnLocation (functionAt s' f) = (NodeDestructorDecl <$> dd) ∧
    (dd = None → fnLocation (functionAt s' f) = None) ∧
    (emittedFunctions s !! key (destroyerRef cd) = None →
     fnLinkage (functionAt s' f) =
       match walkToModule (cldContext cd) with
       | None => Internal
       | Some _ => External
       end).
Proof.
  intros Hlowers Hwf Hb.
  destruct (lowering_attrs (destroyerRef cd) (NodeDestructorDecl <$> dd) true
              (EmitDestructor cd dd) s Hlowers Hwf Hb)
    as (f & s' & Hrun & Hst & Hlo).
  exists f, s'. split; [exact Hrun|].
  split; [apply (Steps_Emits getConstantType); eapply Steps_one; exact Hst|].
  split; [apply Hlo|]. split; [apply Hlo|]. split; [apply Hlo|].
  split.
  - intros ->. apply Hlo.
  - intros Hnone. destruct (lo_new Hlo Hnone) as (_ & -> & _).
    unfold getConstantLinkage, destroyerRef. simpl.
    destruct (walkToModule (cldContext cd)) as [dc|]; [|done].
    by rewrite andb_false_r.
Qed.

(** The linkage of a reference is that of its location alone. *)
Lemma getConstantLinkage_loc c1 c2 :
  loc c1 = loc c2 → getConstantLinkage c1 = getConstantLinkage c2.
Proof. intros H. unfold getConstantLinkage, getDecl. by rewrite H. Qed.

(** X12. The functions derived from a declaration get its linkage.  A
    curry thunk that is created for a lower uncurry level of a function
    has the linkage of the function itself and is located at the
    function expression; the generator of a
    default argument has the linkage of the declaration that owns the
    parameter and is located at the default expression. *)
Theorem derived_functions_linkage :
  Lowers →
  (∀ constant level next fe s,
     wf s → emittedFunctions s !! key (atUncurryLevel constant level) = None →
     ∃ f s',
       emitCurryThunk getConstantType mangle verify emitBody
         (atUncurryLevel constant level) next fe s = Done tt s' ∧
       emittedFunctions s' !! key (atUncurryLevel constant level) = Some f ∧
       fnLinkage (functionAt s' f) = getConstantLinkage constant ∧
       fnLocation (functionAt s' f) = Some (NodeFuncExpr fe)) ∧
  (∀ decl index arg s,
     wf s → emittedFunctions s !! key (getDefaultArgGenerator decl index) = None →
     ∃ f s',
       emitDefaultArgGenerator getConstantType mangle verify emitBody
         (getDefaultArgGenerator decl index) arg s = Done tt s' ∧
       emittedFunctions s' !! key (getDefaultArgGenerator decl index) = Some f ∧
       fnLinkage (functionAt s' f) = getConstantLinkage (ofLoc decl) ∧
       fnLocation (functionAt s' f) = Some (NodeExpr arg)).
Proof.
  intros Hlowers. split.
  - intros constant level next fe s Hwf Hnone.
    destruct (lowering_attrs (atUncurryLevel constant level)
                (Some (NodeFuncExpr fe)) (feResultIsVoid fe)
                (EmitCurryThunk fe (atUncurryLevel constant level) next)
                s Hlowers Hwf)
      as (f & s' & Hrun & Hst & Hlo).
    { intros g Hg. congruence. }
    exists f, s'. split; [exact Hrun|]. split; [apply Hlo|].
    split; [|apply Hlo].
    destruct (lo_new Hlo Hnone) as (_ & -> & _).
    by apply getConstantLinkage_loc.
  - intros decl index arg s Hwf Hnone.
    destruct (lowering_attrs (getDefaultArgGenerator decl index)
                (Some (NodeExpr arg)) (exprTypeIsVoid arg)
                (EmitGeneratorFunction (getDefaultArgGenerator decl index) arg)
                s Hlowers Hwf)
      as (f & s' & Hrun & Hst & Hlo).
    { intros g Hg. congruence. }
    exists f, s'. split; [exact Hrun|]. split; [apply Hlo|].
    split; [|apply Hlo].
    destruct (lo_new Hlo Hnone) as (_ & -> & _).
    apply getConstantLinkage_loc. by destruct decl as [[]|[]].
Qed.

(** A body is never touched by the lowering of other references. *)
Lemma Steps_frame items s s' g :
  Steps items s s' →
  empty (functionAt s g) = false →
  (∀ it, it ∈ items → emittedFunctions s !! key (itemRef it) ≠ Some g) →
  functionAt s' g = functionAt s g.
Proof.
  induction 1 as [|c hvr req f s s1 s2 items Hst Hrest IH]; [done|].
  intros Hbody Hkeys.
  assert (Hne : g ≠ f).
  { intros ->. destruct (st_was Hst) as [Hsome | [_ ->]].
    - apply (Hkeys (c, hvr, req)); [by left | done].
    - rewrite functionAt_dangling in Hbody by done. done. }
  rewrite IH.
  - by apply (st_frame Hst).
  - by rewrite (st_frame Hst).
  - intros it Hit. rewrite (st_cache Hst).
    destruct (decide (key (itemRef it) = key c)) as [->|Hk].
    + rewrite lookup_insert_eq. congruence.
    + rewrite lookup_insert_ne by done. apply Hkeys. by right.
Qed.

Lemma Ready_frame items s s' g :
  Steps items s s' → Ready items s →
  empty (functionAt s g) = false → functionAt s' g = functionAt s g.
Proof.
  intros Hsteps [_ Hb] Hbody. eapply Steps_frame; [done.. |].
  intros it Hit Hg. apply (Hb it Hit) in Hg. congruence.
Qed.

(** X13. The thunk of a method is emitted when its reference is not
    cached: one function, never with [hasVoidReturn], located at the
    body of the method.  Afterwards the reference is cached, every entry
    the cache had is kept, and the functions that had a body, the native
    entry point of the method among them, are as they were. *)
Theorem emitObjCMethodThunk_lowers (method : FuncDecl) (s : SILGenModule) :
  Lowers → wf s → cached s (methodThunkRef method) = false →
  ∃ f s',
    emitObjCMethodThunk method s = Done tt s' ∧
    Emits [(methodThunkRef method, false,
            EmitObjCMethodThunk (methodThunkRef method))] s s' ∧
    emittedFunctions s' !! key (methodThunkRef method) = Some f ∧
    hasFunction (methodThunkRef method) s' = Done true s' ∧
    f = length (functions (M s)) ∧
    fnLocation (functionAt s' f) = Some (NodeFuncExpr (fdBody method)) ∧
    (∀ k g, emittedFunctions s !! k = Some g →
            emittedFunctions s' !! k = Some g) ∧
    (∀ g, empty (functionAt s g) = false → functionAt s' g = functionAt s g).
Proof.
  intros Hlowers Hwf Hc.
  pose proof (not_cached_bodiless _ _ Hc) as Hb.
  destruct (lowering_attrs (methodThunkRef method)
              (Some (NodeFuncExpr (fdBody method))) false
              (EmitObjCMethodThunk (methodThunkRef method)) s Hlowers Hwf Hb)
    as (f & s' & Hrun & Hst & Hlo).
  assert (Hnone : emittedFunctions s !! key (methodThunkRef method) = None).
  { unfold cached in Hc. apply bool_decide_eq_false in Hc.
    destruct (emittedFunctions s !! key (methodThunkRef method)) eqn:E; [|done].
    destruct Hc. by eexists. }
  exists f, s'. split.
  { unfold Driver.emitObjCMethodThunk. fold (methodThunkRef method).
    unfold bind at 1. rewrite hasFunction_eq.
    fold (cached s (methodThunkRef method)). rewrite Hc. exact Hrun. }
  split; [apply (Steps_Emits getConstantType); eapply Steps_one; exact Hst|].
  split; [apply Hlo|]. split.
  { rewrite hasFunction_eq, (lo_cached Hlo).
    by rewrite bool_decide_eq_true_2. }
  split; [by destruct (lo_new Hlo Hnone)|].
  split; [apply Hlo|]. split.
  - intros k g Hk. by eapply Step_keeps_cache.
  - intros g Hbody. eapply Steps_frame; [eapply Steps_one; exact Hst | done |].
    intros it [->|Hit%elem_of_nil]%elem_of_cons; [|done].
    unfold itemRef. simpl. by rewrite Hnone.
Qed.

(** X14. Emitting a function or a constructor changes no function that
    already had a body, and so neither [top_level_code] nor anything
    emitted before; it keeps every entry of the cache and the cache well
    formed, and leaves the top-level context and the diagnostics as they
    were. *)
Theorem emission_frame :
  Lowers →
  (∀ decl fe s,
     Ready (functionItems decl fe s) s → PatternsOk fe →
     ∃ s', emitFunction decl fe s = Done tt s' ∧ wf s' ∧
           (∀ g, empty (functionAt s g) = false →
                 functionAt s' g = functionAt s g) ∧
           (∀ k g, emittedFunctions s !! k = Some g →
                   emittedFunctions s' !! k = Some g) ∧
           TopLevelSGF s' = TopLevelSGF s ∧ diags s' = diags s) ∧
  (∀ decl s,
     Ready (constructorItems decl) s →
     (N.of_nat (length (parameterInits [cdArguments decl])) < UINT_MODULUS)%N →
     ∃ s', emitConstructor decl s = Done tt s' ∧ wf s' ∧
           (∀ g, empty (functionAt s g) = false →
                 functionAt s' g = functionAt s g) ∧
           (∀ k g, emittedFunctions s !! k = Some g →
                   emittedFunctions s' !! k = Some g) ∧
           TopLevelSGF s' = TopLevelSGF s ∧ diags s' = diags s).
Proof.
  intros Hlowers.
  assert (Hall : ∀ items s s',
    Steps items s s' → Ready items s →
    wf s' ∧
    (∀ g, empty (functionAt s g) = false → functionAt s' g = functionAt s g) ∧
    (∀ k g, emittedFunctions s !! k = Some g →
            emittedFunctions s' !! k = Some g) ∧
    TopLevelSGF s' = TopLevelSGF s ∧ diags s' = diags s).
  { intros items s s' Hsteps Hready.
    split; [eapply Steps_wf; [done | apply Hready]|].
    split; [intros g; by eapply Ready_frame|].
    split; [intros k g; by eapply Steps_keeps_cache|].
    split; [by eapply Steps_TopLevelSGF | by eapply Steps_diags]. }
  split.
  - intros decl fe s Hready Hok.
    destruct (emitFunction_steps getConstantType isPolymorphicFunctionType
                mangle verify emitBody decl fe s Hlowers Hready Hok)
      as (s' & Hrun & Hsteps).
    exists s'. split; [done|]. by eapply Hall.
  - intros decl s Hready Hbound.
    destruct (emitConstructor_steps getConstantType mangle verify emitBody
                decl s Hlowers Hready Hbound)
      as (s' & Hrun & Hsteps).
    exists s'. split; [done|]. by eapply Hall.
Qed.

Lemma runSILGenFunction_nothing c f hvr req s fn :
  (∀ sgf s, emitBody req sgf s = Done sgf s) →
  functions (M s) !! f = Some fn →
  runSILGenFunction c f hvr req s =
    Done tt
      (setFunctions
         (<[f := setBlocks
                   (fnBlocks fn ++
                    [fallThroughBlock hvr (length (fnBlocks fn)) (fnLocation fn)])
                   fn]> (functions (M s)))
         (setTrace (trace s ++ [Emitted c f hvr req]) s)).
Proof.
  intros Hemit Hf. unfold Driver.runSILGenFunction.
  unfold bind at 1. rewrite (SILGenFunction_new_eq _ _ _ _ Hf).
  unfold bind at 1. unfold record, modify.
  unfold bind at 1. rewrite Hemit.
  set (fn1 := setBlocks (fnBlocks fn ++ [[]]) fn).
  set (s1 := setTrace _ _).
  assert (Hlt : f < length (functions (M s))) by (by eapply lookup_lt_Some).
  assert (Hf1 : functions (M s1) !! f = Some fn1).
  { subst s1. simpl. by apply list_lookup_insert_eq. }
  eapply eq_trans;
    [exact (SILGenFunction_destroy_fresh f hvr s1 fn1 (fnBlocks fn) Hf1 eq_refl)|].
  subst s1 fn1. destruct s as [[fs gl] ? ? ? ? ? ? ? ?]. simpl.
  unfold setFunctions, setTrace, setM. simpl.
  by rewrite list_insert_insert_eq.
Qed.

Lemma lowering_nothing c node hvr req s :
  (∀ sgf s, emitBody req sgf s = Done sgf s) →
  emittedFunctions s !! key c = None →
  verify (fallenThrough c node hvr) = true →
  (f <- preEmitFunction c node ;;
   runSILGenFunction c f hvr req ;;
   postEmitFunction c f) s =
    Done tt
      (setTrace (trace s ++ [Emitted c (length (functions (M s))) hvr req])
         (setEmittedFunctions
            (<[key c := length (functions (M s))]> (emittedFunctions s))
            (setFunctions (functions (M s) ++ [fallenThrough c node hvr]) s))).
Proof.
  intros Hemit Hnone Hverify.
  unfold bind at 1.
  rewrite (preEmitFunction_run getConstantType mangle c node s _ _
             (getFunction_fresh getConstantType mangle c s Hnone))
    by (unfold functionAt; simpl; by rewrite list_lookup_total_middle).
  cbn [M functions setFunctions setM setEmittedFunctions globals].
  rewrite !alter_snoc.
  cbn [setLocation setDebugScope fnLinkage fnName fnLoweredType fnBlocks
       fnDebugScope fnLocation].
  unfold bind at 1.
  erewrite runSILGenFunction_nothing;
    [|done|cbn [M functions setFunctions setM]; by apply list_lookup_middle].
  cbn [M functions setFunctions setM setEmittedFunctions setTrace globals
       fnBlocks fnLocation app length setBlocks setLocation setDebugScope
       fnLinkage fnName fnLoweredType
       fnDebugScope emittedFunctions TopLevelSGF NSStringToStringFn
       StringToNSStringFn BoolToObjCBoolFn ObjCBoolToBoolFn diags trace].
  rewrite insert_snoc.
  unfold setLocation, setDebugScope, setBlocks.
  cbn [fnLinkage fnName fnLoweredType fnBlocks fnDebugScope fnLocation].
  fold (fallenThrough c node hvr).
  unfold Driver.postEmitFunction, bind, get, assert, isExternalDeclaration.
  unfold functionAt, setFunctions, setTrace, setEmittedFunctions, setM.
  cbn [M functions globals emittedFunctions TopLevelSGF NSStringToStringFn
       StringToNSStringFn BoolToObjCBoolFn ObjCBoolToBoolFn diags trace].
  rewrite list_lookup_total_middle by done.
  rewrite Hverify. by destruct hvr.
Qed.

(** X15. With an emitter that emits nothing, a closure expression that
    is not cached is lowered to one new function, the last of the
    module: internal, named by the mangler, located at the closure, and
    with a single block that holds only an [unreachable] at the body of
    the closure.  No return is synthesized, whatever the type of the
    closure, since the routine never sets [hasVoidReturn]. *)
Theorem emitClosure_falls_through (ce : ClosureExpr) (s : SILGenModule) :
  (∀ sgf s, emitBody (EmitClosure ce) sgf s = Done sgf s) →
  emittedFunctions s !! key (closureRef ce) = None →
  verify (fallenThrough (closureRef ce) (Some (NodeClosureExpr ce)) false)
    = true →
  ∃ s',
    emitClosure ce s = Done tt s' ∧
    functions (M s') =
      functions (M s) ++
      [mkSILFunction Internal (mangle (closureRef ce))
         (getConstantType (closureRef ce))
         [[UnreachableInst (Some (NodeExpr (ceBody ce)))]]
         (Some (Some (NodeClosureExpr ce))) (Some (NodeClosureExpr ce))] ∧
    emittedFunctions s' =
      <[key (closureRef ce) := length (functions (M s))]> (emittedFunctions s) ∧
    trace s' =
      trace s ++ [Emitted (closureRef ce) (length (functions (M s))) false
                          (EmitClosure ce)] ∧
    globals (M s') = globals (M s) ∧ TopLevelSGF s' = TopLevelSGF s ∧
    diags s' = diags s.
Proof.
  intros Hemit Hnone Hverify. eexists. split.
  - unfold Driver.emitClosure. fold (closureRef ce).
    by apply lowering_nothing.
  - done.
Qed.

Lemma defaultedFrom_nil i inits :
  defaultedFrom i inits = [] → Forall (λ o, o = None) inits.
Proof.
  revert i. induction inits as [|[e|] inits IH]; intros i H; simpl in H.
  - constructor.
  - done.
  - constructor; [done | by eapply IH].
Qed.

Lemma emitDefaultArgGeneratorsOfFields_none decl fields index s :
  Forall (λ o, o = None) (map getInit fields) →
  ∃ index',
    emitDefaultArgGeneratorsOfFields getConstantType mangle verify emitBody
      decl fields index s = Done index' s.
Proof.
  revert index. induction fields as [|elt rest IH]; intros index H; simpl.
  - by eexists.
  - inversion H as [|o os Helt Hrest]; subst. rewrite Helt.
    unfold bind at 1, ret at 1. by apply IH.
Qed.

Lemma emitDefaultArgGeneratorsFrom_none decl patterns index s :
  Forall (λ o, o = None) (parameterInits patterns) →
  emitDefaultArgGeneratorsFrom getConstantType mangle verify emitBody
    decl patterns index s = Done tt s.
Proof.
  revert index. induction patterns as [|pattern rest IH]; intros index H.
  - done.
  - unfold parameterInits in H. simpl in H. apply Forall_app in H as [H1 H2].
    simpl.
    destruct (getSemanticsProvidingPattern pattern); try by apply IH.
    destruct (emitDefaultArgGeneratorsOfFields_none decl fields index s H1)
      as [index' Hrun].
    unfold bind. rewrite Hrun. by apply IH.
Qed.

(** X16. Visiting a function declaration that has no body and no
    parameter with a default initializer does nothing at all: the
    session is returned as it was, whatever it holds and whatever the
    emitters would do.  (A member of a type must have its "self"
    parameter list.) *)
Theorem visitFuncDecl_prototype (fd : FuncDecl) (s : SILGenModule) :
  feBody (fdBody fd) = None →
  defaultArgs (parameterPatterns (fdBody fd)) = [] →
  (isTypeMember (fdBody fd) = true → feArgParamPatterns (fdBody fd) ≠ []) →
  visitFuncDecl getConstantType isPolymorphicFunctionType mangle verify emitBody
    fd s = Done tt s ∧
  emitFunction (LocValueDecl (VD_Func fd)) (fdBody fd) s = Done tt s.
Proof.
  intros Hbody Hdefaults Hself.
  assert (Hrun : emitFunction (LocValueDecl (VD_Func fd)) (fdBody fd) s
                 = Done tt s); [|by split].
  unfold Driver.emitFunction. rewrite Hbody.
  unfold parameterPatterns, isTypeMember in *.
  apply defaultedFrom_nil in Hdefaults.
  assert (Hpatterns : ∃ patterns,
    match feDecl (fdBody fd) with
    | Some d => if isTypeContext (hdrContext d)
                then slice1 (feArgParamPatterns (fdBody fd))
                else ret (feArgParamPatterns (fdBody fd))
    | None => ret (feArgParamPatterns (fdBody fd))
    end s = Done patterns s ∧
    Forall (λ o, o = None) (parameterInits patterns)).
  { destruct (feDecl (fdBody fd)) as [d|]; [|by eexists].
    destruct (isTypeContext (hdrContext d)); [|by eexists].
    destruct (feArgParamPatterns (fdBody fd)) as [|self rest];
      [by destruct Hself|].
    by exists rest. }
  destruct Hpatterns as (patterns & Hslice & Hnone).
  unfold bind at 1. rewrite Hslice.
  unfold bind, emitDefaultArgGenerators.
  by rewrite emitDefaultArgGeneratorsFrom_none.
Qed.

End SingleFunctions.

(** *** Global variables *)

Section Globals.

(** X17. Visiting a variable declaration never fails.  A stored variable
    is added to the globals of the module, a property is not; no global
    is ever removed, and the functions, the cache, the top-level context,
    the diagnostics and the trace are untouched.  Visiting the same
    declaration again changes nothing. *)
Theorem visitVarDecl_globals (vd : VarDecl) (s : SILGenModule) :
  ∃ s',
    visitVarDecl vd s = Done tt s' ∧
    (∀ x, x ∈ globals (M s') ↔
          x ∈ globals (M s) ∨ (vdIsProperty vd = false ∧ x = vdId vd)) ∧
    (vdIsProperty vd = true → s' = s) ∧
    functions (M s') = functions (M s) ∧
    emittedFunctions s' = emittedFunctions s ∧
    TopLevelSGF s' = TopLevelSGF s ∧
    diags s' = diags s ∧ trace s' = trace s ∧
    visitVarDecl vd s' = Done tt s'.
Proof.
  unfold visitVarDecl, addGlobalVariable, modify, ret.
  destruct (vdIsProperty vd); cbn [negb].
  - exists s. split; [done|]. split; [|done]. intros x. split; [by left|].
    by intros [? | [? ?]].
  - eexists. split; [reflexivity|]. cbn [M globals functions setM].
    split; [|split; [done|]].
    + intros x. rewrite elem_of_union, elem_of_singleton. split.
      * intros [-> | ?]; [by right | by left].
      * intros [? | [_ ->]]; [by right | by left].
    + repeat (split; [done|]).
      destruct s as [[fs gl] ? ? ? ? ? ? ? ?]. unfold setM. simpl.
      do 3 f_equal. by rewrite (assoc_L (∪)), (idemp_L (∪)).
Qed.

End Globals.

(** *** Bridging functions *)

Section BridgingEffects.

Variable getConstantType : SILDeclRef → SILType.
Variable getFunctionTypeInfo : SILType → list SILType * SILType.
Variable forModuleAndName : string → string → option (list LookupResult).

Abbreviation resolveBridgingFn :=
  (resolveBridgingFn getConstantType getFunctionTypeInfo forModuleAndName).
Abbreviation getBridgingFn :=
  (getBridgingFn getConstantType getFunctionTypeInfo forModuleAndName).
Abbreviation diagnosticLoc := (diagnosticLoc forModuleAndName).

Lemma getSlot_setSlot slot v s : getSlot slot (setSlot slot v s) = v.
Proof. by destruct slot. Qed.

Lemma getSlot_setSlot_ne slot slot' v s :
  slot' ≠ slot → getSlot slot' (setSlot slot v s) = getSlot slot' s.
Proof. by destruct slot, slot'. Qed.

Lemma resolveBridgingFn_cases moduleName functionName inputTypes outputType s :
  (∃ c, resolveBridgingFn moduleName functionName inputTypes outputType s
          = Done c s) ∨
  (∃ id, resolveBridgingFn moduleName functionName inputTypes outputType s
           = Exit1 (setDiags
                      (diags s ++
                       [mkDiagnostic (diagnosticLoc moduleName functionName) id
                                     moduleName functionName]) s)).
Proof.
  unfold Driver.resolveBridgingFn, diagnosticLoc.
  destruct (forModuleAndName moduleName functionName)
    as [[|result [|second rest]]|]; try (right; by eexists).
  - destruct result as [d|]; [|right; by eexists].
    destruct d as [fd| | | | |]; try (right; by eexists).
    destruct (negb _ || negb _); [right; by eexists|].
    destruct (negb _); [right; by eexists|].
    left. by eexists.
  - right. eexists. by destruct result.
Qed.

Lemma getBridgingFn_outcome (cacheSlot : CacheSlot)
        (moduleName functionName : string)
        (inputTypes : list SILType) (outputType : SILType) (s : SILGenModule) :
  match getBridgingFn cacheSlot moduleName functionName inputTypes outputType s
  with
  | Done c s' =>
      (s' = s ∨ s' = setSlot cacheSlot (Some c) s) ∧
      getSlot cacheSlot s' = Some c ∧
      (∀ slot, slot ≠ cacheSlot → getSlot slot s' = getSlot slot s) ∧
      M s' = M s ∧ emittedFunctions s' = emittedFunctions s ∧
      TopLevelSGF s' = TopLevelSGF s ∧ diags s' = diags s ∧ trace s' = trace s
  | Exit1 s' =>
      getSlot cacheSlot s = None ∧
      ∃ id, s' = setDiags
                   (diags s ++
                    [mkDiagnostic (diagnosticLoc moduleName functionName) id
                                  moduleName functionName]) s
  | AssertionFailure _ => False
  end.
Proof.
  unfold Driver.getBridgingFn, bind, get.
  destruct (getSlot cacheSlot s) as [c|] eqn:Eslot.
  - unfold ret. split; [by left|]. done.
  - destruct (resolveBridgingFn_cases moduleName functionName inputTypes
                outputType s) as [[c ->] | [id ->]].
    + unfold modify, ret. split; [by right|].
      split; [apply getSlot_setSlot|].
      split; [intros slot Hne; by apply getSlot_setSlot_ne|].
      by destruct cacheSlot.
    + split; [done|]. by exists id.
Qed.

(** X18. What a resolution does to the session.  When it returns, at
    most its own slot has changed, now holding the function returned;
    the SIL module, the function cache, the other slots, the diagnostics
    and the trace are as before.  When it exits, the slot was empty and
    the session is the one before the call with a single diagnostic
    appended, which names the module and the function and is located at
    the declaration found when lookup found exactly one and it is a
    declaration, and nowhere otherwise.  It never fails an assertion. *)
Theorem getBridgingFn_effects (cacheSlot : CacheSlot)
        (moduleName functionName : string)
        (inputTypes : list SILType) (outputType : SILType) (s : SILGenModule) :
  match getBridgingFn cacheSlot moduleName functionName inputTypes outputType s
  with
  | Done c s' =>
      (s' = s ∨ s' = setSlot cacheSlot (Some c) s) ∧
      getSlot cacheSlot s' = Some c ∧
      (∀ slot, slot ≠ cacheSlot → getSlot slot s' = getSlot slot s) ∧
      M s' = M s ∧ emittedFunctions s' = emittedFunctions s ∧
      TopLevelSGF s' = TopLevelSGF s ∧ diags s' = diags s ∧ trace s' = trace s
  | Exit1 s' =>
      getSlot cacheSlot s = None ∧
      ∃ id, s' = setDiags
                   (diags s ++
                    [mkDiagnostic (diagnosticLoc moduleName functionName) id
                                  moduleName functionName]) s
  | AssertionFailure _ => False
  end.
Proof. apply getBridgingFn_outcome. Qed.

(** X19. A bridging function is resolved once.  After a resolution has
    returned, its slot holds the result, and every later request through
    that slot returns the same reference and leaves the session as it
    is, without looking anything up: whatever names and signature it is
    called with, and whatever lookup and type lowering would now
    answer. *)
Theorem getBridgingFn_memoizes (cacheSlot : CacheSlot)
        (moduleName functionName : string)
        (inputTypes : list SILType) (outputType : SILType)
        (s s' : SILGenModule) (c : SILDeclRef) :
  getBridgingFn cacheSlot moduleName functionName inputTypes outputType s
    = Done c s' →
  getSlot cacheSlot s' = Some c ∧
  ∀ constantType' typeInfo' lookup' moduleName' functionName' inputTypes'
    outputType',
    Driver.getBridgingFn constantType' typeInfo' lookup' cacheSlot
      moduleName' functionName' inputTypes' outputType' s' = Done c s'.
Proof.
  intros Hrun.
  assert (Hslot : getSlot cacheSlot s' = Some c).
  { revert Hrun. unfold Driver.getBridgingFn, bind, get.
    destruct (getSlot cacheSlot s) as [c0|] eqn:Eslot.
    - by intros [= <- <-].
    - destruct (resolveBridgingFn_cases moduleName functionName inputTypes
                  outputType s) as [[c0 ->] | [id ->]]; [|done].
      unfold modify, ret. intros [= <- <-]. apply getSlot_setSlot. }
  split; [done|]. intros. unfold Driver.getBridgingFn, bind, get.
  by rewrite Hslot.
Qed.

Lemma getBridgingFn_Accessor slot moduleName functionName inputTypes outputType :
  Accessor (getBridgingFn slot moduleName functionName inputTypes outputType)
           slot moduleName functionName.
Proof.
  intros s.
  pose proof (getBridgingFn_outcome slot moduleName functionName inputTypes
                outputType s) as H.
  destruct (getBridgingFn slot moduleName functionName inputTypes outputType s)
    as [c s'| |s'] eqn:Erun; [|done|].
  - destruct H as (_ & Hslot & Hother & HM & _ & _ & Hdiags & _).
    repeat (split; [done|]).
    unfold Driver.getBridgingFn, bind, get. by rewrite Hslot.
  - destruct H as (_ & id & ->). split; [by intros []|]. split; [done|].
    by eexists.
Qed.

Section Accessors.

Variables NSStringTy ByrefStringTy BoolTy ObjCBoolTy EmptyTupleTy : SILType.

(** X20. Each of the four accessors of the bridging functions has a slot
    of its own.  When it returns, its slot holds the result, the three
    other slots, the SIL module and the diagnostics are as before, and
    the accessor called again returns the same reference without
    changing the session.  When it exits, the slots and the SIL module
    are as before and one diagnostic has been added, which names the
    module and the function of this accessor: [Foundation] and
    [ObjectiveC] with the four conversion functions. *)
Theorem bridging_accessors :
  Accessor (getNSStringToStringFn getConstantType getFunctionTypeInfo
              forModuleAndName NSStringTy ByrefStringTy EmptyTupleTy)
           SlotNSStringToString "Foundation" "convertNSStringToString" ∧
  Accessor (getStringToNSStringFn getConstantType getFunctionTypeInfo
              forModuleAndName NSStringTy ByrefStringTy)
           SlotStringToNSString "Foundation" "convertStringToNSString" ∧
  Accessor (getBoolToObjCBoolFn getConstantType getFunctionTypeInfo
              forModuleAndName BoolTy ObjCBoolTy)
           SlotBoolToObjCBool "ObjectiveC" "convertBoolToObjCBool" ∧
  Accessor (getObjCBoolToBoolFn getConstantType getFunctionTypeInfo
              forModuleAndName BoolTy ObjCBoolTy)
           SlotObjCBoolToBool "ObjectiveC" "convertObjCBoolToBool".
Proof. repeat split; apply getBridgingFn_Accessor. Qed.

End Accessors.

End BridgingEffects.

(** *** The entry point *)

Section EntryPoint.

Variable getConstantType : SILDeclRef → SILType.
Variable isPolymorphicFunctionType : SILType → bool.
Variable mangle : SILDeclRef → string.
Variable verify : SILFunction → bool.
Variable emitBody : BodyRequest → SILGenFunction → Gen SILGenFunction.
Variable topLevelLoweredType : SILType.
Variable emitExternalDefinition : Decl → Gen unit.

Abbreviation visitAll :=
  (visitAll getConstantType isPolymorphicFunctionType mangle verify emitBody).
Abbreviation constructSIL :=
  (constructSIL getConstantType isPolymorphicFunctionType mangle verify
                emitBody topLevelLoweredType emitExternalDefinition).
Abbreviation performSILGeneration :=
  (performSILGeneration getConstantType isPolymorphicFunctionType mangle verify
                        emitBody topLevelLoweredType emitExternalDefinition).
Abbreviation topLevelFunction := (Effects.topLevelFunction topLevelLoweredType).

Lemma setM_same s : setM (mkSILModule (functions (M s)) (globals (M s))) s = s.
Proof. by destruct s as [[? ?] ? ? ? ? ? ? ? ?]. Qed.

Lemma visitAll_variables vds s :
  visitAll (map D_Var vds) s =
    Done tt (setM (mkSILModule (functions (M s))
                               (storedGlobals vds ∪ globals (M s))) s).
Proof.
  revert s. induction vds as [|vd vds IH]; intros s.
  - simpl. unfold ret, storedGlobals. simpl.
    by rewrite (left_id_L ∅ (∪)), setM_same.
  - cbn [map Driver.visitAll visit]. unfold bind, visitVarDecl.
    unfold storedGlobals.
    destruct (vdIsProperty vd) eqn:Eprop; cbn [negb].
    + unfold ret. rewrite IH. by rewrite filter_cons_False by congruence.
    + unfold addGlobalVariable, modify. rewrite IH.
      rewrite filter_cons_True by done.
      rewrite fmap_cons, list_to_set_cons.
      destruct s as [[fs gl] ? ? ? ? ? ? ? ?]. unfold setM. simpl.
      do 3 f_equal. fold (storedGlobals vds).
      by rewrite (assoc_L (∪)), (comm_L (∪) (storedGlobals vds)).
Qed.

(** X21. A translation unit whose declarations, from the start element
    on, are variable declarations, and which has no external
    definitions, always yields a module: its only function is
    [top_level_code], holding the empty tuple and its return, and its
    globals are the stored variables among those declarations.  The
    declarations before the start element are not looked at; no emitter
    runs and nothing is diagnosed. *)
Theorem constructSIL_variables
        (tu : TranslationUnit) (startElem : nat) (vds : list VarDecl) :
  (startElem ≤ length (Decls tu))%nat →
  drop startElem (Decls tu) = map D_Var vds →
  ExternalDefinitions tu = [] →
  verify (topLevelFunction [fallThroughBlock true 0 None]) = true →
  ∃ s,
    performSILGeneration tu startElem = constructSIL tu startElem ∧
    constructSIL tu startElem =
      Done (mkSILModule
              [topLevelFunction
                 [[TupleInst None []; ReturnInst None (mkSILValue 0 0)]]]
              (storedGlobals vds)) s ∧
    TopLevelSGF s = None ∧ emittedFunctions s = ∅ ∧
    diags s = [] ∧ trace s = [].
Proof.
  intros Hle Hdrop Hext Hverify. eexists. split; [reflexivity|].
  unfold Driver.constructSIL. rewrite SILGenModule_new_eq.
  unfold bind at 1. unfold slice.
  rewrite (proj2 (Nat.leb_le _ _) Hle). unfold ret at 1.
  rewrite Hdrop. unfold bind at 1. rewrite visitAll_variables.
  rewrite Hext. cbn [emitExternalDefinitions]. unfold bind at 1, ret at 1.
  unfold bind at 1.
  erewrite (SILGenModule_destroy_fresh verify topLevelLoweredType _ []);
    [|reflexivity|reflexivity|reflexivity|exact Hverify].
  unfold bind, get, ret. cbn [M functions globals setTopLevelSGF setFunctions
    setM emptySession app TopLevelSGF emittedFunctions diags trace].
  rewrite (right_id_L ∅ (∪)). split; [reflexivity | done].
Qed.

(** **** Every run that returns has verified its module *)

Lemma bind_Done {A B} (c : Gen A) (k : A → Gen B) s b s' :
  bind c k s = Done b s' → ∃ a s1, c s = Done a s1 ∧ k a s1 = Done b s'.
Proof.
  unfold bind. destruct (c s) as [a s1| |]; [|done|done]. intros H.
  by exists a, s1.
Qed.

Lemma Done_state {A} (a a' : A) s s' : Done a s = Done a' s' → s = s'.
Proof. by intros [= _ ->]. Qed.

Lemma keeps_ret {A} (a : A) : KeepsTopLevel (ret a).
Proof. by intros s a' s' <-%Done_state. Qed.

Lemma keeps_bind {A B} (c : Gen A) (k : A → Gen B) :
  KeepsTopLevel c → (∀ a, KeepsTopLevel (k a)) → KeepsTopLevel (bind c k).
Proof.
  intros Hc Hk s b s' (a & s1 & H1 & H2)%bind_Done Htop.
  eapply Hk; [exact H2|]. by eapply Hc.
Qed.

Lemma keeps_get : KeepsTopLevel get.
Proof. by intros s a s' <-%Done_state. Qed.

Lemma keeps_assert b msg : KeepsTopLevel (assert b msg).
Proof.
  intros s a s'. unfold assert. destruct b; [|done]. by intros <-%Done_state.
Qed.

Lemma keeps_abort {A} msg : KeepsTopLevel (λ _, AssertionFailure msg : Outcome A).
Proof. by intros s a s'. Qed.

Lemma keeps_modify f :
  (∀ s, TopLevelSGF (f s) = TopLevelSGF s) → KeepsTopLevel (modify f).
Proof. intros Hf s a s' <-%Done_state. by rewrite Hf. Qed.

Lemma keeps_updateFunction f g : KeepsTopLevel (updateFunction f g).
Proof. by apply keeps_modify. Qed.

Lemma keeps_record e : KeepsTopLevel (record e).
Proof. by apply keeps_modify. Qed.

Lemma keeps_newSILFunction linkage name ty :
  KeepsTopLevel (newSILFunction linkage name ty).
Proof. by intros s a s' <-%Done_state. Qed.

Lemma keeps_SILGenFunction_new f hvr : KeepsTopLevel (SILGenFunction_new f hvr).
Proof.
  apply keeps_bind; [apply keeps_get|]. intros s0.
  apply keeps_bind; [apply keeps_updateFunction|]. intros _. apply keeps_ret.
Qed.

Lemma keeps_SILGenFunction_destroy sgf :
  KeepsTopLevel (SILGenFunction_destroy sgf).
Proof.
  intros s a s'. rewrite SILGenFunction_destroy_cases.
  destruct (insertionBB (B sgf)) as [bb|]; [|by intros <-%Done_state].
  destruct (hasVoidReturn sgf); [|by intros <-%Done_state].
  destruct (bool_decide (is_Some (epilogBB sgf))); [done|].
  by intros <-%Done_state.
Qed.

Lemma keeps_getFunction c : KeepsTopLevel (getFunction getConstantType mangle c).
Proof.
  apply keeps_bind; [apply keeps_get|]. intros s0.
  destruct (emittedFunctions s0 !! key c); [apply keeps_ret|].
  apply keeps_bind; [apply keeps_newSILFunction|]. intros f.
  apply keeps_bind; [apply keeps_updateFunction|]. intros _.
  apply keeps_bind; [by apply keeps_modify|]. intros _. apply keeps_ret.
Qed.

Lemma keeps_preEmitFunction c node :
  KeepsTopLevel (preEmitFunction getConstantType mangle c node).
Proof.
  apply keeps_bind; [apply keeps_getFunction|]. intros f.
  apply keeps_bind; [apply keeps_get|]. intros s0.
  apply keeps_bind; [apply keeps_assert|]. intros _.
  apply keeps_bind; [apply keeps_updateFunction|]. intros _.
  apply keeps_bind; [apply keeps_updateFunction|]. intros _. apply keeps_ret.
Qed.

Lemma keeps_postEmitFunction c f : KeepsTopLevel (postEmitFunction verify c f).
Proof.
  apply keeps_bind; [apply keeps_get|]. intros s0.
  apply keeps_bind; [apply keeps_assert|]. intros _. apply keeps_assert.
Qed.

Lemma keeps_visitVarDecl vd : KeepsTopLevel (visitVarDecl vd).
Proof.
  unfold visitVarDecl. destruct (negb (vdIsProperty vd)); [|apply keeps_ret].
  by apply keeps_modify.
Qed.

Section Keeping.

Hypothesis emitBody_keeps : ∀ req sgf, KeepsTopLevel (emitBody req sgf).
Hypothesis emitExternalDefinition_keeps :
  ∀ def, KeepsTopLevel (emitExternalDefinition def).

Lemma keeps_runSILGenFunction c f hvr req :
  KeepsTopLevel (runSILGenFunction emitBody c f hvr req).
Proof.
  apply keeps_bind; [apply keeps_SILGenFunction_new|]. intros sgf.
  apply keeps_bind; [apply keeps_record|]. intros _.
  apply keeps_bind; [apply emitBody_keeps|]. intros sgf'.
  apply keeps_SILGenFunction_destroy.
Qed.

Lemma keeps_lowering c node hvr req :
  KeepsTopLevel
    (f <- preEmitFunction getConstantType mangle c node ;;
     runSILGenFunction emitBody c f hvr req ;;
     postEmitFunction verify c f).
Proof.
  apply keeps_bind; [apply keeps_preEmitFunction|]. intros f.
  apply keeps_bind; [apply keeps_runSILGenFunction|]. intros _.
  apply keeps_postEmitFunction.
Qed.

Lemma keeps_emitDefaultArgGeneratorsOfFields decl fields index :
  KeepsTopLevel
    (emitDefaultArgGeneratorsOfFields getConstantType mangle verify emitBody
       decl fields index).
Proof.
  revert index. induction fields as [|elt rest IH]; intros index; simpl.
  - apply keeps_ret.
  - apply keeps_bind; [|intros _; apply IH].
    destruct (getInit elt); [apply keeps_lowering | apply keeps_ret].
Qed.

Lemma keeps_emitDefaultArgGeneratorsFrom decl patterns index :
  KeepsTopLevel
    (emitDefaultArgGeneratorsFrom getConstantType mangle verify emitBody
       decl patterns index).
Proof.
  revert index. induction patterns as [|pattern rest IH]; intros index; simpl.
  - apply keeps_ret.
  - destruct (getSemanticsProvidingPattern pattern); try apply IH.
    apply keeps_bind; [apply keeps_emitDefaultArgGeneratorsOfFields|].
    intros index'. apply IH.
Qed.

Lemma keeps_emitCurryThunks level constant fe :
  KeepsTopLevel
    (emitCurryThunks getConstantType mangle verify emitBody level constant fe).
Proof.
  revert constant. induction level as [|level IH]; intros constant; simpl.
  - apply keeps_ret.
  - apply keeps_bind; [apply keeps_lowering|]. intros _. apply IH.
Qed.

Lemma keeps_emitFunction decl fe :
  KeepsTopLevel
    (emitFunction getConstantType isPolymorphicFunctionType mangle verify
       emitBody decl fe).
Proof.
  apply keeps_bind.
  { destruct (feDecl fe) as [d|]; [|apply keeps_ret].
    destruct (isTypeContext (hdrContext d)); [|apply keeps_ret].
    unfold slice1. destruct (feArgParamPatterns fe);
      [apply keeps_abort | apply keeps_ret]. }
  intros patterns.
  apply keeps_bind; [apply keeps_emitDefaultArgGeneratorsFrom|]. intros _.
  destruct (feBody fe); [|apply keeps_ret].
  apply keeps_bind; [apply keeps_preEmitFunction|]. intros f.
  apply keeps_bind; [apply keeps_runSILGenFunction|]. intros _.
  apply keeps_bind; [apply keeps_postEmitFunction|]. intros _.
  destruct (match decl with LocValueDecl (VD_Func fd) => Some fd | _ => None end)
    as [fd|]; cbv zeta.
  - destruct (fdIsGetterOrSetter fd); [apply keeps_ret|].
    destruct (fdIsInstanceMember fd); [apply keeps_ret|].
    apply keeps_bind; [apply keeps_get|]. intros s0.
    destruct (isPolymorphicFunctionType _);
      [apply keeps_ret | apply keeps_emitCurryThunks].
  - apply keeps_bind; [apply keeps_get|]. intros s0.
    destruct (isPolymorphicFunctionType _);
      [apply keeps_ret | apply keeps_emitCurryThunks].
Qed.

Lemma keeps_visitPatternBindingDecl pd :
  KeepsTopLevel (visitPatternBindingDecl emitBody pd).
Proof.
  apply keeps_bind; [apply keeps_get|]. intros s0.
  destruct (TopLevelSGF s0) as [sgf|]; [|apply keeps_ret].
  destruct (negb (hasValidInsertionPoint (B sgf))); [apply keeps_ret|].
  apply keeps_bind; [apply keeps_record|]. intros _.
  apply keeps_bind; [apply emitBody_keeps|]. intros sgf'.
  intros s a s' <-%Done_state _. by eexists.
Qed.

Lemma keeps_visitAll ds : KeepsTopLevel (visitAll ds).
Proof.
  induction ds as [|D rest IH]; simpl; [apply keeps_ret|].
  apply keeps_bind; [|intros _; apply IH].
  destruct D as [fd | pd | vd]; simpl.
  - apply keeps_emitFunction.
  - apply keeps_visitPatternBindingDecl.
  - apply keeps_visitVarDecl.
Qed.

Lemma keeps_emitExternalDefinitions defs :
  KeepsTopLevel (emitExternalDefinitions emitExternalDefinition defs).
Proof.
  induction defs as [|def rest IH]; simpl; [apply keeps_ret|].
  apply keeps_bind; [apply emitExternalDefinition_keeps | intros _; apply IH].
Qed.

Lemma constructSIL_post tu startElem m s :
  constructSIL tu startElem = Done m s →
  (startElem ≤ length (Decls tu))%nat ∧
  m = M s ∧ TopLevelSGF s = None ∧
  verify (functionAt s 0) = true ∧
  forallb verify (functions m) = true.
Proof.
  unfold Driver.constructSIL. rewrite SILGenModule_new_eq.
  intros (ds & s0 & Hslice & Hrest)%bind_Done.
  apply bind_Done in Hrest as ([] & s1 & Hvisit & Hrest).
  apply bind_Done in Hrest as ([] & s2 & Hext & Hrest).
  apply bind_Done in Hrest as ([] & s3 & Hdestroy & Hrest).
  unfold bind, get, ret in Hrest. injection Hrest as <- <-.
  unfold slice in Hslice.
  destruct (startElem <=? length (Decls tu))%nat eqn:Hle; [|done].
  injection Hslice as <- <-. apply Nat.leb_le in Hle.
  split; [done|]. split; [done|].
  assert (Htop2 : is_Some (TopLevelSGF s2)).
  { eapply keeps_emitExternalDefinitions; [exact Hext|].
    eapply keeps_visitAll; [exact Hvisit|]. by eexists. }
  destruct Htop2 as [sgf Htop2].
  destruct (SILGenModule_destroy_post verify s2 sgf s3 Htop2 Hdestroy)
    as (Hnone & Hv & Hall & _).
  split; [done|]. split; [|done].
  destruct (functions (M s3)) as [|fn fns] eqn:Efs.
  - unfold functionAt in Hv |- *. rewrite Efs in Hv |- *.
    by rewrite list_lookup_total_alt in Hv |- *.
  - unfold functionAt. rewrite Efs. simpl in Hall |- *.
    by apply andb_true_iff in Hall as [? ?].
Qed.

End Keeping.


End EntryPoint.

(** ** The statements on the small session *)

Section OnExamples.

Import Examples.
Local Open Scope N_scope.

Lemma nullEmit_WellBehaved : WellBehaved nullEmit.
Proof.
  intros req f hvr s fn Hf Hblocks.
  exists (mkSILGenFunction f (mkSILBuilder (Some 0%nat)) [] hvr None), [[]].
  split; [|split; [|split; [|split; [|split]]]].
  - unfold nullEmit, ret. f_equal.
    assert (Hfn : setBlocks [[]] fn = fn).
    { destruct fn. simpl in *. by subst. }
    rewrite Hfn, list_insert_id by done.
    by destruct s as [[fs gl] ? ? ? ? ? ? ? ?].
  - reflexivity.
  - reflexivity.
  - done.
  - intros [|i] blk Hi Hne; simpl in *; [done | by destruct i].
  - intros bb [= <-]. split; [by eexists | done].
Qed.

Lemma exVerify_Accepts : Accepts exVerify.
Proof. by intros fn _ H. Qed.

Lemma ex_Lowers : Lowers exVerify nullEmit.
Proof.
  apply WellBehaved_Lowers; [apply nullEmit_WellBehaved | apply exVerify_Accepts].
Qed.

Lemma nullEmit_TopLevelFrame : TopLevelFrame nullEmit.
Proof. intros pd sgf s. by exists sgf, s. Qed.

Lemma session0_empty_cache : emittedFunctions session0 = ∅.
Proof. reflexivity. Qed.

(** C1 on a function with one open block and two pending cleanups. *)
Lemma SILGenFunction_destroy_falls_through_witness :
  SILGenFunction_destroy sgfVoid openSession =
    Done tt
      (withBlock 0%nat openFn 0%nat
         [OtherInst 1; TupleInst None [];
          CleanupInst cleanup2; CleanupInst cleanup1;
          ReturnInst None (mkSILValue 0%nat 1%nat)] openSession) ∧
  SILGenFunction_destroy sgfNonVoid openSession =
    Done tt
      (withBlock 0%nat openFn 0%nat
         [OtherInst 1;
          UnreachableInst (Some (NodeExpr (ceBody closure)))] openSession).
Proof.
  split.
  - apply (proj1 (SILGenFunction_destroy_falls_through
                    sgfVoid openSession openFn 0%nat [OtherInst 1]
                    [cleanup1; cleanup2]
                    eq_refl eq_refl eq_refl eq_refl)); reflexivity.
  - apply (proj2 (SILGenFunction_destroy_falls_through
                    sgfNonVoid openSession openFn 0%nat [OtherInst 1]
                    [cleanup1; cleanup2]
                    eq_refl eq_refl eq_refl eq_refl)); reflexivity.
Defined.

(** C2 on the class constructor whose second parameter has a default:
    one generator, the allocator and the initializer, in this order. *)
Lemma emitConstructor_functions_witness :
  ∃ s',
    emitConstructor exConstantType exMangle exVerify nullEmit classCtor session0
      = Done tt s' ∧
    Emits [generatorItem (LocValueDecl (VD_Constructor classCtor))
                         (1%N, mkExpr 11 false);
           (allocatorRef classCtor, true,
            EmitClassConstructorAllocator classCtor);
           (initializerRef classCtor, true,
            EmitClassConstructorInitializer classCtor)] session0 s'.
Proof.
  destruct (emitConstructor_functions exConstantType exMangle exVerify nullEmit
              classCtor session0 ex_Lowers
              (Ready_empty_cache _ _ session0_empty_cache) eq_refl)
    as (s' & Hrun & Hemits & _).
  exists s'. split; [exact Hrun | exact Hemits].
Defined.

(** C3 on the function with three argument lists: the main function and
    the thunks of levels 1 and 0. *)
Lemma emitFunction_curry_thunks_witness :
  ∃ s',
    emitFunction exConstantType exIsPolymorphic exMangle exVerify nullEmit
                 (LocValueDecl (VD_Func curriedFd)) curriedFe session0
      = Done tt s' ∧
    Emits [mainItem (LocValueDecl (VD_Func curriedFd)) curriedFe;
           curryThunkItem curriedFe (ofLoc (LocValueDecl (VD_Func curriedFd))) 1%nat;
           curryThunkItem curriedFe (ofLoc (LocValueDecl (VD_Func curriedFd))) 0%nat]
          session0 s'.
Proof.
  destruct (emitFunction_curry_thunks exConstantType exIsPolymorphic exMangle
              exVerify nullEmit (LocValueDecl (VD_Func curriedFd)) curriedFe
              22%N session0 ex_Lowers eq_refl
              (Ready_empty_cache _ _ session0_empty_cache)
              (conj (λ H : isTypeMember curriedFe = true,
                       False_ind _ (Bool.diff_false_true H))
                    eq_refl))
    as (s' & thunks & Hrun & Hemits & Hthunks & _).
  destruct (Hthunks eq_refl eq_refl eq_refl) as (-> & _).
  exists s'. split; [exact Hrun | exact Hemits].
Defined.

(** C4 on a closure emitted twice and on the thunks of a property
    requested twice. *)
Lemma emission_twice_rejected_witness :
  (∃ s', emitClosure exConstantType exMangle exVerify nullEmit closure session0
           = Done tt s' ∧
         emitClosure exConstantType exMangle exVerify nullEmit closure s'
           = alreadyEmitted) ∧
  (∃ s', emitObjCPropertyMethodThunks exConstantType exMangle exVerify nullEmit
           prop session0 = Done tt s' ∧
         emitObjCPropertyMethodThunks exConstantType exMangle exVerify nullEmit
           prop s' = Done tt s').
Proof.
  destruct (emission_twice_rejected exConstantType exIsPolymorphic exMangle
              exVerify nullEmit ex_Lowers)
    as (_ & _ & Hclosure & _ & _ & _ & _ & _ & _ & _ & Hprop).
  split.
  - eexists. split; [vm_compute; reflexivity|].
    eapply Hclosure; [apply (wf_empty_cache _ session0_empty_cache)|].
    vm_compute. reflexivity.
  - eexists. split; [vm_compute; reflexivity|].
    eapply (proj2 (Hprop prop session0));
      [apply (wf_empty_cache _ session0_empty_cache)|].
    vm_compute. reflexivity.
Defined.

(** C5 on the bridging function declared with two parameters. *)
Lemma getBridgingFn_resolution_witness :
  ∃ l,
    getBridgingFn exConstantType exFunctionTypeInfo exLookup
                  SlotStringToNSString "Foundation" "convertStringToNSString"
                  [tyByrefString] tyNSString session0 =
    Exit1 (setDiags
             [mkDiagnostic l bridging_function_not_correct_type
                           "Foundation" "convertStringToNSString"] session0).
Proof.
  apply (proj1 (getBridgingFn_resolution exConstantType exFunctionTypeInfo
                  exLookup SlotStringToNSString
                  "Foundation" "convertStringToNSString"
                  [tyByrefString] tyNSString session0 eq_refl)).
  apply (signature_mismatch _ _ _ _ _ _ _ bridgeFd); [reflexivity|].
  left. discriminate.
Defined.

(** C7 on the prototype with a defaulted parameter: its generator is all
    that is emitted. *)
Lemma emitFunction_default_arguments_witness :
  ∃ s',
    emitFunction exConstantType exIsPolymorphic exMangle exVerify nullEmit
                 (LocValueDecl (VD_Func protoFd)) protoFe session0
      = Done tt s' ∧
    Emits [generatorItem (LocValueDecl (VD_Func protoFd)) (0%N, mkExpr 33 false)]
          session0 s'.
Proof.
  destruct (emitFunction_default_arguments exConstantType exIsPolymorphic
              exMangle exVerify nullEmit (LocValueDecl (VD_Func protoFd))
              protoFe session0 ex_Lowers
              (Ready_empty_cache _ _ session0_empty_cache)
              (conj (λ H : isTypeMember protoFe = true,
                       False_ind _ (Bool.diff_false_true H))
                    eq_refl))
    as (s' & rest & Hrun & Hemits & Hrest & _).
  rewrite (Hrest eq_refl) in Hemits.
  exists s'. split; [exact Hrun | exact Hemits].
Defined.

(** C7 as stated fails on the same prototype: emission is not skipped,
    the module gains the generator's function, with a body. *)
Lemma prototype_generator_emitted :
  feBody protoFe = None ∧
  ∃ s',
    emitFunction exConstantType exIsPolymorphic exMangle exVerify nullEmit
                 (LocValueDecl (VD_Func protoFd)) protoFe session0
      = Done tt s' ∧
    trace s' =
      [Emitted (getDefaultArgGenerator (LocValueDecl (VD_Func protoFd)) 0) 1%nat
               false
               (EmitGeneratorFunction
                  (getDefaultArgGenerator (LocValueDecl (VD_Func protoFd)) 0)
                  (mkExpr 33 false))] ∧
    length (functions (M session0)) = 1%nat ∧
    length (functions (M s')) = 2%nat ∧
    fnBlocks (functionAt s' 1%nat) =
      [[UnreachableInst None]].
Proof.
  split; [reflexivity|]. eexists. split; [vm_compute; reflexivity|].
  repeat split.
Qed.

(** C8 on the first binding of a session and on a session whose
    top-level code is closed. *)
Lemma visitPatternBindingDecl_while_valid_witness :
  (∃ s', visitPatternBindingDecl nullEmit binding1 session0 = Done tt s' ∧
         trace s' = [TopLevel (VisitPatternBinding binding1)]) ∧
  visitAll exConstantType exIsPolymorphic exMangle exVerify nullEmit
           [D_PatternBinding binding1; D_PatternBinding binding2] sessionClosed
    = Done tt sessionClosed.
Proof.
  split.
  - apply (proj1 (proj1 (visitPatternBindingDecl_while_valid
                           exConstantType exIsPolymorphic exMangle exVerify
                           nullEmit binding1 session0 _ eq_refl)
                        nullEmit_TopLevelFrame)).
    reflexivity.
  - apply (proj2 (proj2 (proj2 (visitPatternBindingDecl_while_valid
                                  exConstantType exIsPolymorphic exMangle
                                  exVerify nullEmit binding1 sessionClosed _
                                  eq_refl))
                        eq_refl)
             [binding1; binding2]).
Defined.

(** C9 on the settable property: the getter thunk, then the setter
    thunk. *)
Lemma emitObjCPropertyMethodThunks_setter_witness :
  ∃ s',
    emitObjCPropertyMethodThunks exConstantType exMangle exVerify nullEmit
                                 prop session0 = Done tt s' ∧
    Emits [getterItem prop; setterItem prop] session0 s'.
Proof.
  destruct (proj1 (proj2 (emitObjCPropertyMethodThunks_setter
                            exConstantType exMangle exVerify nullEmit
                            prop session0 ex_Lowers
                            (wf_empty_cache _ session0_empty_cache))))
    as (s' & Hrun & Hemits & _).
  - intros _. apply not_cached_bodiless. reflexivity.
  - exists s'. split; [exact Hrun | exact Hemits].
Defined.

End OnExamples.

(** ** The further properties on the small session *)

Section MoreOnExamples.

Import Examples.
Local Open Scope N_scope.

Lemma bodiless_empty_cache s c : emittedFunctions s = ∅ → bodiless s c.
Proof. intros H f Hf. by rewrite H, lookup_empty in Hf. Qed.

Lemma nullEmit_keeps req sgf : KeepsTopLevel (nullEmit req sgf).
Proof. by intros s a s' <-%Done_state. Qed.

Lemma noExternalDefinition_keeps def : KeepsTopLevel (noExternalDefinition def).
Proof. by intros s a s' <-%Done_state. Qed.

Lemma curriedFe_PatternsOk : PatternsOk curriedFe.
Proof.
  split; [|reflexivity]. intros H. exact (False_ind _ (Bool.diff_false_true H)).
Qed.

(** X1 on the function with one open block: a second block is added,
    which ends in [unreachable] at the body of the closure. *)
Lemma SILGenFunction_nothing_emitted_witness :
  ∃ sgf s1,
    SILGenFunction_new 0%nat false openSession = Done sgf s1 ∧
    SILGenFunction_destroy sgf s1 =
      Done tt
        (setFunctions
           [setBlocks [[OtherInst 1];
                       [UnreachableInst (Some (NodeExpr (ceBody closure)))]]
                      openFn] openSession).
Proof.
  destruct (SILGenFunction_nothing_emitted 0%nat false openSession openFn eq_refl)
    as (sgf & s1 & Hnew & _ & _ & _ & _ & _ & _ & Hdestroy).
  exists sgf, s1. split; [exact Hnew | exact Hdestroy].
Defined.

(** X4 on the empty module. *)
Lemma empty_session_lifecycle_witness :
  ∃ s s',
    SILGenModule_new tyTopLevel emptyModule = Done tt s ∧
    SILGenModule_destroy exVerify s = Done tt s' ∧
    functions (M s') =
      [topLevelFunction tyTopLevel
         [[TupleInst None []; ReturnInst None (mkSILValue 0%nat 0%nat)]]].
Proof.
  destruct (empty_session_lifecycle exVerify tyTopLevel emptyModule
              eq_refl eq_refl)
    as (s & s' & Hnew & Hdestroy & Hfunctions & _).
  exists s, s'. split; [exact Hnew|]. split; [exact Hdestroy | exact Hfunctions].
Defined.

(** X5 on the session that is closed right after it was opened. *)
Lemma SILGenModule_destroy_verified_witness :
  TopLevelSGF sessionEnd = None ∧
  forallb exVerify (functions (M sessionEnd)) = true.
Proof.
  destruct (SILGenModule_destroy_verified exVerify session0
              (mkSILGenFunction 0%nat (mkSILBuilder (Some 0%nat)) [] true None)
              sessionEnd eq_refl eq_refl)
    as (Htop & _ & Hall & _).
  split; [exact Htop | exact Hall].
Defined.

(** X7 on the closure and the getter of the property. *)
Lemma getFunction_distinct_witness :
  wf session2 ∧
  getFunction exConstantType exMangle (closureRef closure) session2
    = Done 1%nat session2 ∧
  getFunction exConstantType exMangle (getterRef prop) session2
    = Done 2%nat session2.
Proof.
  destruct (getFunction_distinct exConstantType exMangle
              (closureRef closure) (getterRef prop)
              session0 session1 session2 1%nat 2%nat
              (wf_empty_cache _ session0_empty_cache)
              ltac:(vm_compute; discriminate) eq_refl eq_refl)
    as (_ & Hwf & _ & _ & _ & H1 & H2).
  split; [exact Hwf|]. split; [exact H1 | exact H2].
Defined.

(** X9 on the closure, in the fresh session. *)
Lemma preEmitFunction_stamps_witness :
  ∃ f s1,
    preEmitFunction exConstantType exMangle (closureRef closure)
      (Some (NodeClosureExpr closure)) session0 = Done f s1 ∧
    fnLocation (functionAt s1 f) = Some (NodeClosureExpr closure) ∧
    fnBlocks (functionAt s1 f) = [] ∧
    fnLinkage (functionAt s1 f) = Internal.
Proof.
  destruct (preEmitFunction_stamps exConstantType exMangle (closureRef closure)
              (Some (NodeClosureExpr closure)) session0
              (wf_empty_cache _ session0_empty_cache)
              (bodiless_empty_cache _ _ session0_empty_cache))
    as (f & s1 & Hrun & _ & Hloc & _ & Hblocks & _ & Hnew & _).
  exists f, s1. split; [exact Hrun|]. split; [exact Hloc|].
  split; [exact Hblocks|]. exact (proj1 (proj2 (proj2 (Hnew eq_refl)))).
Defined.

(** X10 on the closure. *)
Lemma emitClosure_lowers_witness :
  ∃ f s',
    emitClosure exConstantType exMangle exVerify nullEmit closure session0
      = Done tt s' ∧
    Emits [(closureRef closure, false, EmitClosure closure)] session0 s' ∧
    fnLocation (functionAt s' f) = Some (NodeClosureExpr closure) ∧
    fnLinkage (functionAt s' f) = Internal.
Proof.
  destruct (proj1 (emitClosure_lowers exConstantType exMangle exVerify nullEmit
                     ex_Lowers)
              closure session0 (wf_empty_cache _ session0_empty_cache)
              (bodiless_empty_cache _ _ session0_empty_cache))
    as (f & s' & Hrun & Hemits & _ & _ & Hloc & Hlinkage).
  exists f, s'. split; [exact Hrun|]. split; [exact Hemits|].
  split; [exact Hloc | exact (Hlinkage eq_refl)].
Defined.

(** X11 on the class that declares no destructor. *)
Lemma emitDestructor_lowers_witness :
  ∃ f s',
    emitDestructor exConstantType exMangle exVerify nullEmit klass None session0
      = Done tt s' ∧
    Emits [(destroyerRef klass, true, EmitDestructor klass None)] session0 s' ∧
    fnLocation (functionAt s' f) = None ∧
    fnLinkage (functionAt s' f) = External.
Proof.
  destruct (emitDestructor_lowers exConstantType exMangle exVerify nullEmit
              klass None session0 ex_Lowers
              (wf_empty_cache _ session0_empty_cache)
              (bodiless_empty_cache _ _ session0_empty_cache))
    as (f & s' & Hrun & Hemits & _ & _ & _ & Hloc & Hlinkage).
  exists f, s'. split; [exact Hrun|]. split; [exact Hemits|].
  split; [exact (Hloc eq_refl) | exact (Hlinkage eq_refl)].
Defined.

(** X12 on the thunk of level 1 of the function with three argument
    lists. *)
Lemma derived_functions_linkage_witness :
  ∃ f s',
    emitCurryThunk exConstantType exMangle exVerify nullEmit
      (atUncurryLevel (ofLoc (LocValueDecl (VD_Func curriedFd))) 1)
      (ofLoc (LocValueDecl (VD_Func curriedFd))) curriedFe session0
      = Done tt s' ∧
    fnLinkage (functionAt s' f) = External ∧
    fnLocation (functionAt s' f) = Some (NodeFuncExpr curriedFe).
Proof.
  destruct (proj1 (derived_functions_linkage exConstantType exMangle exVerify
                     nullEmit ex_Lowers)
              (ofLoc (LocValueDecl (VD_Func curriedFd))) 1
              (ofLoc (LocValueDecl (VD_Func curriedFd))) curriedFe session0
              (wf_empty_cache _ session0_empty_cache) eq_refl)
    as (f & s' & Hrun & _ & Hlinkage & Hloc).
  exists f, s'. split; [exact Hrun|]. split; [exact Hlinkage | exact Hloc].
Defined.

(** X13 on the function with three argument lists, as a method. *)
Lemma emitObjCMethodThunk_lowers_witness :
  ∃ f s',
    emitObjCMethodThunk exConstantType exMangle exVerify nullEmit curriedFd
      session0 = Done tt s' ∧
    hasFunction (methodThunkRef curriedFd) s' = Done true s' ∧
    fnLocation (functionAt s' f) = Some (NodeFuncExpr curriedFe).
Proof.
  destruct (emitObjCMethodThunk_lowers exConstantType exMangle exVerify nullEmit
              curriedFd session0 ex_Lowers
              (wf_empty_cache _ session0_empty_cache) eq_refl)
    as (f & s' & Hrun & _ & _ & Hhas & _ & Hloc & _).
  exists f, s'. split; [exact Hrun|]. split; [exact Hhas | exact Hloc].
Defined.

(** X14 on the function with three argument lists: the top-level
    function, the only one with a body in the fresh session, is kept. *)
Lemma emission_frame_witness :
  ∃ s',
    emitFunction exConstantType exIsPolymorphic exMangle exVerify nullEmit
      (LocValueDecl (VD_Func curriedFd)) curriedFe session0 = Done tt s' ∧
    functionAt s' 0%nat = functionAt session0 0%nat ∧
    TopLevelSGF s' = TopLevelSGF session0.
Proof.
  destruct (proj1 (emission_frame exConstantType exIsPolymorphic exMangle
                     exVerify nullEmit ex_Lowers)
              (LocValueDecl (VD_Func curriedFd)) curriedFe session0
              (Ready_empty_cache _ _ session0_empty_cache) curriedFe_PatternsOk)
    as (s' & Hrun & _ & Hframe & _ & Htop & _).
  exists s'. split; [exact Hrun|]. split; [exact (Hframe 0%nat eq_refl) | exact Htop].
Defined.

(** X15 on the closure. *)
Lemma emitClosure_falls_through_witness :
  ∃ s',
    emitClosure exConstantType exMangle exVerify nullEmit closure session0
      = Done tt s' ∧
    functions (M s') =
      functions (M session0) ++
      [mkSILFunction Internal "sil_function" tyThin
         [[UnreachableInst (Some (NodeExpr (ceBody closure)))]]
         (Some (Some (NodeClosureExpr closure)))
         (Some (NodeClosureExpr closure))].
Proof.
  destruct (emitClosure_falls_through exConstantType exMangle exVerify nullEmit
              closure session0 (λ sgf s, eq_refl) eq_refl eq_refl)
    as (s' & Hrun & Hfunctions & _).
  exists s'. split; [exact Hrun | exact Hfunctions].
Defined.

(** X16 on the prototype without defaults. *)
Lemma visitFuncDecl_prototype_witness :
  visitFuncDecl exConstantType exIsPolymorphic exMangle exVerify nullEmit
    plainProtoFd session0 = Done tt session0.
Proof.
  exact (proj1 (visitFuncDecl_prototype exConstantType exIsPolymorphic exMangle
                  exVerify nullEmit plainProtoFd session0 eq_refl eq_refl
                  (λ H : isTypeMember plainProtoFe = true,
                     False_ind _ (Bool.diff_false_true H)))).
Defined.

(** X19 on the conversion from [String] to [NSString]: once resolved, the
    slot answers requests for any name. *)
Lemma getBridgingFn_memoizes_witness :
  getSlot SlotStringToNSString sessionBridged =
    Some (ofLoc (LocValueDecl (VD_Func bridgeFd))) ∧
  getBridgingFn exConstantType exFunctionTypeInfo exLookup SlotStringToNSString
    "NoModule" "noFunction" [] tyEmptyTuple sessionBridged =
    Done (ofLoc (LocValueDecl (VD_Func bridgeFd))) sessionBridged.
Proof.
  destruct (getBridgingFn_memoizes exConstantType exFunctionTypeInfo exLookup
              SlotStringToNSString "Foundation" "convertStringToNSString"
              [tyByrefString; tyBool] tyNSString session0 sessionBridged
              (ofLoc (LocValueDecl (VD_Func bridgeFd))) eq_refl)
    as (Hslot & Hagain).
  split; [exact Hslot|].
  exact (Hagain exConstantType exFunctionTypeInfo exLookup
           "NoModule" "noFunction" [] tyEmptyTuple).
Defined.

(** X21 on the unit whose declarations after the first are a stored
    variable and a property. *)
Lemma constructSIL_variables_witness :
  ∃ s,
    exConstructSIL unitOfVariables 1%nat =
      Done (mkSILModule
              [topLevelFunction tyTopLevel
                 [[TupleInst None [];
                   ReturnInst None (mkSILValue 0%nat 0%nat)]]]
              (storedGlobals [stored; prop])) s.
Proof.
  destruct (constructSIL_variables exConstantType exIsPolymorphic exMangle
              exVerify nullEmit tyTopLevel noExternalDefinition
              unitOfVariables 1%nat [stored; prop]
              ltac:(simpl; lia) eq_refl eq_refl eq_refl)
    as (s & _ & Hrun & _).
  exists s. exact Hrun.
Defined.


End MoreOnExamples.

